(** * Email-Database-Excel: the contact extractor, the de-duplicating store
      and the polling orchestrator, embedded from [gmail_reader.py] and
      [app.py].

    Python [str] values are sequences of Unicode code points; they are
    modelled as lists of [N].  The functions of the interpreter's library
    that the program calls ([re], [str.strip], [base64], [bytes.decode],
    [sqlite3]) are modelled next to the program's own functions, restricted
    to the constructs the program uses. *)

From Stdlib Require Import NArith Ascii String List Lia Bool Sorted Permutation.
From stdpp Require Import gmap strings list.

(** ** Strings *)

Definition char := N.
Definition str := list N.

(** A literal of the source: its characters as code points. *)
Definition u (s : string) : str :=
  List.map N_of_ascii (list_ascii_of_string s).

Definition LF : char := 10%N.
Definition CR : char := 13%N.

(** [Py_UNICODE_ISSPACE]: the set behind [str.isspace], [str.strip] and the
    [\s] of a [str] pattern. *)
Definition isspace (c : char) : bool :=
  ((9 <=? c) && (c <=? 13) || (28 <=? c) && (c <=? 32)
   || (c =? 133) || (c =? 160) || (c =? 5760)
   || (8192 <=? c) && (c <=? 8202)
   || (c =? 8232) || (c =? 8233) || (c =? 8239) || (c =? 8287)
   || (c =? 12288))%N.

Fixpoint lstrip (s : str) : str :=
  match s with
  | c :: t => if isspace c then lstrip t else s
  | [] => []
  end.

Definition rstrip (s : str) : str := rev (lstrip (rev s)).

(** [s.strip()] *)
Definition strip (s : str) : str := rstrip (lstrip s).

(** [s[a:b]] for [0 <= a <= b]. *)
Definition slice (s : str) (a b : nat) : str := take (b - a) (drop a s).

(** ** The regular expressions of [re], for the constructs of the program's
       patterns *)

Record flags := Flags { IGNORECASE : bool; MULTILINE : bool; DOTALL : bool }.

Definition no_flags : flags := Flags false false false.

(** Members of a bracket expression. *)
Inductive item :=
| IRange (lo hi : char)
| IChar (c : char)
| ISpace.

(** What matches one character. *)
Inductive atom :=
| Any                       (* .      *)
| Lit (c : char)            (* a literal character *)
| Space                     (* \s     *)
| Class (items : list item) (* [...]  *).

Inductive regex :=
| Eps                                                 (* the empty pattern *)
| Atom (a : atom)
| Cat (r1 r2 : regex)
| Alt (r1 r2 : regex)                                 (* r1|r2 *)
| Repeat (a : atom) (lo : nat) (hi : option nat) (greedy : bool)
                                                      (* a{lo,hi} and a{lo,hi}? *)
| Group (r : regex)                                   (* (r), group 1 *)
| Ahead (r : regex)                                   (* (?=r) *)
| Bol                                                 (* ^ *)
| Eol                                                 (* $ *).

Definition is_upper (c : char) : bool := ((65 <=? c) && (c <=? 90))%N.
Definition is_lower (c : char) : bool := ((97 <=? c) && (c <=? 122))%N.

Definition ascii_tolower (c : char) : char :=
  if is_upper c then (c + 32)%N else c.

(** [lowers_to c l]: the simple lower-case mapping of the code point [c] is
    [l], for an ASCII [l].  Besides the two cases of an ASCII letter, KELVIN
    SIGN (U+212A) lowers to k and LATIN CAPITAL LETTER I WITH DOT ABOVE
    (U+0130) to i. *)
Definition lowers_to (c l : char) : bool :=
  (negb (is_upper l)
   && ((c =? l) || is_lower l && (c + 32 =? l)
       || (l =? 107) && (c =? 8490) || (l =? 105) && (c =? 304)))%N.

(** The extra equivalences the pattern compiler adds for a lower-case letter
    (its [_ignorecase_fixes]): dotless i (U+0131) for i, long s (U+017F)
    for s. *)
Definition ignorecase_fix (l c : char) : bool :=
  ((l =? 105) && (c =? 305) || (l =? 115) && (c =? 383))%N.

(** A literal [x] of a pattern compiled with IGNORECASE, against [c]. *)
Definition lit_ignore (x c : char) : bool :=
  lowers_to c (ascii_tolower x) || ignorecase_fix (ascii_tolower x) c.

Fixpoint N_range (lo : char) (n : nat) : list char :=
  match n with
  | O => []
  | S n' => lo :: N_range (N.succ lo) n'
  end.

Definition item_match (ic : bool) (c : char) (i : item) : bool :=
  match i with
  | IRange lo hi =>
      if ic then existsb (fun x => lit_ignore x c)
                         (N_range lo (N.to_nat (N.succ hi - lo)))
      else ((lo <=? c) && (c <=? hi))%N
  | IChar x => if ic then lit_ignore x c else (c =? x)%N
  | ISpace => isspace c
  end.

Definition atom_match (f : flags) (a : atom) (c : char) : bool :=
  match a with
  | Any => DOTALL f || negb (c =? LF)%N
  | Lit x => if IGNORECASE f then lit_ignore x c else (c =? x)%N
  | Space => isspace c
  | Class items => existsb (item_match (IGNORECASE f) c) items
  end.

(** The matcher's position in the subject: the character before it, its
    index, the text from it on, and the span of group 1 when it is closed. *)
Record mstate := MState {
  prev : option char;
  pos : nat;
  rest : str;
  grp : option (nat * nat)
}.

Definition allows (hi : option nat) : bool :=
  match hi with Some O => false | _ => true end.

Definition dec_hi (hi : option nat) : option nat :=
  match hi with Some n => Some (Nat.pred n) | None => None end.

(** A repeated atom followed by the rest of the pattern [k].  The greedy
    form takes one more character before it tries [k]; the lazy form tries
    [k] first.  Either backtracks to the other choice when the first
    fails. *)
Fixpoint rep (test : char -> bool) (greedy : bool) (lo : nat) (hi : option nat)
    (k : mstate -> option mstate)
    (pv : option char) (p : nat) (g : option (nat * nat)) (s : str)
    {struct s} : option mstate :=
  match lo with
  | S lo' =>
      match s with
      | c :: t =>
          if test c && allows hi
          then rep test greedy lo' (dec_hi hi) k (Some c) (S p) g t
          else None
      | [] => None
      end
  | O =>
      if greedy then
        match
          match s with
          | c :: t =>
              if test c && allows hi
              then rep test greedy O (dec_hi hi) k (Some c) (S p) g t
              else None
          | [] => None
          end
        with
        | Some m => Some m
        | None => k (MState pv p s g)
        end
      else
        match k (MState pv p s g) with
        | Some m => Some m
        | None =>
            match s with
            | c :: t =>
                if test c && allows hi
                then rep test greedy O (dec_hi hi) k (Some c) (S p) g t
                else None
            | [] => None
            end
        end
  end.

Definition at_bol (f : flags) (m : mstate) : bool :=
  match pos m with
  | O => true
  | S _ => MULTILINE f && match prev m with Some c => (c =? LF)%N | None => false end
  end.

Definition at_eol (f : flags) (m : mstate) : bool :=
  match rest m with
  | [] => true
  | c :: t => (c =? LF)%N && (MULTILINE f || match t with [] => true | _ => false end)
  end.

(** The backtracking matcher, in continuation-passing style: [run f r k m]
    matches [r] at [m] and hands every way of doing so, in the order of
    preference of [re], to [k], until [k] accepts one. *)
Fixpoint run (f : flags) (r : regex) (k : mstate -> option mstate)
    (m : mstate) : option mstate :=
  match r with
  | Eps => k m
  | Atom a =>
      match rest m with
      | c :: t =>
          if atom_match f a c then k (MState (Some c) (S (pos m)) t (grp m))
          else None
      | [] => None
      end
  | Cat r1 r2 => run f r1 (run f r2 k) m
  | Alt r1 r2 =>
      match run f r1 k m with
      | Some m' => Some m'
      | None => run f r2 k m
      end
  | Repeat a lo hi greedy =>
      rep (atom_match f a) greedy lo hi k (prev m) (pos m) (grp m) (rest m)
  | Group r1 =>
      run f r1 (fun m' => k (MState (prev m') (pos m') (rest m')
                                    (Some (pos m, pos m')))) m
  | Ahead r1 =>
      match run f r1 Some m with
      | Some _ => k m
      | None => None
      end
  | Bol => if at_bol f m then k m else None
  | Eol => if at_eol f m then k m else None
  end.

(** A match object: where the match starts and ends, and group 1. *)
Record match_obj := MatchObj {
  m_start : nat;
  m_end : nat;
  m_group1 : option (nat * nat)
}.

Fixpoint scan (f : flags) (r : regex) (pv : option char) (p : nat) (s : str)
    {struct s} : option match_obj :=
  match run f r Some (MState pv p s None) with
  | Some m => Some (MatchObj p (pos m) (grp m))
  | None =>
      match s with
      | c :: t => scan f r (Some c) (S p) t
      | [] => None
      end
  end.

(** [re.search(r, s, f)]: the leftmost match. *)
Definition re_search (f : flags) (r : regex) (s : str) : option match_obj :=
  scan f r None 0 s.

(** [match.group(0)] and [match.group(1)] on the subject [s]. *)
Definition group0 (s : str) (m : match_obj) : str :=
  slice s (m_start m) (m_end m).

Definition group1 (s : str) (m : match_obj) : str :=
  match m_group1 m with
  | Some (a, b) => slice s a b
  | None => []
  end.

(** [re.sub(r, repl, s)] for a pattern that matches no empty string, as the
    three the program substitutes with do: the matches are found left to
    right, each search starting where the last match ended.  [skip] counts
    the characters of the current match that are still to be dropped. *)
Fixpoint sub_from (f : flags) (r : regex) (repl : str)
    (skip : nat) (pv : option char) (p : nat) (s : str) {struct s} : str :=
  match s with
  | [] => []
  | c :: t =>
      match skip with
      | S n => sub_from f r repl n (Some c) (S p) t
      | O =>
          match run f r Some (MState pv p s None) with
          | Some m =>
              match pos m - p with
              | S n => repl ++ sub_from f r repl n (Some c) (S p) t
              | O => c :: sub_from f r repl 0 (Some c) (S p) t
              end
          | None => c :: sub_from f r repl 0 (Some c) (S p) t
          end
      end
  end.

Definition re_sub (f : flags) (r : regex) (repl s : str) : str :=
  sub_from f r repl 0 None 0 s.

(** Pattern building blocks. *)
Definition word (w : string) : regex :=
  foldr (fun c r => Cat (Atom (Lit c)) r) Eps (u w).

Fixpoint alts (r : regex) (rs : list regex) : regex :=
  match rs with
  | [] => r
  | r' :: rs' => Alt r (alts r' rs')
  end.

Definition star (a : atom) : regex := Repeat a 0 None true.
Definition plus (a : atom) : regex := Repeat a 1 None true.
Definition opt (a : atom) : regex := Repeat a 0 (Some 1) true.
Definition plus_lazy (a : atom) : regex := Repeat a 1 None false.

Fixpoint cat (rs : list regex) : regex :=
  match rs with
  | [] => Eps
  | [r] => r
  | r :: rs' => Cat r (cat rs')
  end.

Definition ch (a : ascii) : char := N_of_ascii a.

(** ** [GmailReader._parse_contact_info] *)

(** [label\s*:?\s*], the head of every labelled pattern. *)
Definition label_head (l : string) : regex :=
  cat [word l; star Space; opt (Lit (ch ":")); star Space].

(** [(?:l1|...|ln|$)] *)
Definition stops (ls : list string) : regex :=
  foldr (fun l r => Alt (word l) r) Eol ls.

(** [(?=\s*(?:l1|...|ln|$))] *)
Definition boundary (ls : list string) : regex :=
  Ahead (Cat (star Space) (stops ls)).

(** [[A-Za-z0-9\s]] *)
Definition postcode_class : atom :=
  Class [IRange (ch "A") (ch "Z"); IRange (ch "a") (ch "z");
         IRange (ch "0") (ch "9"); ISpace].

Definition name_patterns : list regex :=
  [ cat [label_head "name"; Group (plus_lazy Any);
         boundary ["address"; "postcode"; "skills"; "other"; "from"; "subject"]];
    cat [Bol; Group (plus_lazy Any);
         boundary ["address"; "postcode"; "skills"; "other"; "from"; "subject"]] ].

Definition address_patterns : list regex :=
  [ cat [label_head "address"; Group (plus_lazy Any);
         boundary ["postcode"; "skills"; "other"; "from"; "subject"]];
    cat [label_head "address"; Group (plus_lazy Any);
         Ahead (cat [star Space; word "postcode"; star Space; Atom (Lit (ch ":"))])] ].

Definition postcode_patterns : list regex :=
  [ cat [label_head "postcode"; Group (Repeat postcode_class 2 (Some 10) false);
         boundary ["skills"; "other"; "from"; "subject"]];
    cat [label_head "postcode"; Group (Repeat postcode_class 2 (Some 10) true)] ].

Definition skills_patterns : list regex :=
  [ cat [label_head "skills"; Group (plus_lazy Any);
         boundary ["other"; "from"; "subject"]];
    cat [label_head "skills"; Group (plus Any)] ].

Definition other_patterns : list regex :=
  [ cat [label_head "other"; Group (plus_lazy Any);
         boundary ["from"; "subject"]];
    cat [label_head "other"; Group (plus Any)] ].

(** The [patterns] dictionary, in its insertion order. *)
Definition patterns : list (string * list regex) :=
  [ ("name", name_patterns); ("address", address_patterns);
    ("postcode", postcode_patterns); ("skills", skills_patterns);
    ("other", other_patterns) ].

(** [re.IGNORECASE | re.MULTILINE | re.DOTALL] *)
Definition parse_flags : flags := Flags true true true.

(** [^:\s*], [\s+] and [\r\n], used without flags. *)
Definition colon_remnant : regex :=
  cat [Bol; Atom (Lit (ch ":")); star Space].
Definition space_run : regex := plus Space.
Definition crlf : regex := Cat (Atom (Lit CR)) (Atom (Lit LF)).

(** The three statements applied to a captured group. *)
Definition clean_value (captured : str) : str :=
  let value := strip captured in
  let value := re_sub no_flags colon_remnant [] value in
  re_sub no_flags space_run (u " ") value.

(** The inner loop: the patterns of one field in order, up to the first
    that matches ([break]). *)
Fixpoint first_match (cleaned_body : str) (pattern_list : list regex)
    : option str :=
  match pattern_list with
  | [] => None
  | pattern :: others =>
      match re_search parse_flags pattern cleaned_body with
      | Some m => Some (clean_value (group1 cleaned_body m))
      | None => first_match cleaned_body others
      end
  end.

Definition cleaned (email_body : str) : str :=
  re_sub no_flags crlf [LF] (strip email_body).

Definition initial_contact_info : gmap string str :=
  <["other" := []]> (<["skills" := []]> (<["postcode" := []]>
    (<["address" := []]> (<["name" := []]> ∅)))).

Definition parse_field (cleaned_body : str) (contact_info : gmap string str)
    (entry : string * list regex) : gmap string str :=
  match first_match cleaned_body (snd entry) with
  | Some value => <[fst entry := value]> contact_info
  | None => contact_info
  end.

Definition _parse_contact_info (email_body : str) : gmap string str :=
  foldl (parse_field (cleaned email_body)) initial_contact_info patterns.

(** ** Headers and sender address *)

Record header := Header { h_name : str; h_value : str }.

(** [[a-zA-Z0-9._%+-]+@[a-zA-Z0-9.-]+\.[a-zA-Z]{2,}] *)
Definition email_pattern : regex :=
  cat [ plus (Class [IRange (ch "a") (ch "z"); IRange (ch "A") (ch "Z");
                     IRange (ch "0") (ch "9"); IChar (ch "."); IChar (ch "_");
                     IChar (ch "%"); IChar (ch "+"); IChar (ch "-")]);
        Atom (Lit (ch "@"));
        plus (Class [IRange (ch "a") (ch "z"); IRange (ch "A") (ch "Z");
                     IRange (ch "0") (ch "9"); IChar (ch "."); IChar (ch "-")]);
        Atom (Lit (ch "."));
        Repeat (Class [IRange (ch "a") (ch "z"); IRange (ch "A") (ch "Z")])
               2 None true ].

Definition str_eqb (a b : str) : bool := bool_decide (a = b).

Section Lowercase.
(** [str.lower]: the interpreter's full Unicode case mapping. *)
Variable str_lower : str -> str.

Fixpoint _extract_header_value (headers : list header) (header_name : str)
    : str :=
  match headers with
  | [] => u "Unknown"
  | header :: more =>
      if str_eqb (str_lower (h_name header)) (str_lower header_name)
      then h_value header
      else _extract_header_value more header_name
  end.

Definition _extract_email_address (from_header : str) : str :=
  match from_header with
  | [] => u "Unknown"
  | _ =>
      match re_search no_flags email_pattern from_header with
      | Some m => strip (str_lower (group0 from_header m))
      | None => from_header
      end
  end.
End Lowercase.

Definition ascii_lower (s : str) : str := List.map ascii_tolower s.

(** ** The contacts table of [contacts.db] *)

Record row := Row {
  r_id : nat;
  r_name : str; r_address : str; r_postcode : str; r_skills : str;
  r_other : str; r_email_sender : str; r_email_subject : str;
  r_email_date : str; r_message_id : str;
  r_created_at : N
}.

(** The table: its rows in insertion order and the AUTOINCREMENT counter.
    [created_at] holds the clock reading of the insert; the text form
    [YYYY-MM-DD HH:MM:SS] that the store keeps is ordered as the readings
    are. *)
Record table := Table { t_rows : list row; t_seq : nat }.

(** The database file: [None] before the table is created. *)
Definition database := option table.

(** [CREATE TABLE IF NOT EXISTS contacts (...)] *)
Definition create_contacts_database (db : database) : database :=
  match db with
  | Some t => Some t
  | None => Some (Table [] 0)
  end.

(** [contact_info.get(key, '')] *)
Definition get_field (contact_info : gmap string str) (key : string) : str :=
  default [] (contact_info !! key).

(** [INSERT OR IGNORE INTO contacts (...) VALUES (...)] under the constraint
    [message_id TEXT UNIQUE]; the second component is [cursor.rowcount]. *)
Definition insert_or_ignore (now : N) (contact_info : gmap string str)
    (t : table) : table * nat :=
  let message_id := get_field contact_info "message_id" in
  if existsb (fun r => str_eqb (r_message_id r) message_id) (t_rows t)
  then (t, 0)
  else (Table (t_rows t ++
                 [Row (S (t_seq t))
                      (get_field contact_info "name")
                      (get_field contact_info "address")
                      (get_field contact_info "postcode")
                      (get_field contact_info "skills")
                      (get_field contact_info "other")
                      (get_field contact_info "email_sender")
                      (get_field contact_info "email_subject")
                      (get_field contact_info "email_date")
                      message_id now])
              (S (t_seq t)), 1).

(** How the body of the [with sqlite3.connect(...)] block ends: normally,
    with the table as the statements left it, or by a [sqlite3.Error] raised
    by a statement.  Either way [saved_count] is what the loop reached. *)
Inductive block_end :=
| Completed (t : table) (saved_count : nat)
| Raised (saved_count : nat).

(** The [for contact_info in contacts] loop.  [fault i] tells whether the
    store fails the [i]-th statement of the call with a [sqlite3.Error]
    other than a constraint violation (a locked or full database);
    [clock i] is the time of that statement. *)
Fixpoint insert_loop (fault : nat -> bool) (clock : nat -> N) (i : nat)
    (contacts : list (gmap string str)) (t : table) (saved_count : nat)
    : block_end :=
  match contacts with
  | [] => Completed t saved_count
  | contact_info :: more =>
      if fault i then Raised saved_count
      else
        let '(t', rowcount) := insert_or_ignore (clock i) contact_info t in
        insert_loop fault clock (S i) more t'
          (if 0 <? rowcount then S saved_count else saved_count)
  end.

Record save_result := SaveResult {
  saved : nat;               (* the returned [saved_count] *)
  db_after : database;
  printed : list string      (* what the call printed *)
}.

(** [save_contacts_to_database(contacts, db_path)].  Leaving the [with]
    block normally commits; leaving it by an exception rolls the
    transaction of the block back, and the [except sqlite3.Error] clause
    around the block prints the fault. *)
Definition save_contacts_to_database (fault : nat -> bool) (clock : nat -> N)
    (contacts : list (gmap string str)) (db : database) : save_result :=
  match create_contacts_database db with
  | Some t =>
      match insert_loop fault clock 0 contacts t 0 with
      | Completed t' saved_count => SaveResult saved_count (Some t') []
      | Raised saved_count =>
          SaveResult saved_count (Some t) ["Database save error"]
      end
  | None =>
      (* no table: the first INSERT raises *)
      SaveResult 0 None
        match contacts with [] => [] | _ => ["Database save error"] end
  end.

Definition no_fault : nat -> bool := fun _ => false.

Definition row_count (db : database) : nat :=
  match db with
  | Some t => length (t_rows t)
  | None => 0
  end.

(** ** [get_contacts] of [app.py] *)

Definition PERCENT : char := 37%N.
Definition UNDERSCORE : char := 95%N.

(** SQLite's [LIKE]: [%] stands for any run of characters, [_] for any one
    character, and letters compare without case for ASCII only. *)
Fixpoint like (pattern : str) (s : str) {struct pattern} : bool :=
  match pattern with
  | [] => match s with [] => true | _ => false end
  | c :: pattern' =>
      if (c =? PERCENT)%N then
        (fix any (s : str) : bool :=
           like pattern' s
           || match s with
              | [] => false
              | _ :: s' => any s'
              end) s
      else
        match s with
        | [] => false
        | d :: s' =>
            ((c =? UNDERSCORE)%N || (ascii_tolower c =? ascii_tolower d)%N)
            && like pattern' s'
        end
  end.

(** The [WHERE] clause, with [f'%{search_term}%'] bound to each [?]. *)
Definition where_clause (search_term : str) (r : row) : bool :=
  let p := [PERCENT] ++ search_term ++ [PERCENT] in
  like p (r_name r) || like p (r_address r) || like p (r_postcode r)
  || like p (r_skills r) || like p (r_other r) || like p (r_email_sender r).

(** [ORDER BY created_at DESC], as an insertion sort. *)
Fixpoint insert_desc (r : row) (sorted : list row) : list row :=
  match sorted with
  | [] => [r]
  | r' :: more =>
      if (r_created_at r' <=? r_created_at r)%N then r :: sorted
      else r' :: insert_desc r more
  end.

Definition order_by_created_at_desc (rows : list row) : list row :=
  foldr insert_desc [] rows.

(** [get_contacts(search_term)]: [None] and the empty string both take the
    [else] branch. *)
Definition get_contacts (search_term : option str) (t : table) : list row :=
  match search_term with
  | Some (c :: term) =>
      order_by_created_at_desc
        (List.filter (where_clause (c :: term)) (t_rows t))
  | _ => order_by_created_at_desc (t_rows t)
  end.

(** ** [base64.urlsafe_b64decode] and [bytes.decode("utf-8")] *)

Definition bytes := list N.

(** [table_a2b_base64]: the value of a character of the standard alphabet. *)
Definition table_a2b_base64 (c : N) : option N :=
  (if (65 <=? c) && (c <=? 90) then Some (c - 65)
   else if (97 <=? c) && (c <=? 122) then Some (c - 71)
   else if (48 <=? c) && (c <=? 57) then Some (c + 4)
   else if c =? 43 then Some 62
   else if c =? 47 then Some 63
   else None)%N.

(** The loop of [binascii.a2b_base64] without [strict_mode]: characters
    outside the alphabet are skipped, a pad sequence that completes a quad
    ends the parse, and input that stops inside a quad is an error.  [out]
    is the output so far, last byte first. *)
Fixpoint a2b_loop (data : list N) (quad_pos : nat) (leftchar : N) (pads : nat)
    (out : bytes) : option bytes :=
  match data with
  | [] => match quad_pos with O => Some (rev out) | _ => None end
  | c :: more =>
      if (c =? 61)%N then
        if 2 <=? quad_pos then
          if 4 <=? quad_pos + S pads then Some (rev out)
          else a2b_loop more quad_pos leftchar (S pads) out
        else a2b_loop more quad_pos leftchar pads out
      else
        match table_a2b_base64 c with
        | None => a2b_loop more quad_pos leftchar pads out
        | Some this_ch =>
            match quad_pos with
            | 0 => a2b_loop more 1 this_ch 0 out
            | 1 => a2b_loop more 2 (N.land this_ch 15) 0
                     (N.lor (N.shiftl leftchar 2) (N.shiftr this_ch 4) :: out)
            | 2 => a2b_loop more 3 (N.land this_ch 3) 0
                     (N.lor (N.shiftl leftchar 4) (N.shiftr this_ch 2) :: out)
            | _ => a2b_loop more 0 0 0
                     (N.lor (N.shiftl leftchar 6) this_ch :: out)
            end
        end
  end.

Definition a2b_base64 (data : list N) : option bytes := a2b_loop data 0 0 0 [].

(** [_urlsafe_decode_translation]: [-] to [+] and [_] to [/]. *)
Definition urlsafe_translate (c : N) : N :=
  (if c =? 45 then 43 else if c =? 95 then 47 else c)%N.

(** [base64.urlsafe_b64decode(s)] for a [str]: the string must be ASCII
    ([ValueError] otherwise), is translated, and goes to [a2b_base64].
    [None] stands for the exception. *)
Definition urlsafe_b64decode (s : str) : option bytes :=
  if forallb (fun c => c <? 128)%N s
  then a2b_base64 (List.map urlsafe_translate s)
  else None.

Definition is_cont (b : N) : bool := ((128 <=? b) && (b <=? 191))%N.

(** [bytes.decode("utf-8")] with the default strict error handler: [None]
    stands for [UnicodeDecodeError].  Over-long forms, surrogates and code
    points above U+10FFFF are rejected. *)
Fixpoint utf8_decode (b : bytes) : option str :=
  match b with
  | [] => Some []
  | b0 :: t0 =>
      if (b0 <? 128)%N then cons b0 <$> utf8_decode t0
      else if (b0 <? 192)%N then None
      else if (b0 <? 224)%N then
        match t0 with
        | b1 :: t1 =>
            let cp := ((b0 - 192) * 64 + (b1 - 128))%N in
            if is_cont b1 && (128 <=? cp)%N then cons cp <$> utf8_decode t1
            else None
        | _ => None
        end
      else if (b0 <? 240)%N then
        match t0 with
        | b1 :: b2 :: t2 =>
            let cp := ((b0 - 224) * 4096 + (b1 - 128) * 64 + (b2 - 128))%N in
            if is_cont b1 && is_cont b2 && (2048 <=? cp)%N
               && negb ((55296 <=? cp) && (cp <=? 57343))%N
            then cons cp <$> utf8_decode t2
            else None
        | _ => None
        end
      else if (b0 <? 248)%N then
        match t0 with
        | b1 :: b2 :: b3 :: t3 =>
            let cp := ((b0 - 240) * 262144 + (b1 - 128) * 4096
                       + (b2 - 128) * 64 + (b3 - 128))%N in
            if is_cont b1 && is_cont b2 && is_cont b3
               && (65536 <=? cp)%N && (cp <=? 1114111)%N
            then cons cp <$> utf8_decode t3
            else None
        | _ => None
        end
      else None
  end.

(** ** [GmailReader._decode_email_body] *)

(** A [body] dictionary: its ["data"] entry when it has one. *)
Record body := Body { b_data : option str }.

(** A member of ["parts"]; a missing key is [None]. *)
Record part := Part { p_mimeType : option str; p_body : option body }.

(** The [payload] dictionary: its ["body"] and ["parts"] entries. *)
Record payload := Payload {
  pl_body : option body;
  pl_parts : option (list part)
}.

(** What a call ends with: a returned string or an exception that leaves
    the function. *)
Inductive outcome :=
| Ret (s : str)
| KeyError (key : string).

(** [base64.urlsafe_b64decode(data).decode("utf-8")] *)
Definition decode_data (data : str) : option str :=
  urlsafe_b64decode data ≫= utf8_decode.

Fixpoint scan_parts (parts : list part) : outcome :=
  match parts with
  | [] => Ret (u "No readable content found")
  | part :: more =>
      match p_mimeType part with
      | None => KeyError "mimeType"
      | Some mime =>
          if str_eqb mime (u "text/plain") then
            match p_body part with
            | None => KeyError "body"
            | Some (Body (Some data)) =>
                match decode_data data with
                | Some text => Ret text
                | None => Ret (u "Error decoding email part")
                end
            | Some (Body None) => scan_parts more
            end
          else scan_parts more
      end
  end.

Definition _decode_email_body (p : payload) : outcome :=
  match pl_body p with
  | Some (Body (Some data)) =>
      match decode_data data with
      | Some text => Ret text
      | None => Ret (u "Error decoding email body")
      end
  | _ =>
      match pl_parts p with
      | Some parts => scan_parts parts
      | None => Ret (u "No readable content found")
      end
  end.






(** ** The polling orchestrator of [app.py] *)

(** Where a thread running [background_email_processing] stands. *)
Inductive pc :=
| AtWhile                (* about to test [while is_processing] *)
| InPoll                 (* inside the [try] block of an iteration *)
| AtTick (ticks : nat)    (* in the [for] loop, [ticks] ticks to go, about to
                            test [if not is_processing] *)
| Sleeping (ticks : nat)  (* inside [time.sleep(1)] *)
| Exited.

(** What a step of a thread lets an observer see. *)
Inductive obs :=
| PollStarted            (* a new iteration of the [while] loop begins *)
| Slept                  (* a [time.sleep(1)] returned: one second passed *)
| Quiet.

(** One step of a thread, reading the global [is_processing]. *)
Definition thread_step (is_processing : bool) (p : pc) : pc * obs :=
  match p with
  | AtWhile => if is_processing then (InPoll, PollStarted) else (Exited, Quiet)
  | InPoll => (AtTick 300, Quiet)
  | AtTick 0 => (AtWhile, Quiet)
  | AtTick (S k) =>
      if negb is_processing then (AtWhile, Quiet) else (Sleeping k, Quiet)
  | Sleeping k => (AtTick k, Slept)
  | Exited => (Exited, Quiet)
  end.

(** The process: the global flag and the threads spawned so far. *)
Record process := Process { is_processing : bool; threads : list pc }.

Inductive status := started | already_running | stopped.

(** [start_processing()] *)
Definition start_processing (s : process) : process * status :=
  if negb (is_processing s)
  then (Process true (threads s ++ [AtWhile]), started)
  else (s, already_running).

(** [stop_processing()] *)
Definition stop_processing (s : process) : process * status :=
  (Process false (threads s), stopped).

(** What can happen next: a request, or a step of the [i]-th thread. *)
Inductive event :=
| StartRequest
| StopRequest
| Step (i : nat).

(** One event; a step is reported with the thread that made it. *)
Definition fire (s : process) (e : event) : process * list (nat * obs) :=
  match e with
  | StartRequest => (fst (start_processing s), [])
  | StopRequest => (fst (stop_processing s), [])
  | Step i =>
      match threads s !! i with
      | Some p =>
          let '(p', o) := thread_step (is_processing s) p in
          (Process (is_processing s) (<[i := p']> (threads s)), [(i, o)])
      | None => (s, [])
      end
  end.

(** A schedule of events, with everything observed along it. *)
Fixpoint execute (s : process) (es : list event) : process * list (nat * obs) :=
  match es with
  | [] => (s, [])
  | e :: more =>
      let '(s', o) := fire s e in
      let '(s'', os) := execute s' more in
      (s'', o ++ os)
  end.


Definition count_obs (i : nat) (o : obs) (l : list (nat * obs)) : nat :=
  length (List.filter
            (fun x => Nat.eqb (fst x) i &&
                      match snd x, o with
                      | PollStarted, PollStarted | Slept, Slept | Quiet, Quiet => true
                      | _, _ => false
                      end) l).

(** ** Inputs of the specification's examples *)

Definition jane_body : str :=
  u "Name: Jane Doe" ++ [LF] ++ u "Address: 2 Green Drive" ++ [LF]
  ++ u "Postcode: PR1 0RD" ++ [LF] ++ u "Skills: DevOps" ++ [LF]
  ++ u "Other: N/A".

(** Two header names are the same up to case when [str.lower] maps them to
    the same string. *)
Definition same_name (str_lower : str -> str) (a b : str) : Prop :=
  str_lower a = str_lower b.


(** ** Vocabulary of the statements about the store *)

(** The batch as the error taxonomy of the specification words it: a record
    whose insert faults is skipped and the loop goes on with the next. *)
Fixpoint skip_faulted_loop (fault : nat -> bool) (clock : nat -> N) (i : nat)
    (contacts : list (gmap string str)) (t : table) (saved_count : nat)
    : table * nat :=
  match contacts with
  | [] => (t, saved_count)
  | contact_info :: more =>
      if fault i then skip_faulted_loop fault clock (S i) more t saved_count
      else
        let '(t', rowcount) := insert_or_ignore (clock i) contact_info t in
        skip_faulted_loop fault clock (S i) more t'
          (if 0 <? rowcount then S saved_count else saved_count)
  end.

(** A contact with the given message id and name. *)
Definition contact (message_id name : string) : gmap string str :=
  <["message_id" := u message_id]> (<["name" := u name]> ∅).

Definition has_message_id (message_id : str) (t : table) : bool :=
  existsb (fun r => str_eqb (r_message_id r) message_id) (t_rows t).

Definition the_table (db : database) : table :=
  match db with Some t => t | None => Table [] 0 end.

(** ** Vocabulary of the statements about the orchestrator *)



(** [n] steps of one thread under a constant flag. *)
Fixpoint steps (is_processing : bool) (n : nat) (p : pc) : pc :=
  match n with
  | O => p
  | S n' => steps is_processing n' (fst (thread_step is_processing p))
  end.

(** ** Vocabulary of the statements about the search *)







(** ** Vocabulary of the statements about the extractor *)

(** The keys of the returned dictionary. *)
Definition field_names : gset string :=
  {[ "name"; "address"; "postcode"; "skills"; "other" ]}.

(** The labels the patterns recognise. *)
Definition labels : list string :=
  ["name"; "address"; "postcode"; "skills"; "other"; "from"; "subject"].

(** [w] stands at the head of [s], letters compared as a pattern compiled
    with IGNORECASE compares them. *)
Fixpoint starts_with_label (w s : str) : bool :=
  match w, s with
  | [], _ => true
  | x :: w', c :: s' => lit_ignore x c && starts_with_label w' s'
  | _ :: _, [] => false
  end.

(** [w] occurs somewhere in [s]. *)
Fixpoint contains_label (w s : str) : bool :=
  starts_with_label w s
  || match s with
     | [] => false
     | _ :: s' => contains_label w s'
     end.

(** The text contains none of the recognised labels. *)
Definition label_free (s : str) : bool :=
  forallb (fun l => negb (contains_label (u l) s)) labels.

(** The character before the position reached after [s]. *)
Definition prev_after (pv : option char) (s : str) : option char :=
  foldl (fun _ c => Some c) pv s.

Definition has_LF (s : str) : bool := existsb (fun c => (c =? LF)%N) s.

Definition starts_with_colon (s : str) : bool :=
  match s with
  | c :: _ => (c =? ch ":")%N
  | [] => false
  end.

(** The labels that close the capture of the name patterns. *)
Definition name_stops : list string :=
  ["address"; "postcode"; "skills"; "other"; "from"; "subject"].

Definition two_lines : str := u "hello" ++ [LF] ++ u "world".

(** ** Vocabulary of the statements about the decoder *)

(** A payload whose body carries [data] inline. *)
Definition inline (data : str) (parts : option (list part)) : payload :=
  Payload (Some (Body (Some data))) parts.


(** A part the loop of [_decode_email_body] passes over: it declares a type
    other than [text/plain], or has a body without data. *)
Definition passed_over (p : part) : bool :=
  match p_mimeType p with
  | None => false
  | Some mime =>
      if str_eqb mime (u "text/plain") then
        match p_body p with
        | Some (Body None) => true
        | _ => false
        end
      else true
  end.

(** A [text/plain] part that carries [data]. *)
Definition plain_part (data : str) : part :=
  Part (Some (u "text/plain")) (Some (Body (Some data))).




(** The payload's own body carries no data. *)
Definition no_inline_data (b : option body) : bool :=
  match b with
  | Some (Body (Some _)) => false
  | _ => true
  end.

(** A [text/plain] part whose body has no data. *)
Definition empty_plain_part : part :=
  Part (Some (u "text/plain")) (Some (Body None)).

(** * Further properties of the program *)

(** ** The store: what a call of [save_contacts_to_database] keeps *)

(** The message ids the table holds, in row order. *)
Definition message_ids (t : table) : list str :=
  List.map r_message_id (t_rows t).

(** The message id a contact is saved under: [contact_info.get('message_id', '')]. *)
Definition contact_id (contact_info : gmap string str) : str :=
  get_field contact_info "message_id".

(** The row holds the nine fields of the contact, missing keys as empty
    strings. *)
Definition row_of (contact_info : gmap string str) (r : row) : Prop :=
  r_name r = get_field contact_info "name"
  /\ r_address r = get_field contact_info "address"
  /\ r_postcode r = get_field contact_info "postcode"
  /\ r_skills r = get_field contact_info "skills"
  /\ r_other r = get_field contact_info "other"
  /\ r_email_sender r = get_field contact_info "email_sender"
  /\ r_email_subject r = get_field contact_info "email_subject"
  /\ r_email_date r = get_field contact_info "email_date"
  /\ r_message_id r = get_field contact_info "message_id".

(** The table of the file after a call. *)
Definition table_after (r : save_result) : table := the_table (db_after r).


(** ** [get_database_stats] *)

(** [DATE(ts)]: the day a clock reading falls on, readings counted in
    seconds. *)
Definition DATE (ts : N) : N := (ts / 86400)%N.

Record db_stats := Stats {
  total_contacts : nat;
  today_contacts : nat;
  week_contacts : nat
}.

(** [get_database_stats(db_path)] at the time [now].  The third query
    compares [created_at] with the text of the date seven days back, which
    is below every reading of that day and above every earlier one.  On a
    file without the table the queries raise [sqlite3.Error] and the
    function answers zeros. *)
Definition get_database_stats (now : N) (db : database) : db_stats :=
  match db with
  | None => Stats 0 0 0
  | Some t =>
      Stats (length (t_rows t))
            (length (List.filter
                       (fun r => (DATE (r_created_at r) =? DATE now)%N)
                       (t_rows t)))
            (length (List.filter
                       (fun r => ((DATE now - 7) * 86400 <=? r_created_at r)%N)
                       (t_rows t)))
  end.

(** ** Reading the mailbox *)

(** The dictionary [message["payload"]]: its headers beside the body and
    parts that [_decode_email_body] reads. *)
Record full_payload := FullPayload {
  fp_headers : option (list header);
  fp_payload : payload
}.

(** What [messages().get(userId, id, format).execute()] does for an id. *)
Inductive fetched :=
| FetchFails                 (* the call raises *)
| NoPayload                  (* the message has no "payload" entry *)
| Fetched (p : full_payload).

(** The two queries the program sends. *)
Inductive query :=
| BySubject (subject_filter : str)
| RecentBySubject (minutes : nat).

(** The mail service: a page of the listing of a query, with the ids of the
    messages and the token of the next page ([None] when the call raises),
    and the message of an id. *)
Record gmail_service := GmailService {
  list_page : query -> option str -> option (list str * option str);
  get_message : str -> fetched
}.

Definition nine_keys : gset string :=
  {[ "name"; "address"; "postcode"; "skills"; "other";
     "email_sender"; "email_subject"; "email_date"; "message_id" ]}.

Section Mailbox.
(** [str.lower], as for the headers. *)
Variable str_lower : str -> str.
Variable service : gmail_service.

(** The body of the [try] in the loop of [parse_recent_contact_emails]:
    the contact of one listed message, or [None] when an exception sends
    the loop to the next message. *)
Definition recent_contact (id : str) : option (gmap string str) :=
  match get_message service id with
  | Fetched p =>
      let headers := default [] (fp_headers p) in
      let email_date := _extract_header_value str_lower headers (u "Date") in
      let from_header := _extract_header_value str_lower headers (u "From") in
      let sender_email := _extract_email_address str_lower from_header in
      match _decode_email_body (fp_payload p) with
      | Ret body =>
          Some (<["message_id" := id]>
                 (<["email_date" := email_date]>
                   (<["email_subject" :=
                        _extract_header_value str_lower headers (u "Subject")]>
                     (<["email_sender" := sender_email]>
                       (_parse_contact_info body)))))
      | KeyError _ => None
      end
  | _ => None
  end.

(** The [for message_info in messages] loop, appending to
    [recent_contacts]. *)
Fixpoint recent_loop (messages : list str)
    (recent_contacts : list (gmap string str)) : list (gmap string str) :=
  match messages with
  | [] => recent_contacts
  | id :: more =>
      match recent_contact id with
      | Some contact_info => recent_loop more (recent_contacts ++ [contact_info])
      | None => recent_loop more recent_contacts
      end
  end.

(** [parse_recent_contact_emails(minutes)]; [connected] tells whether
    [self.service] is set. *)
Definition parse_recent_contact_emails (connected : bool) (minutes : nat)
    : list (gmap string str) :=
  if connected then
    match list_page service (RecentBySubject minutes) None with
    | Some (messages, _) => recent_loop messages []
    | None => []
    end
  else [].

(** The paging loop of [get_emails_by_subject].  [fuel] bounds the number
    of pages asked for; the outer [None] says the bound was reached with
    pages still to come, the inner one that a call raised. *)
Fixpoint list_all (fuel : nat) (q : query) (page_token : option str)
    (all_messages : list str) : option (option (list str)) :=
  match fuel with
  | O => None
  | S fuel' =>
      match list_page service q page_token with
      | None => Some None
      | Some (messages, next) =>
          match next with
          | Some (c :: token) =>
              list_all fuel' q (Some (c :: token)) (all_messages ++ messages)
          | _ => Some (Some (all_messages ++ messages))
          end
      end
  end.

(** The body of the [try] in the second loop of [get_emails_by_subject]:
    the [email_data] dictionary of one message. *)
Definition email_data_of (id : str) : option (gmap string str) :=
  match get_message service id with
  | Fetched p =>
      let headers := default [] (fp_headers p) in
      let email_date := _extract_header_value str_lower headers (u "Date") in
      let from_header := _extract_header_value str_lower headers (u "From") in
      let sender_email := _extract_email_address str_lower from_header in
      let subject := _extract_header_value str_lower headers (u "Subject") in
      match _decode_email_body (fp_payload p) with
      | Ret body =>
          Some (<["message_id" := id]>
                 (<["body" := body]>
                   (<["date" := email_date]>
                     (<["subject" := subject]>
                       (<["sender_full" := from_header]>
                         (<["sender" := sender_email]> ∅))))))
      | KeyError _ => None
      end
  | _ => None
  end.

Fixpoint emails_loop (all_messages : list str)
    (processed_emails : list (gmap string str)) : list (gmap string str) :=
  match all_messages with
  | [] => processed_emails
  | id :: more =>
      match email_data_of id with
      | Some email_data => emails_loop more (processed_emails ++ [email_data])
      | None => emails_loop more processed_emails
      end
  end.

(** [get_emails_by_subject(subject_filter)]; [None] when the paging has not
    ended within [fuel] pages. *)
Definition get_emails_by_subject (fuel : nat) (connected : bool)
    (subject_filter : str) : option (list (gmap string str)) :=
  if connected then
    match list_all fuel (BySubject subject_filter) None [] with
    | None => None
    | Some None => Some []
    | Some (Some all_messages) => Some (emails_loop all_messages [])
    end
  else Some [].

(** The loop of [parse_contact_emails] on one [email_data]. *)
Definition contact_of_email (email_data : gmap string str) : gmap string str :=
  <["message_id" := get_field email_data "message_id"]>
    (<["email_date" := get_field email_data "date"]>
      (<["email_subject" := get_field email_data "subject"]>
        (<["email_sender" := get_field email_data "sender"]>
          (_parse_contact_info (get_field email_data "body"))))).

(** [parse_contact_emails(subject_filter)] *)
Definition parse_contact_emails (fuel : nat) (connected : bool)
    (subject_filter : str) : option (list (gmap string str)) :=
  List.map contact_of_email <$> get_emails_by_subject fuel connected subject_filter.

End Mailbox.

(** The service answers the listing of [q] from [page_token] on with the
    pages [pages], the last of which names no successor. *)
Inductive serves (service : gmail_service) (q : query)
    : option str -> list (list str) -> Prop :=
| serves_last page_token messages next :
    list_page service q page_token = Some (messages, next) ->
    next = None \/ next = Some [] ->
    serves service q page_token [messages]
| serves_more page_token messages c token pages :
    list_page service q page_token = Some (messages, Some (c :: token)) ->
    serves service q (Some (c :: token)) pages ->
    serves service q page_token (messages :: pages).

(** A service of the examples: two pages of ids for every query, and a
    message for the id m1 only. *)
Definition two_page_service : gmail_service :=
  GmailService
    (fun _ page_token =>
       match page_token with
       | None => Some ([u "m1"; u "m2"], Some (u "t1"))
       | Some _ => Some ([u "m3"], None)
       end)
    (fun id =>
       if str_eqb id (u "m1")
       then Fetched (FullPayload
                       (Some [Header (u "From") (u "Ann <ann@example.com>")])
                       (inline (u "TmFtZTogQW5u") None))
       else FetchFails).

(** The three ways in which the loop body fails for a listed message. *)
Definition unreadable (service : gmail_service) (id : str) : Prop :=
  get_message service id = FetchFails
  \/ get_message service id = NoPayload
  \/ exists p key, get_message service id = Fetched p
                   /\ _decode_email_body (fp_payload p) = KeyError key.

(** No header of the list bears the name, up to case. *)
Definition header_absent (str_lower : str -> str) (name : str)
    (headers : list header) : Prop :=
  Forall (fun h => ~ same_name str_lower (h_name h) name) headers.

(** The listing of [q] raises after [n] pages that each named a
    successor. *)
Inductive breaks (service : gmail_service) (q : query)
    : option str -> nat -> Prop :=
| breaks_now page_token :
    list_page service q page_token = None ->
    breaks service q page_token 0
| breaks_later page_token messages c token n :
    list_page service q page_token = Some (messages, Some (c :: token)) ->
    breaks service q (Some (c :: token)) n ->
    breaks service q page_token (S n).

(** A service whose second page raises. *)
Definition broken_service : gmail_service :=
  GmailService
    (fun _ page_token =>
       match page_token with
       | None => Some ([u "m1"; u "m2"], Some (u "t1"))
       | Some _ => None
       end)
    (get_message two_page_service).

(** ** The import routes of [app.py] *)

(** The JSON a route answers with. *)
Inductive response :=
| Success (processed total_found : nat)
| ErrorResponse.

(** [process_once()] and [import_all_emails()], which have the same body.
    [reader] is the service of the [GmailReader] the route constructs,
    [None] when the constructor raises.  The result is [None] while the
    paging has not ended within [fuel] pages. *)
Definition process_once (str_lower : str -> str)
    (reader : option gmail_service) (fuel : nat)
    (fault : nat -> bool) (clock : nat -> N) (db : database)
    : option (response * database) :=
  match reader with
  | None => Some (ErrorResponse, db)
  | Some service =>
      match parse_contact_emails str_lower service fuel true
              (u "Subject Application") with
      | None => None
      | Some [] => Some (Success 0 0, db)
      | Some contacts =>
          let r := save_contacts_to_database fault clock contacts db in
          Some (Success (saved r) (length contacts), db_after r)
      end
  end.

(** A service whose messages have no headers. *)
Definition headerless_service : gmail_service :=
  GmailService (fun _ _ => None)
    (fun _ => Fetched (FullPayload None (inline (u "aGk=") None))).

Definition headerless_contact : gmap string str :=
  default ∅ (recent_contact ascii_lower headerless_service (u "m1")).

(** ** Shapes of extracted values *)

(** The number of white-space characters a text starts with. *)
Fixpoint blanks (s : str) : nat :=
  match s with
  | c :: t => if isspace c then S (blanks t) else 0
  | [] => 0
  end.

(** What [re.sub(r'\s+', ' ', s)] computes, written without the matcher:
    each run of white space becomes one space.  [skip] counts the
    characters of the current run still to be dropped. *)
Fixpoint collapse (skip : nat) (s : str) : str :=
  match s with
  | [] => []
  | c :: t =>
      match skip with
      | S n => collapse n t
      | O => if isspace c then 32%N :: collapse (blanks t) t
             else c :: collapse 0 t
      end
  end.

(** The only white space of [s] is U+0020, and no two of them are
    adjacent. *)
Fixpoint single_spaced (s : str) : bool :=
  match s with
  | [] => true
  | c :: t =>
      (if isspace c
       then (c =? 32)%N
            && match t with d :: _ => negb (isspace d) | [] => true end
       else true)
      && single_spaced t
  end.

(** [s] does not start, respectively end, with white space. *)
Definition first_ok (s : str) : bool :=
  match s with c :: _ => negb (isspace c) | [] => true end.

Definition last_ok (s : str) : bool := first_ok (rev s).

(** The text with the line ends of a Windows mail client: a carriage
    return before every line feed. *)
Definition to_crlf (s : str) : str :=
  flat_map (fun c => if (c =? LF)%N then [CR; LF] else [c]) s.

Definition has_CR (s : str) : bool := existsb (fun c => (c =? CR)%N) s.

(** ** Shapes of sender addresses *)

Definition is_digit (c : char) : bool := ((48 <=? c) && (c <=? 57))%N.

(** The characters of the local part and of the domain of a normalised
    address: [[a-z0-9._%+-]] and [[a-z0-9.-]]. *)
Definition local_char (c : char) : bool :=
  (is_lower c || is_digit c
   || (c =? 46) || (c =? 95) || (c =? 37) || (c =? 43) || (c =? 45))%N.

Definition domain_char (c : char) : bool :=
  (is_lower c || is_digit c || (c =? 46) || (c =? 45))%N.

(** The three bracket expressions of [email_pattern]. *)
Definition local_class : atom :=
  Class [IRange (ch "a") (ch "z"); IRange (ch "A") (ch "Z");
         IRange (ch "0") (ch "9"); IChar (ch "."); IChar (ch "_");
         IChar (ch "%"); IChar (ch "+"); IChar (ch "-")].

Definition domain_class : atom :=
  Class [IRange (ch "a") (ch "z"); IRange (ch "A") (ch "Z");
         IRange (ch "0") (ch "9"); IChar (ch "."); IChar (ch "-")].

Definition letter_class : atom :=
  Class [IRange (ch "a") (ch "z"); IRange (ch "A") (ch "Z")].

Definition AT : char := 64%N.
Definition DOT : char := 46%N.

(** ** Runs of one polling thread *)

(** What is observed of a thread in [n] steps under a constant flag. *)
Fixpoint trace (is_processing : bool) (n : nat) (p : pc) : list obs :=
  match n with
  | O => []
  | S n' =>
      snd (thread_step is_processing p)
      :: trace is_processing n' (fst (thread_step is_processing p))
  end.

(** The schedule in which thread [i] takes [n] steps in a row. *)
Definition solo (i n : nat) : list event := replicate n (Step i).

(** The steps from a point of the loop to the start of the next poll, while
    the flag stays set. *)
Definition until_poll (p : pc) : nat :=
  match p with
  | AtWhile => 1
  | InPoll => 1 + (2 * 300 + 2)
  | AtTick k => 2 * k + 2
  | Sleeping k => 1 + (2 * k + 2)
  | Exited => 0
  end.

(** ** The store with its schema

    The table of the sections above is the table that
    [create_contacts_database] makes, seen through its rows.  [app.py] has
    a second [CREATE TABLE] for the same file, in [init_database], with
    other columns and another uniqueness constraint, and
    [migrate_database] alters what it finds.  The module below keeps the
    columns, the constraints and the indexes of the table next to its rows,
    and follows SQLite in what the sections above leave out: a statement
    that names a missing column raises, and every [INSERT OR IGNORE] takes
    the next value of the AUTOINCREMENT counter, whether or not it stores a
    row. *)

Module Store.

Inductive cell :=
| Null
| Int (n : nat)       (* a row id *)
| Text (s : str)
| Time (ts : N).      (* a value of CURRENT_TIMESTAMP *)

#[global] Instance cell_eq_dec : EqDecision cell.
Proof. solve_decision. Defined.

Definition cell_eqb (a b : cell) : bool := bool_decide (a = b).

Record index := Index {
  i_name : string;
  i_unique : bool;
  i_on : string
}.

(** The table [contacts]: its columns in the order of [SELECT *], the
    column lists of its UNIQUE constraints, its indexes, its rows in
    insertion order with one cell for each column, and the AUTOINCREMENT
    counter. *)
Record table := Table {
  s_columns : list string;
  s_unique : list (list string);
  s_indexes : list index;
  s_rows : list (list cell);
  s_seq : nat
}.

(** The database file: [None] while it has no table [contacts]. *)
Definition file := option table.

Definition has_column (t : table) (c : string) : bool :=
  existsb (String.eqb c) (s_columns t).

Definition has_index (t : table) (name : string) : bool :=
  existsb (fun i => String.eqb (i_name i) name) (s_indexes t).

Fixpoint position (c : string) (columns : list string) : option nat :=
  match columns with
  | [] => None
  | c' :: more =>
      if String.eqb c c' then Some 0
      else option_map S (position c more)
  end.

(** The cell of row [r] in column [c]. *)
Definition cell_at (t : table) (r : list cell) (c : string) : cell :=
  match position c (s_columns t) with
  | Some i => default Null (r !! i)
  | None => Null
  end.

(** The columns of [init_database] and of [create_contacts_database]. *)
Definition app_columns : list string :=
  ["id"; "name"; "address"; "postcode"; "skills"; "other";
   "email_sender"; "email_subject"; "email_date"; "created_at"].

Definition reader_columns : list string :=
  ["id"; "name"; "address"; "postcode"; "skills"; "other";
   "email_sender"; "email_subject"; "email_date"; "message_id"; "created_at"].

(** [init_database()] of [app.py]: [CREATE TABLE IF NOT EXISTS] with
    [UNIQUE(email_sender, email_date, name)]. *)
Definition init_database (db : file) : file :=
  match db with
  | Some t => Some t
  | None =>
      Some (Table app_columns [["email_sender"; "email_date"; "name"]] [] [] 0)
  end.

(** Two rows hold the same value, not NULL, in column [c]. *)
Fixpoint repeats (cells : list cell) : bool :=
  match cells with
  | [] => false
  | v :: more =>
      match v with
      | Null => false
      | _ => existsb (cell_eqb v) more
      end
      || repeats more
  end.

(** [CREATE [UNIQUE] INDEX IF NOT EXISTS name ON contacts(c)]; [None] when
    the statement raises: the column is missing, or the index is to be
    unique and the column repeats a value.  An index of that name, whatever
    it is on, makes the statement do nothing. *)
Definition create_index (unique : bool) (name c : string) (t : table)
    : option table :=
  if has_index t name then Some t
  else if negb (has_column t c) then None
  else if unique && repeats (List.map (fun r => cell_at t r c) (s_rows t))
  then None
  else Some (Table (s_columns t) (s_unique t)
                   (s_indexes t ++ [Index name unique c])
                   (s_rows t) (s_seq t)).

(** [create_contacts_database(db_path)].  The statements are committed one
    by one; the first that raises ends the call, which prints the fault.
    The result is the table of the file and what was printed. *)
Definition create_contacts_database (db : file) : table * list string :=
  let t := match db with
           | Some t => t
           | None => Table reader_columns [["message_id"]] [] [] 0
           end in
  match create_index false "idx_message_id" "message_id" t with
  | None => (t, ["Database creation error"])
  | Some t1 =>
      match create_index false "idx_created_at" "created_at" t1 with
      | None => (t1, ["Database creation error"])
      | Some t2 => (t2, [])
      end
  end.

(** [ALTER TABLE contacts ADD COLUMN c TEXT]: the column comes last, and
    the rows there are hold NULL in it. *)
Definition add_column (c : string) (t : table) : table :=
  Table (s_columns t ++ [c]) (s_unique t) (s_indexes t)
        (List.map (fun r => r ++ [Null]) (s_rows t)) (s_seq t).

(** [migrate_database()] of [app.py].  Without a table [PRAGMA table_info]
    lists no column and the first [ALTER TABLE] raises. *)
Definition migrate_database (db : file) : file * list string :=
  match db with
  | None => (None, ["Migration error"])
  | Some t =>
      let columns := s_columns t in
      let '(t1, printed) :=
        if negb (existsb (String.eqb "skills") columns)
        then (add_column "skills" t, ["Added skills column"])
        else (t, []) in
      if negb (existsb (String.eqb "message_id") columns)
      then
        let t2 := add_column "message_id" t1 in
        match create_index true "idx_message_id" "message_id" t2 with
        | Some t3 =>
            (Some t3, printed ++ ["Added message_id column";
                                  "Database migrated successfully"])
        | None => (Some t2, printed ++ ["Migration error"])
        end
      else (Some t1, printed ++ ["Database migrated successfully"])
  end.

(** The columns the [INSERT] statement names. *)
Definition insert_columns : list string :=
  ["name"; "address"; "postcode"; "skills"; "other";
   "email_sender"; "email_subject"; "email_date"; "message_id"].

(** The row the statement builds: the next id, the nine values, the time
    of the insert by the default of [created_at], NULL elsewhere. *)
Definition new_row (now : N) (contact_info : gmap string str) (t : table)
    : list cell :=
  List.map (fun c =>
              if String.eqb c "id" then Int (S (s_seq t))
              else if existsb (String.eqb c) insert_columns
              then Text (get_field contact_info c)
              else if String.eqb c "created_at" then Time now
              else Null)
           (s_columns t).

(** What must be unique: the constraints of the table and its unique
    indexes. *)
Definition unique_keys (t : table) : list (list string) :=
  s_unique t
  ++ List.map (fun i => [i_on i]) (List.filter i_unique (s_indexes t)).

(** Row [r] holds, in every column of [key], the value of [r'], and none of
    them is NULL. *)
Definition collides (t : table) (key : list string) (r r' : list cell)
    : bool :=
  forallb (fun c => match cell_at t r c with
                    | Null => false
                    | v => cell_eqb v (cell_at t r' c)
                    end) key.

Definition conflicts (t : table) (r' : list cell) : bool :=
  existsb (fun key => existsb (fun r => collides t key r r') (s_rows t))
          (unique_keys t).

(** [INSERT OR IGNORE INTO contacts (...) VALUES (...)] with
    [cursor.rowcount].  The counter moves in both cases. *)
Definition insert_or_ignore (now : N) (contact_info : gmap string str)
    (t : table) : table * nat :=
  let r := new_row now contact_info t in
  if conflicts t r
  then (Table (s_columns t) (s_unique t) (s_indexes t) (s_rows t)
              (S (s_seq t)), 0)
  else (Table (s_columns t) (s_unique t) (s_indexes t) (s_rows t ++ [r])
              (S (s_seq t)), 1).

Inductive block_end :=
| Completed (t : table) (saved_count : nat)
| Raised (saved_count : nat).

Fixpoint insert_loop (fault : nat -> bool) (clock : nat -> N) (i : nat)
    (contacts : list (gmap string str)) (t : table) (saved_count : nat)
    : block_end :=
  match contacts with
  | [] => Completed t saved_count
  | contact_info :: more =>
      if fault i then Raised saved_count
      else
        let '(t', rowcount) := insert_or_ignore (clock i) contact_info t in
        insert_loop fault clock (S i) more t'
          (if 0 <? rowcount then S saved_count else saved_count)
  end.

Record save_result := SaveResult {
  saved : nat;
  table_after : table;
  printed : list string
}.

(** [save_contacts_to_database(contacts, db_path)].  On a table that lacks
    one of the named columns the first [INSERT] raises; a fault rolls back
    the rows and the counter to what [create_contacts_database] left. *)
Definition save_contacts_to_database (fault : nat -> bool) (clock : nat -> N)
    (contacts : list (gmap string str)) (db : file) : save_result :=
  let '(t, printed) := create_contacts_database db in
  match contacts with
  | [] => SaveResult 0 t printed
  | _ =>
      if forallb (has_column t) insert_columns
      then
        match insert_loop fault clock 0 contacts t 0 with
        | Completed t' saved_count => SaveResult saved_count t' printed
        | Raised saved_count =>
            SaveResult saved_count t (printed ++ ["Database save error"])
        end
      else SaveResult 0 t (printed ++ ["Database save error"])
  end.

(** [ORDER BY created_at DESC]; NULL sorts below every time. *)
Definition created_at (t : table) (r : list cell) : option N :=
  match cell_at t r "created_at" with
  | Time ts => Some ts
  | _ => None
  end.

Definition not_after (a b : option N) : bool :=
  match a, b with
  | None, _ => true
  | Some _, None => false
  | Some x, Some y => (x <=? y)%N
  end.

Fixpoint insert_desc (t : table) (r : list cell) (sorted : list (list cell))
    : list (list cell) :=
  match sorted with
  | [] => [r]
  | r' :: more =>
      if not_after (created_at t r') (created_at t r) then r :: sorted
      else r' :: insert_desc t r more
  end.

Definition order_by_created_at_desc (t : table) (rows : list (list cell))
    : list (list cell) :=
  foldr (insert_desc t) [] rows.

Definition search_columns : list string :=
  ["name"; "address"; "postcode"; "skills"; "other"; "email_sender"].

Definition where_clause (t : table) (search_term : str) (r : list cell)
    : bool :=
  existsb (fun c => match cell_at t r c with
                    | Text s => like ([PERCENT] ++ search_term ++ [PERCENT]) s
                    | _ => false
                    end) search_columns.

(** The keys of the dictionaries of [get_contacts], in the order in which
    they are read from [row[0]] to [row[9]]. *)
Definition view_keys : list string :=
  ["id"; "name"; "address"; "postcode"; "skills"; "other";
   "email_sender"; "email_subject"; "email_date"; "created_at"].

(** The dictionary made of a row; [None] for the [IndexError] of a row
    with fewer than ten cells. *)
Definition contact_view (r : list cell) : option (gmap string cell) :=
  if 10 <=? length r then Some (list_to_map (zip view_keys r)) else None.

(** [get_contacts(search_term)] of [app.py]; [None] when the call raises:
    no table, a column of the query missing, or a short row. *)
Definition get_contacts (search_term : option str) (db : file)
    : option (list (gmap string cell)) :=
  match db with
  | None => None
  | Some t =>
      if negb (has_column t "created_at") then None
      else
        match search_term with
        | Some (c :: term) =>
            if forallb (has_column t) search_columns
            then mapM contact_view
                   (order_by_created_at_desc t
                      (List.filter (where_clause t (c :: term)) (s_rows t)))
            else None
        | _ => mapM contact_view (order_by_created_at_desc t (s_rows t))
        end
  end.

End Store.

(** *** Vocabulary of the statements about the schema *)

(** The id of a row of the table. *)
Definition row_id (t : Store.table) (r : list Store.cell) : option nat :=
  match Store.cell_at t r "id" with
  | Store.Int n => Some n
  | _ => None
  end.

(** The table has the columns and the constraint of
    [create_contacts_database] and no unique index. *)
Definition reader_schema (t : Store.table) : Prop :=
  Store.s_columns t = Store.reader_columns
  /\ Store.s_unique t = [["message_id"]]
  /\ forallb (fun i => negb (Store.i_unique i)) (Store.s_indexes t) = true.

(** The cells of a row of that table. *)
Definition cells_of (r : row) : list Store.cell :=
  [Store.Int (r_id r); Store.Text (r_name r); Store.Text (r_address r);
   Store.Text (r_postcode r); Store.Text (r_skills r); Store.Text (r_other r);
   Store.Text (r_email_sender r); Store.Text (r_email_subject r);
   Store.Text (r_email_date r); Store.Text (r_message_id r);
   Store.Time (r_created_at r)].

(** Two rows that differ in their ids at most. *)
Definition same_fields (a b : row) : Prop :=
  cells_of (Row 0 (r_name a) (r_address a) (r_postcode a) (r_skills a)
                (r_other a) (r_email_sender a) (r_email_subject a)
                (r_email_date a) (r_message_id a) (r_created_at a))
  = cells_of (Row 0 (r_name b) (r_address b) (r_postcode b) (r_skills b)
                  (r_other b) (r_email_sender b) (r_email_subject b)
                  (r_email_date b) (r_message_id b) (r_created_at b)).

(** The table of rows [flat] is the table [t] of the schema of
    [create_contacts_database], seen through its rows and without their
    ids. *)
Definition abstracts (flat : table) (t : Store.table) : Prop :=
  reader_schema t
  /\ exists rows, Store.s_rows t = List.map cells_of rows
                  /\ Forall2 same_fields (t_rows flat) rows.

Definition abstracts_file (db : database) (f : Store.file) : Prop :=
  match db, f with
  | None, None => True
  | Some flat, Some t => abstracts flat t
  | _, _ => False
  end.

(** The file after [init_database()] and [migrate_database()], the start of
    [app.py], on a file without table. *)
Definition app_file : Store.file :=
  fst (Store.migrate_database (Store.init_database None)).

(** ** Labelled values *)

(** The fields whose first pattern captures free text, each with the labels
    that close its capture. *)
Definition free_text : list (string * list string) :=
  [("name", ["address"; "postcode"; "skills"; "other"; "from"; "subject"]);
   ("address", ["postcode"; "skills"; "other"; "from"; "subject"]);
   ("skills", ["other"; "from"; "subject"]);
   ("other", ["from"; "subject"])].

(** The label [w] starts at no position of [pre] in the text
    [pre ++ rest]. *)
Fixpoint starts_nowhere (w pre rest : str) : bool :=
  match pre with
  | [] => true
  | _ :: pre' =>
      negb (starts_with_label w (pre ++ rest)) && starts_nowhere w pre' rest
  end.

(** The text is at its end, or at the end of a line. *)
Definition ends_line (post : str) : bool :=
  match post with
  | [] => true
  | c :: _ => (c =? LF)%N
  end.
(** * Theorems *)

(** C1: on the five labelled lines of the specification's example, in the
    canonical order, [_parse_contact_info] returns exactly the mapping of
    the five fields to Jane Doe, 2 Green Drive, PR1 0RD, DevOps and N/A. *)
Theorem C1_parse_labelled_body :
  _parse_contact_info jane_body =
  <["name" := u "Jane Doe"]> (<["address" := u "2 Green Drive"]>
    (<["postcode" := u "PR1 0RD"]> (<["skills" := u "DevOps"]>
      (<["other" := u "N/A"]> ∅)))).
Proof. vm_compute. reflexivity. Qed.

(** *** Sender address *)

Lemma search_jane :
  re_search no_flags email_pattern (u "Jane Doe <jane@example.com>")
  = Some (MatchObj 10 26 None).
Proof. vm_compute. reflexivity. Qed.

Lemma search_not_an_email :
  re_search no_flags email_pattern (u "not-an-email") = None.
Proof. vm_compute. reflexivity. Qed.

Lemma extract_email_address_nonempty (str_lower : str -> str) (h : str) :
  h <> [] ->
  _extract_email_address str_lower h =
  match re_search no_flags email_pattern h with
  | Some m => strip (str_lower (group0 h m))
  | None => h
  end.
Proof. destruct h; [congruence | reflexivity]. Qed.

(** C4: [_extract_email_address] returns the lower-cased first match on
    "Jane Doe <jane@example.com>", the sentinel Unknown on the empty header,
    and the header itself on "not-an-email", as on every non-empty header
    without an email-shaped substring.  [str.lower] is only assumed to fold
    ASCII text as ASCII. *)
Theorem C4_extract_email_address (str_lower : str -> str)
    (Hascii : forall s, Forall (fun c => (c < 128)%N) s ->
                        str_lower s = ascii_lower s) :
  _extract_email_address str_lower (u "Jane Doe <jane@example.com>")
    = u "jane@example.com"
  /\ _extract_email_address str_lower [] = u "Unknown"
  /\ _extract_email_address str_lower (u "not-an-email") = u "not-an-email"
  /\ (forall h, h <> [] -> re_search no_flags email_pattern h = None ->
                _extract_email_address str_lower h = h).
Proof.
  split; [|split; [|split]].
  - rewrite extract_email_address_nonempty by discriminate.
    rewrite search_jane, Hascii.
    + vm_compute. reflexivity.
    + vm_compute. repeat constructor.
  - reflexivity.
  - rewrite extract_email_address_nonempty by discriminate.
    rewrite search_not_an_email. reflexivity.
  - intros h Hne Hnone.
    rewrite extract_email_address_nonempty by assumption.
    rewrite Hnone. reflexivity.
Qed.

Lemma C4_extract_email_address_witness :
  _extract_email_address ascii_lower (u "Jane Doe <jane@example.com>")
    = u "jane@example.com"
  /\ _extract_email_address ascii_lower (u "not-an-email") = u "not-an-email".
Proof.
  destruct (C4_extract_email_address ascii_lower (fun s _ => eq_refl))
    as (H1 & _ & H3 & _).
  split; [exact H1 | exact H3].
Defined.

(** *** Headers *)

(** C6: [_extract_header_value] compares header names through
    [str.lower], returns the value of the first header whose name agrees
    with the requested one up to case, and returns Unknown when none does,
    the empty list included.  It is a total function: no list of name/value
    pairs makes it fail. *)
Theorem C6_extract_header_value (str_lower : str -> str) (header_name : str) :
  _extract_header_value str_lower [] header_name = u "Unknown"
  /\ (forall headers,
        Forall (fun h => ~ same_name str_lower (h_name h) header_name) headers ->
        _extract_header_value str_lower headers header_name = u "Unknown")
  /\ (forall before h after,
        Forall (fun h => ~ same_name str_lower (h_name h) header_name) before ->
        same_name str_lower (h_name h) header_name ->
        _extract_header_value str_lower (before ++ h :: after) header_name
        = h_value h).
Proof.
  assert (Hskip : forall before rest,
    Forall (fun h => ~ same_name str_lower (h_name h) header_name) before ->
    _extract_header_value str_lower (before ++ rest) header_name
    = _extract_header_value str_lower rest header_name).
  { induction before as [|h0 before IH]; intros rest0 Hall; [reflexivity|].
    inversion Hall as [|? ? Hh0 Hbefore]; subst. cbn.
    unfold str_eqb. rewrite bool_decide_eq_false_2 by exact Hh0.
    apply IH, Hbefore. }
  split; [reflexivity|split].
  - intros headers Hall.
    rewrite <- (app_nil_r headers). rewrite Hskip by exact Hall. reflexivity.
  - intros before h after Hall Hsame.
    rewrite Hskip by exact Hall. cbn.
    unfold str_eqb. rewrite bool_decide_eq_true_2 by exact Hsame. reflexivity.
Qed.

Lemma C6_extract_header_value_witness :
  _extract_header_value ascii_lower
    ([Header (u "Date") (u "today")]
       ++ Header (u "FROM") (u "a@b.cd") :: [Header (u "From") (u "e@f.gh")])
    (u "from") = u "a@b.cd".
Proof.
  apply (C6_extract_header_value ascii_lower (u "from")).
  - constructor; [|constructor]. vm_compute. discriminate.
  - vm_compute. reflexivity.
Defined.

(** *** The de-duplicating store *)

Lemma insert_or_ignore_known now c t :
  has_message_id (get_field c "message_id") t = true ->
  insert_or_ignore now c t = (t, 0).
Proof. unfold insert_or_ignore, has_message_id. intros ->. reflexivity. Qed.

Lemma insert_or_ignore_new now c t :
  has_message_id (get_field c "message_id") t = false ->
  exists r, insert_or_ignore now c t = (Table (t_rows t ++ [r]) (S (t_seq t)), 1)
            /\ r_message_id r = get_field c "message_id".
Proof.
  unfold insert_or_ignore, has_message_id. intros ->.
  eexists. split; reflexivity.
Qed.

Lemma has_message_id_snoc mid rows seq r :
  r_message_id r = mid -> has_message_id mid (Table (rows ++ [r]) seq) = true.
Proof.
  intros <-. unfold has_message_id. cbn. rewrite existsb_app. cbn.
  unfold str_eqb. rewrite bool_decide_eq_true_2 by reflexivity.
  rewrite orb_true_r. reflexivity.
Qed.

(** C2: saving one contact into a fresh store inserts one row; saving the
    same contact again inserts none and leaves the number of rows of the
    table as it was after the first call. *)
Theorem C2_upsert_twice (clock1 clock2 : nat -> N) (c : gmap string str) :
  let first := save_contacts_to_database no_fault clock1 [c] None in
  let second := save_contacts_to_database no_fault clock2 [c] (db_after first) in
  saved first = 1 /\ saved second = 0
  /\ row_count (db_after second) = row_count (db_after first)
  /\ row_count (db_after first) = 1.
Proof.
  cbn -[insert_or_ignore].
  destruct (insert_or_ignore_new (clock1 0) c (Table [] 0)) as (r & Hins & Hr);
    [reflexivity|].
  rewrite Hins. cbn -[insert_or_ignore].
  rewrite insert_or_ignore_known
    by (apply (has_message_id_snoc _ []); exact Hr).
  cbn. repeat split; reflexivity.
Qed.

Lemma insert_loop_prefix fault clock pre : forall i t n post,
  (forall j, j < length pre -> fault (i + j) = false) ->
  insert_loop fault clock i (pre ++ post) t n =
  match insert_loop no_fault clock i pre t n with
  | Completed t' n' => insert_loop fault clock (i + length pre) post t' n'
  | Raised n' => Raised n'
  end.
Proof.
  induction pre as [|c pre IH]; intros i t n post Hfree; cbn -[insert_or_ignore].
  - rewrite Nat.add_0_r. reflexivity.
  - specialize (Hfree 0 ltac:(cbn; lia)) as H0. rewrite Nat.add_0_r in H0.
    rewrite H0. destruct (insert_or_ignore (clock i) c t) as [t' rc].
    rewrite IH.
    + replace (S i + length pre) with (i + S (length pre)) by lia. reflexivity.
    + intros j Hj. replace (S i + j) with (i + S j) by lia.
      apply Hfree. cbn. lia.
Qed.

Lemma insert_loop_no_fault clock contacts : forall i t n,
  exists t' n', insert_loop no_fault clock i contacts t n = Completed t' n'
    /\ n' + length (t_rows t) = n + length (t_rows t').
Proof.
  induction contacts as [|c more IH]; intros i t n; cbn -[insert_or_ignore].
  - exists t, n. split; reflexivity.
  - destruct (has_message_id (get_field c "message_id") t) eqn:Hid.
    + rewrite insert_or_ignore_known by exact Hid. cbn. apply IH.
    + destruct (insert_or_ignore_new (clock i) c t Hid) as (r & -> & _). cbn.
      destruct (IH (S i) (Table (t_rows t ++ [r]) (S (t_seq t))) (S n))
        as (t' & n' & Hloop & Hcount).
      exists t', n'. split; [exact Hloop|].
      cbn in Hcount. rewrite length_app in Hcount. cbn in Hcount. lia.
Qed.

(** C8, as stated, fails: with three new contacts and a storage fault on the
    insert of the second, the call returns 1 although the table ends with no
    row, and the third contact, whose insert raises nothing, is never
    saved; the record-by-record batch of the claim would have stored the
    first and the third and returned 2. *)
Lemma C8_counterexample :
  let fault := fun i => Nat.eqb i 1 in
  let clock := fun _ => 0%N in
  let batch := [contact "m1" "Ann"; contact "m2" "Bob"; contact "m3" "Cy"] in
  let r := save_contacts_to_database fault clock batch None in
  saved r = 1
  /\ row_count (db_after r) = 0
  /\ has_message_id (u "m3") (the_table (db_after r)) = false
  /\ snd (skip_faulted_loop fault clock 0 batch (Table [] 0) 0) = 2
  /\ has_message_id (u "m3")
       (fst (skip_faulted_loop fault clock 0 batch (Table [] 0) 0)) = true.
Proof. vm_compute. repeat split; reflexivity. Qed.

(** C8, amended: an insert that violates the uniqueness constraint raises
    nothing, leaves the table alone and is not counted, and the loop goes
    on.  When the insert of the record at index [i] is the first to raise
    another storage fault, the fault is printed, the loop ends there, the
    transaction is rolled back, so that the table is as before the call,
    and the call returns the number of inserts that succeeded on the
    records before [i].  A call without fault returns the number of rows the
    table gained. *)
Theorem C8_upsert_faults (clock : nat -> N) :
  (forall fault i c more t n,
      fault i = false ->
      has_message_id (get_field c "message_id") t = true ->
      insert_or_ignore (clock i) c t = (t, 0)
      /\ insert_loop fault clock i (c :: more) t n
         = insert_loop fault clock (S i) more t n)
  /\ (forall fault contacts db i,
        i < length contacts -> fault i = true ->
        (forall j, j < i -> fault j = false) ->
        let r := save_contacts_to_database fault clock contacts db in
        printed r = ["Database save error"]
        /\ db_after r = create_contacts_database db
        /\ saved r =
           saved (save_contacts_to_database no_fault clock (take i contacts) db))
  /\ (forall contacts db,
        let r := save_contacts_to_database no_fault clock contacts db in
        printed r = []
        /\ saved r + row_count (create_contacts_database db)
           = row_count (db_after r)).
Proof.
  split; [|split].
  - intros fault i c more t n Hfault Hknown.
    split; [apply insert_or_ignore_known, Hknown|].
    cbn -[insert_or_ignore]. rewrite Hfault.
    rewrite insert_or_ignore_known by exact Hknown. reflexivity.
  - intros fault contacts db i Hi Hfault Hfree r. subst r.
    unfold save_contacts_to_database.
    destruct (create_contacts_database db) as [t|] eqn:Hdb;
      [|destruct db; discriminate].
    assert (Hlen : length (take i contacts) = i)
      by (rewrite length_take; lia).
    destruct (insert_loop_no_fault clock (take i contacts) 0 t 0)
      as (t' & n' & Hpre & _).
    assert (Hloop : insert_loop fault clock 0 contacts t 0 = Raised n').
    { rewrite <- (take_drop i contacts).
      rewrite insert_loop_prefix
        by (intros j Hj; apply Hfree; cbn; rewrite Hlen in Hj; lia).
      rewrite Hpre, Hlen. cbn.
      destruct (drop i contacts) as [|c more] eqn:Hdrop.
      - apply (f_equal length) in Hdrop. rewrite length_drop in Hdrop.
        cbn in Hdrop. lia.
      - cbn -[insert_or_ignore]. rewrite Hfault. reflexivity. }
    rewrite Hloop, Hpre. cbn. repeat split; reflexivity.
  - intros contacts db r. subst r.
    unfold save_contacts_to_database.
    destruct (create_contacts_database db) as [t|] eqn:Hdb;
      [|destruct db; discriminate].
    destruct (insert_loop_no_fault clock contacts 0 t 0)
      as (t' & n' & -> & Hcount).
    cbn. split; [reflexivity|]. lia.
Qed.

Lemma C8_upsert_faults_witness :
  let fault := fun i => Nat.eqb i 1 in
  let clock := fun _ => 0%N in
  let batch := [contact "m1" "Ann"; contact "m2" "Bob"; contact "m3" "Cy"] in
  let r := save_contacts_to_database fault clock batch None in
  printed r = ["Database save error"]
  /\ db_after r = create_contacts_database None
  /\ saved r = saved (save_contacts_to_database no_fault clock (take 1 batch) None).
Proof.
  cbv zeta.
  apply (proj1 (proj2 (C8_upsert_faults (fun _ => 0%N)))
           (fun i => Nat.eqb i 1)
           [contact "m1" "Ann"; contact "m2" "Bob"; contact "m3" "Cy"] None 1).
  - cbn. lia.
  - reflexivity.
  - intros j Hj. destruct j; [reflexivity | lia].
Defined.

(** *** The polling orchestrator *)

Lemma count_obs_app i o l1 l2 :
  count_obs i o (l1 ++ l2) = count_obs i o l1 + count_obs i o l2.
Proof. unfold count_obs. rewrite List.filter_app, length_app. reflexivity. Qed.







(** *** The search *)














(** *** The contact-field extractor *)

Lemma first_match_none body pattern_list :
  (forall pattern, In pattern pattern_list ->
                   re_search parse_flags pattern body = None) ->
  first_match body pattern_list = None.
Proof.
  induction pattern_list as [|p ps IH]; intros Hnone; cbn; [reflexivity|].
  rewrite (Hnone p) by (left; reflexivity).
  apply IH. intros q Hq. apply Hnone. right. exact Hq.
Qed.

Lemma parse_contact_info_lookup email_body field pattern_list :
  In (field, pattern_list) patterns ->
  _parse_contact_info email_body !! field
  = Some (default [] (first_match (cleaned email_body) pattern_list)).
Proof.
  intros Hin.
  unfold _parse_contact_info, initial_contact_info.
  unfold patterns in *. cbn [foldl]. unfold parse_field. cbn [fst snd].
  repeat (destruct Hin as [Hin|Hin]; [injection Hin as <- <-|]);
    [..|destruct Hin];
    generalize (first_match (cleaned email_body) name_patterns)
               (first_match (cleaned email_body) address_patterns)
               (first_match (cleaned email_body) postcode_patterns)
               (first_match (cleaned email_body) skills_patterns)
               (first_match (cleaned email_body) other_patterns);
    intros o1 o2 o3 o4 o5;
    destruct o1, o2, o3, o4, o5; cbn [default]; simplify_map_eq; reflexivity.
Qed.

Lemma parse_contact_info_dom email_body :
  dom (_parse_contact_info email_body) = field_names.
Proof.
  unfold _parse_contact_info, patterns, initial_contact_info, field_names.
  cbn [foldl]. unfold parse_field. cbn [fst snd].
  destruct (first_match (cleaned email_body) name_patterns),
           (first_match (cleaned email_body) address_patterns),
           (first_match (cleaned email_body) postcode_patterns),
           (first_match (cleaned email_body) skills_patterns),
           (first_match (cleaned email_body) other_patterns);
    rewrite !dom_insert_L, dom_empty_L; set_solver.
Qed.

(** C3: for every body text, the dictionary [_parse_contact_info] returns
    has exactly the five keys name, address, postcode, skills and other;
    each is bound to a string, which is the cleaned capture of the first
    pattern of the field that matches and the empty string when none of the
    field's patterns matches.  The function is total: no input makes it
    raise. *)
Theorem C3_parse_contact_info_total (email_body : str) :
  dom (_parse_contact_info email_body) = field_names
  /\ (forall field, field ∈ field_names ->
                    exists value : str,
                      _parse_contact_info email_body !! field = Some value)
  /\ (forall field pattern_list,
        In (field, pattern_list) patterns ->
        _parse_contact_info email_body !! field
        = Some (default [] (first_match (cleaned email_body) pattern_list))
        /\ ((forall pattern, In pattern pattern_list ->
               re_search parse_flags pattern (cleaned email_body) = None) ->
            _parse_contact_info email_body !! field = Some [])).
Proof.
  split; [apply parse_contact_info_dom|split].
  - intros field Hfield. rewrite <- (parse_contact_info_dom email_body) in Hfield.
    apply elem_of_dom in Hfield as [value Hvalue]. exists value. exact Hvalue.
  - intros field pattern_list Hin.
    pose proof (parse_contact_info_lookup email_body field pattern_list Hin) as Hl.
    split; [exact Hl|].
    intros Hnone. rewrite Hl, (first_match_none _ _ Hnone). reflexivity.
Qed.

(** On a body without any label and without text, every pattern fails and
    the five fields are empty strings. *)
Lemma C3_parse_contact_info_total_witness :
  _parse_contact_info [] !! "address" = Some []
  /\ exists value : str, _parse_contact_info [] !! "name" = Some value.
Proof.
  split.
  - apply (proj2 (proj2 (proj2 (C3_parse_contact_info_total []))
                   "address" address_patterns ltac:(cbn; tauto))).
    intros pattern Hin. cbn in Hin.
    destruct Hin as [<-|[<-|[]]]; vm_compute; reflexivity.
  - apply (proj1 (proj2 (C3_parse_contact_info_total []))).
    unfold field_names. set_solver.
Defined.

(** **** Stripping *)

Lemma lstrip_suffix s : exists l, s = l ++ lstrip s.
Proof.
  induction s as [|c s [l IH]]; [exists []; reflexivity|].
  cbn. destruct (isspace c).
  - exists (c :: l). cbn. rewrite <- IH. reflexivity.
  - exists []. reflexivity.
Qed.

Lemma lstrip_head s c t : lstrip s = c :: t -> isspace c = false.
Proof.
  induction s as [|d s IH]; cbn; [discriminate|].
  destruct (isspace d) eqn:Hd; [exact IH|].
  intros [= <- <-]. exact Hd.
Qed.

Lemma lstrip_idem s : lstrip (lstrip s) = lstrip s.
Proof.
  destruct (lstrip s) as [|c t] eqn:Hs; [reflexivity|].
  cbn. rewrite (lstrip_head _ _ _ Hs). reflexivity.
Qed.

Lemma lstrip_snoc s c : isspace c = false -> lstrip (s ++ [c]) = lstrip s ++ [c].
Proof.
  intros Hc. induction s as [|d s IH]; cbn; [rewrite Hc; reflexivity|].
  destruct (isspace d); [exact IH | reflexivity].
Qed.

Lemma rstrip_cons c s : isspace c = false -> rstrip (c :: s) = c :: rstrip s.
Proof.
  intros Hc. unfold rstrip. cbn [rev].
  rewrite lstrip_snoc by exact Hc. rewrite rev_app_distr. reflexivity.
Qed.

Lemma rstrip_idem s : rstrip (rstrip s) = rstrip s.
Proof. unfold rstrip. rewrite rev_involutive, lstrip_idem. reflexivity. Qed.

Lemma rstrip_prefix s : exists r, s = rstrip s ++ r.
Proof.
  unfold rstrip. destruct (lstrip_suffix (rev s)) as [l Hl].
  exists (rev l). rewrite <- rev_app_distr, <- Hl, rev_involutive. reflexivity.
Qed.

Lemma strip_idem s : strip (strip s) = strip s.
Proof.
  unfold strip at 1.
  assert (Hl : lstrip (strip s) = strip s).
  { unfold strip. destruct (lstrip s) as [|c t] eqn:Hs; [reflexivity|].
    pose proof (lstrip_head _ _ _ Hs) as Hc.
    rewrite rstrip_cons by exact Hc. cbn. rewrite Hc. reflexivity. }
  rewrite Hl. unfold strip. apply rstrip_idem.
Qed.

Lemma strip_infix s : exists l r, s = l ++ strip s ++ r.
Proof.
  destruct (lstrip_suffix s) as [l Hl].
  destruct (rstrip_prefix (lstrip s)) as [r Hr].
  exists l, r. unfold strip. rewrite <- Hr. exact Hl.
Qed.

Lemma strip_last s a c : strip s = a ++ [c] -> isspace c = false.
Proof.
  unfold strip, rstrip. intros H.
  apply (f_equal (@rev N)) in H. rewrite rev_involutive, rev_app_distr in H.
  cbn in H. eapply lstrip_head. exact H.
Qed.

(** **** The matcher on texts without labels *)

Lemma run_cat f r1 r2 k m : run f (Cat r1 r2) k m = run f r1 (run f r2 k) m.
Proof. reflexivity. Qed.

Lemma run_word_none f w :
  IGNORECASE f = true ->
  forall k m,
    starts_with_label w (rest m) = false ->
    run f (foldr (fun c r => Cat (Atom (Lit c)) r) Eps w) k m = None.
Proof.
  intros Hic. induction w as [|x w IH]; intros k m Hw; [discriminate|].
  cbn [foldr]. rewrite run_cat. cbn [run].
  destruct (rest m) as [|c t] eqn:Hrest; [reflexivity|].
  cbn [atom_match]. rewrite Hic. cbn [starts_with_label] in Hw.
  destruct (lit_ignore x c); [|reflexivity].
  apply IH. exact Hw.
Qed.

Lemma run_label_head_none l tail k m :
  starts_with_label (u l) (rest m) = false ->
  run parse_flags (Cat (label_head l) tail) k m = None.
Proof.
  intros Hl. unfold label_head. cbn [cat]. rewrite !run_cat.
  apply run_word_none; [reflexivity | exact Hl].
Qed.

Lemma scan_none f r : forall s pv p,
  (forall pre s' pv' p', s = pre ++ s' ->
                         run f r Some (MState pv' p' s' None) = None) ->
  scan f r pv p s = None.
Proof.
  induction s as [|c s IH]; intros pv p Hnone; cbn [scan].
  - rewrite (Hnone [] []) by reflexivity. reflexivity.
  - rewrite (Hnone [] (c :: s)) by reflexivity.
    apply IH. intros pre s' pv' p' ->. apply (Hnone (c :: pre)). reflexivity.
Qed.

Lemma contains_label_split w : forall s,
  contains_label w s = false ->
  forall pre post, s = pre ++ post -> starts_with_label w post = false.
Proof.
  induction s as [|c s IH]; intros Hs pre post Hsplit; cbn [contains_label] in Hs;
    apply orb_false_iff in Hs as [Hhead Htail].
  - symmetry in Hsplit. apply app_eq_nil in Hsplit as [_ ->]. exact Hhead.
  - destruct pre as [|d pre]; cbn in Hsplit.
    + subst post. exact Hhead.
    + injection Hsplit as _ ->. eapply IH; [exact Htail | reflexivity].
Qed.

Lemma starts_with_label_app w : forall s r,
  starts_with_label w s = true -> starts_with_label w (s ++ r) = true.
Proof.
  induction w as [|x w IH]; intros s r Hs; [reflexivity|].
  destruct s as [|c s]; [discriminate|]. cbn in *.
  apply andb_true_iff in Hs as [-> Hs]. cbn. apply IH, Hs.
Qed.

Lemma label_free_strip b l pre s' :
  label_free b = true -> In l labels ->
  strip b = pre ++ s' -> starts_with_label (u l) s' = false.
Proof.
  intros Hfree Hl Hsplit. unfold label_free in Hfree.
  rewrite forallb_forall in Hfree. specialize (Hfree l Hl).
  apply negb_true_iff in Hfree.
  destruct (strip_infix b) as (left_ & right_ & Hb).
  rewrite Hsplit in Hb.
  destruct (starts_with_label (u l) s') eqn:Hs'; [|reflexivity].
  apply (starts_with_label_app _ _ right_) in Hs'.
  rewrite <- Hs'.
  apply (contains_label_split _ _ Hfree (left_ ++ pre) (s' ++ right_)).
  rewrite Hb, <- !app_assoc. reflexivity.
Qed.

Lemma run_stops_none ls k m c t :
  rest m = c :: t -> c <> LF ->
  (forall l, In l ls -> starts_with_label (u l) (rest m) = false) ->
  run parse_flags (stops ls) k m = None.
Proof.
  intros Hrest Hc. unfold stops.
  induction ls as [|l ls IH]; intros Hls; cbn [foldr run].
  - unfold at_eol. rewrite Hrest.
    destruct (N.eqb_spec c LF); [contradiction | reflexivity].
  - unfold word. rewrite run_word_none;
      [|reflexivity | apply Hls; left; reflexivity].
    apply IH. intros l' Hl'. apply Hls. right. exact Hl'.
Qed.

Lemma rep_none test greedy k g : forall s lo hi pv p,
  (forall pre s' pv' p', s = pre ++ s' -> forallb test pre = true ->
                         k (MState pv' p' s' g) = None) ->
  rep test greedy lo hi k pv p g s = None.
Proof.
  induction s as [|c s IH]; intros lo hi pv p Hk.
  - destruct lo, greedy; cbn; try reflexivity;
      rewrite (Hk [] []) by reflexivity; reflexivity.
  - assert (Hmore : forall lo' hi',
      (if test c && allows hi
       then rep test greedy lo' hi' k (Some c) (S p) g s else None) = None).
    { intros lo' hi'. destruct (test c) eqn:Hc; [|reflexivity].
      destruct (allows hi); [|reflexivity]. cbn [andb].
      apply IH. intros pre s' pv' p' -> Hpre.
      apply (Hk (c :: pre)); [reflexivity|]. cbn. rewrite Hc. exact Hpre. }
    destruct lo; cbn [rep]; [|apply Hmore].
    destruct greedy; rewrite Hmore, (Hk [] (c :: s)) by reflexivity; reflexivity.
Qed.

Lemma rep_lazy_to_end test k g :
  (forall c, test c = true) ->
  forall s pv p,
    (forall pre c s' pv' p', s = pre ++ c :: s' ->
                             k (MState pv' p' (c :: s') g) = None) ->
    rep test false 0 None k pv p g s
    = k (MState (prev_after pv s) (p + length s) [] g).
Proof.
  intros Htest. induction s as [|c s IH]; intros pv p Hk; cbn [rep].
  - cbn. rewrite Nat.add_0_r. destruct (k _); reflexivity.
  - rewrite (Hk [] c s) by reflexivity. rewrite Htest. cbn [andb allows dec_hi].
    rewrite IH.
    + unfold prev_after. cbn [foldl length].
      replace (p + S (length s)) with (S p + length s) by lia. reflexivity.
    + intros pre c' s' pv' p' ->. apply (Hk (c :: pre)). reflexivity.
Qed.

Lemma has_LF_split pre c t : has_LF (pre ++ c :: t) = false -> c <> LF.
Proof.
  unfold has_LF. rewrite existsb_app. cbn. intros H.
  apply orb_false_iff in H as [_ H]. apply orb_false_iff in H as [H _].
  apply N.eqb_neq. exact H.
Qed.

Lemma has_LF_suffix pre s : has_LF (pre ++ s) = false -> has_LF s = false.
Proof.
  unfold has_LF. rewrite existsb_app. intros H.
  apply orb_false_iff in H as [_ H]. exact H.
Qed.

Lemma sub_from_no_match f r repl : forall s pv p,
  (forall pre s' pv' p', s = pre ++ s' ->
                         run f r Some (MState pv' p' s' None) = None) ->
  sub_from f r repl 0 pv p s = s.
Proof.
  induction s as [|c s IH]; intros pv p Hnone; cbn [sub_from]; [reflexivity|].
  rewrite (Hnone [] (c :: s)) by reflexivity. f_equal.
  apply IH. intros pre s' pv' p' ->. apply (Hnone (c :: pre)). reflexivity.
Qed.

Lemma run_crlf_none m : has_LF (rest m) = false -> run no_flags crlf Some m = None.
Proof.
  intros Hlf. unfold crlf. cbn [run atom_match IGNORECASE no_flags].
  destruct (rest m) as [|c [|d t]]; [reflexivity| |].
  - destruct (c =? CR)%N; reflexivity.
  - destruct (c =? CR)%N; [|reflexivity]. cbn [rest].
    rewrite (proj2 (N.eqb_neq d LF)); [reflexivity|].
    apply (has_LF_split [c] d t). exact Hlf.
Qed.

Lemma cleaned_without_LF b : has_LF (strip b) = false -> cleaned b = strip b.
Proof.
  intros Hlf. unfold cleaned, re_sub. apply sub_from_no_match.
  intros pre s' pv' p' Hs. apply run_crlf_none. cbn [rest].
  rewrite Hs in Hlf. eapply has_LF_suffix. exact Hlf.
Qed.

Lemma sub_colon_later : forall s pv p,
  sub_from no_flags colon_remnant [] 0 pv (S p) s = s.
Proof.
  induction s as [|c s IH]; intros pv p; cbn [sub_from]; [reflexivity|].
  unfold colon_remnant at 1. cbn [cat]. rewrite run_cat. cbn [run].
  unfold at_bol. cbn [pos MULTILINE no_flags andb]. f_equal. apply IH.
Qed.

Lemma sub_colon_id s :
  starts_with_colon s = false -> re_sub no_flags colon_remnant [] s = s.
Proof.
  unfold re_sub. destruct s as [|c s]; [reflexivity|]. cbn [starts_with_colon].
  intros Hc. cbn [sub_from].
  unfold colon_remnant at 1. cbn [cat]. rewrite !run_cat. cbn [run].
  unfold at_bol. cbn [pos rest atom_match IGNORECASE no_flags].
  rewrite Hc. f_equal. apply sub_colon_later.
Qed.

Lemma re_sub_nonempty f r repl s : s <> [] -> repl <> [] -> re_sub f r repl s <> [].
Proof.
  unfold re_sub. destruct s as [|c s]; [congruence|]. intros _ Hrepl.
  cbn [sub_from]. destruct (run f r Some _) as [m|]; [|discriminate].
  destruct (pos m - 0); [discriminate|].
  destruct repl; [congruence | discriminate].
Qed.

Lemma run_ahead f r k m :
  run f (Ahead r) k m
  = match run f r Some m with Some _ => k m | None => None end.
Proof. reflexivity. Qed.

Lemma boundary_none ls k m :
  rest m <> [] ->
  (forall a c, rest m = a ++ [c] -> isspace c = false) ->
  has_LF (rest m) = false ->
  (forall l pre s', In l ls -> rest m = pre ++ s' ->
                    starts_with_label (u l) s' = false) ->
  run parse_flags (boundary ls) k m = None.
Proof.
  intros Hne Hlast Hlf Hlabels. unfold boundary.
  rewrite run_ahead, run_cat. unfold star. cbn [run].
  rewrite rep_none; [reflexivity|]. intros pre s' pv' p' Hs Hpre.
  destruct s' as [|c t].
  - rewrite app_nil_r in Hs.
    destruct (exists_last Hne) as (a & c & Ha).
    pose proof (Hlast a c Ha) as Hc.
    rewrite Hs in Ha. rewrite Ha, forallb_app in Hpre.
    apply andb_true_iff in Hpre as [_ Hpre]. cbn in Hpre.
    rewrite Hc in Hpre. discriminate.
  - apply (run_stops_none ls _ _ c t); cbn [rest].
    + reflexivity.
    + eapply has_LF_split. rewrite <- Hs. exact Hlf.
    + intros l Hl. eapply Hlabels; eassumption.
Qed.

Lemma boundary_end k pv p g :
  run parse_flags (boundary name_stops) k (MState pv p [] g)
  = k (MState pv p [] g).
Proof.
  unfold boundary. rewrite run_ahead.
  replace (run parse_flags (Cat (star Space) (stops name_stops)) Some
             (MState pv p [] g))
    with (Some (MState pv p [] g)) by (vm_compute; reflexivity).
  reflexivity.
Qed.

Lemma slice_all (s : str) : slice s 0 (length s) = s.
Proof. unfold slice. rewrite Nat.sub_0_r, drop_0. apply firstn_all. Qed.

(** On a text that ends in no white space, has no line feed and no label,
    the permissive pattern of the name matches at the start and captures
    the whole text. *)
Lemma search_name_fallback t :
  t <> [] ->
  (forall a c, t = a ++ [c] -> isspace c = false) ->
  has_LF t = false ->
  (forall l pre s', In l name_stops -> t = pre ++ s' ->
                    starts_with_label (u l) s' = false) ->
  re_search parse_flags
    (cat [Bol; Group (plus_lazy Any); boundary name_stops]) t
  = Some (MatchObj 0 (length t) (Some (0, length t))).
Proof.
  intros Hne Hlast Hlf Hlabels.
  destruct t as [|c t]; [congruence|].
  unfold re_search. cbn [scan].
  assert (Hrun : run parse_flags
            (cat [Bol; Group (plus_lazy Any); boundary name_stops]) Some
            (MState None 0 (c :: t) None)
          = Some (MState (prev_after (Some c) t) (S (length t)) []
                         (Some (0, S (length t))))).
  { cbn [cat]. rewrite !run_cat. cbn [run at_bol pos]. unfold plus_lazy.
    cbn [run prev pos rest grp rep atom_match DOTALL parse_flags orb andb
         allows dec_hi].
    rewrite rep_lazy_to_end.
    - cbn [prev pos rest]. rewrite boundary_end. reflexivity.
    - reflexivity.
    - intros pre c' s' pv' p' Hs. cbn [prev pos rest].
      apply boundary_none; cbn [rest].
      + discriminate.
      + intros a d Ha. apply (Hlast (c :: pre ++ a) d).
        rewrite Hs, Ha. cbn. rewrite <- app_assoc. reflexivity.
      + apply (has_LF_suffix (c :: pre)). cbn [app]. rewrite <- Hs. exact Hlf.
      + intros l pre' s'' Hl Hsplit. apply (Hlabels l (c :: pre ++ pre') s'' Hl).
        rewrite Hs, Hsplit. cbn. rewrite <- app_assoc. reflexivity. }
  rewrite Hrun. reflexivity.
Qed.

(** Every pattern that begins with a label fails on a text in which the
    label does not occur. *)
Lemma search_labelled_none l tail t :
  (forall pre s', t = pre ++ s' -> starts_with_label (u l) s' = false) ->
  re_search parse_flags (Cat (label_head l) tail) t = None.
Proof.
  intros Hl. unfold re_search. apply scan_none.
  intros pre s' pv' p' Hs. apply run_label_head_none. cbn [rest].
  eapply Hl. exact Hs.
Qed.

(** C10, as stated, fails.  A body of one space is not empty and holds no
    label, yet its name stays empty, as it does for a lone colon; of two
    lines without labels only the first becomes the name. *)
Lemma C10_counterexample :
  (u " " <> [] /\ label_free (u " ") = true
   /\ _parse_contact_info (u " ") !! "name" = Some [])
  /\ (label_free (u ":") = true
      /\ _parse_contact_info (u ":") !! "name" = Some [])
  /\ (label_free two_lines = true
      /\ _parse_contact_info two_lines !! "name" = Some (u "hello")
      /\ u "hello" <> re_sub no_flags space_run (u " ") (strip two_lines)).
Proof.
  repeat split; try (vm_compute; reflexivity); vm_compute; discriminate.
Qed.

Lemma first_match_labelled_none b pattern_list l :
  label_free b = true -> In l labels ->
  Forall (fun pattern => exists tail, pattern = Cat (label_head l) tail)
         pattern_list ->
  first_match (strip b) pattern_list = None.
Proof.
  intros Hfree Hl Hall. apply first_match_none. intros pattern Hin.
  rewrite Forall_forall in Hall. destruct (Hall pattern) as [tail ->].
  { apply list_elem_of_In. exact Hin. }
  apply search_labelled_none. intros pre s' Hs.
  eapply label_free_strip; eassumption.
Qed.

(** C10, amended: for every body text that contains none of the recognised
    labels and whose stripped form is not empty, has no line feed and does
    not begin with a colon, [_parse_contact_info] binds name to the
    stripped text with its runs of white space collapsed to single spaces,
    which is not empty, while address, postcode, skills and other stay
    empty strings. *)
Theorem C10_unlabelled_body (email_body : str) :
  strip email_body <> [] ->
  has_LF (strip email_body) = false ->
  starts_with_colon (strip email_body) = false ->
  label_free email_body = true ->
  _parse_contact_info email_body !! "name"
    = Some (re_sub no_flags space_run (u " ") (strip email_body))
  /\ re_sub no_flags space_run (u " ") (strip email_body) <> []
  /\ _parse_contact_info email_body !! "address" = Some []
  /\ _parse_contact_info email_body !! "postcode" = Some []
  /\ _parse_contact_info email_body !! "skills" = Some []
  /\ _parse_contact_info email_body !! "other" = Some [].
Proof.
  intros Hne Hlf Hcolon Hfree.
  assert (Hlabelled : forall field pattern_list l,
    In (field, pattern_list) patterns -> In l labels ->
    Forall (fun pattern => exists tail, pattern = Cat (label_head l) tail)
           pattern_list ->
    _parse_contact_info email_body !! field = Some []).
  { intros field pattern_list l Hin Hl Hall.
    rewrite (parse_contact_info_lookup _ _ _ Hin).
    rewrite (cleaned_without_LF _ Hlf).
    rewrite (first_match_labelled_none _ _ l Hfree Hl Hall). reflexivity. }
  split; [|split; [|repeat split]].
  - rewrite (parse_contact_info_lookup _ "name" name_patterns)
      by (cbn; tauto).
    rewrite (cleaned_without_LF _ Hlf).
    unfold name_patterns. cbn [first_match].
    change (cat [label_head "name"; Group (plus_lazy Any);
                 boundary ["address"; "postcode"; "skills"; "other"; "from";
                           "subject"]])
      with (Cat (label_head "name")
                (Cat (Group (plus_lazy Any)) (boundary name_stops))).
    rewrite search_labelled_none
      by (intros pre s' Hs; eapply label_free_strip;
          [exact Hfree | cbn; tauto | exact Hs]).
    change ["address"; "postcode"; "skills"; "other"; "from"; "subject"]
      with name_stops.
    rewrite search_name_fallback.
    + unfold group1. cbn [m_group1 default]. rewrite slice_all.
      unfold clean_value. rewrite strip_idem, (sub_colon_id _ Hcolon).
      reflexivity.
    + exact Hne.
    + intros a c Ha. eapply strip_last. exact Ha.
    + exact Hlf.
    + intros l pre s' Hl Hs. eapply label_free_strip;
        [exact Hfree | | exact Hs].
      cbn in Hl |- *. tauto.
  - apply re_sub_nonempty; [exact Hne | discriminate].
  - apply (Hlabelled "address" address_patterns "address");
      [cbn; tauto | cbn; tauto |].
    repeat constructor; eexists; reflexivity.
  - apply (Hlabelled "postcode" postcode_patterns "postcode");
      [cbn; tauto | cbn; tauto |].
    repeat constructor; eexists; reflexivity.
  - apply (Hlabelled "skills" skills_patterns "skills");
      [cbn; tauto | cbn; tauto |].
    repeat constructor; eexists; reflexivity.
  - apply (Hlabelled "other" other_patterns "other");
      [cbn; tauto | cbn; tauto |].
    repeat constructor; eexists; reflexivity.
Qed.

Lemma C10_unlabelled_body_witness :
  _parse_contact_info (u "  Bob   Smith, plumber ") !! "name"
    = Some (u "Bob Smith, plumber")
  /\ _parse_contact_info (u "  Bob   Smith, plumber ") !! "address" = Some [].
Proof.
  destruct (C10_unlabelled_body (u "  Bob   Smith, plumber "))
    as (Hname & _ & Haddress & _).
  - vm_compute. discriminate.
  - vm_compute. reflexivity.
  - vm_compute. reflexivity.
  - vm_compute. reflexivity.
  - split; [|exact Haddress].
    rewrite Hname. vm_compute. reflexivity.
Defined.

(** *** The body decoder *)






























Lemma scan_parts_passed_over before more :
  forallb passed_over before = true ->
  scan_parts (before ++ more) = scan_parts more.
Proof.
  induction before as [|p before IH]; intros Hall; [reflexivity|].
  cbn [forallb] in Hall. apply andb_true_iff in Hall as [Hp Hall].
  cbn [app scan_parts]. unfold passed_over in Hp.
  destruct (p_mimeType p) as [mime|]; [|discriminate].
  destruct (str_eqb mime (u "text/plain")); [|apply IH, Hall].
  destruct (p_body p) as [[[data|]]|]; try discriminate.
  apply IH, Hall.
Qed.






(** * Further properties *)

(** ** The store *)

Lemma has_message_id_spec m t :
  has_message_id m t = true <-> In m (message_ids t).
Proof.
  unfold has_message_id, message_ids. rewrite existsb_exists, in_map_iff.
  split.
  - intros (r & Hr & Heq). exists r. split; [|exact Hr].
    unfold str_eqb in Heq. apply bool_decide_eq_true in Heq. exact Heq.
  - intros (r & Heq & Hr). exists r. split; [exact Hr|].
    unfold str_eqb. apply bool_decide_eq_true. exact Heq.
Qed.

Lemma has_message_id_false m t :
  has_message_id m t = false <-> ~ In m (message_ids t).
Proof.
  rewrite <- has_message_id_spec. destruct (has_message_id m t); split;
    intros H; try reflexivity; try discriminate; try congruence;
    exfalso; apply H; reflexivity.
Qed.

(** What one [INSERT OR IGNORE] does, case by case. *)
Lemma insert_or_ignore_cases now c t :
  (In (contact_id c) (message_ids t) /\ insert_or_ignore now c t = (t, 0))
  \/ (~ In (contact_id c) (message_ids t)
      /\ exists r, insert_or_ignore now c t
                   = (Table (t_rows t ++ [r]) (S (t_seq t)), 1)
                   /\ row_of c r /\ r_id r = S (t_seq t)
                   /\ r_created_at r = now).
Proof.
  unfold contact_id.
  destruct (has_message_id (get_field c "message_id") t) eqn:Hid.
  - left. split; [apply has_message_id_spec, Hid|].
    apply insert_or_ignore_known, Hid.
  - right. split; [apply has_message_id_false, Hid|].
    unfold insert_or_ignore. fold (has_message_id (get_field c "message_id") t).
    rewrite Hid. eexists. split; [reflexivity|].
    unfold row_of. cbn. repeat split; reflexivity.
Qed.

(** A property of tables that every single insert keeps is kept by the
    loop, however it ends. *)
Lemma insert_loop_keeps (P : table -> Prop) fault clock :
  (forall now c t, P t -> P (fst (insert_or_ignore now c t))) ->
  forall contacts i t n t' n',
    P t -> insert_loop fault clock i contacts t n = Completed t' n' -> P t'.
Proof.
  intros Hstep. induction contacts as [|c more IH]; intros i t n t' n' Ht Hloop;
    cbn -[insert_or_ignore] in Hloop.
  - injection Hloop as <- _. exact Ht.
  - destruct (fault i); [discriminate|].
    pose proof (Hstep (clock i) c t Ht) as Ht1.
    destruct (insert_or_ignore (clock i) c t) as [t1 rc]. cbn in Ht1.
    eapply IH; eassumption.
Qed.

(** The table after a call is the table before it or what the completed
    loop made of it. *)
Lemma save_table_after fault clock contacts db :
  let r := save_contacts_to_database fault clock contacts db in
  table_after r = the_table db
  \/ exists n, insert_loop fault clock 0 contacts (the_table db) 0
               = Completed (table_after r) n.
Proof.
  cbv zeta. unfold save_contacts_to_database, table_after.
  assert (Hcreate : create_contacts_database db = Some (the_table db))
    by (destruct db; reflexivity).
  rewrite Hcreate.
  destruct (insert_loop fault clock 0 contacts (the_table db) 0) as [t' n|n] eqn:Hloop.
  - right. exists n. reflexivity.
  - left. reflexivity.
Qed.

Lemma save_keeps (P : table -> Prop) fault clock contacts db :
  (forall now c t, P t -> P (fst (insert_or_ignore now c t))) ->
  P (the_table db) ->
  P (table_after (save_contacts_to_database fault clock contacts db)).
Proof.
  intros Hstep Hdb.
  destruct (save_table_after fault clock contacts db) as [-> | [n Hloop]];
    [exact Hdb|].
  eapply insert_loop_keeps; eassumption.
Qed.

(** X1: the uniqueness of message ids is an invariant of the table: if no
    two rows share a message id before a call of
    [save_contacts_to_database], none do after it, whatever the batch and
    whether or not the store faults. *)
Theorem X1_message_ids_stay_unique fault clock contacts db :
  NoDup (message_ids (the_table db)) ->
  NoDup (message_ids
           (table_after (save_contacts_to_database fault clock contacts db))).
Proof.
  apply (save_keeps (fun t => NoDup (message_ids t))).
  intros now c t Ht.
  destruct (insert_or_ignore_cases now c t) as [[_ ->] | (Hnew & r & -> & Hr & _)];
    [exact Ht|].
  cbn. unfold message_ids. cbn. rewrite List.map_app. cbn.
  apply NoDup_app. split; [exact Ht|]. split.
  - intros m Hm Hin. apply list_elem_of_In in Hm.
    apply list_elem_of_singleton in Hin. subst m.
    apply Hnew. destruct Hr as (_ & _ & _ & _ & _ & _ & _ & _ & Hid).
    unfold contact_id. rewrite <- Hid. exact Hm.
  - apply NoDup_singleton.
Qed.

Lemma X1_message_ids_stay_unique_witness :
  NoDup (message_ids
           (table_after
              (save_contacts_to_database no_fault (fun _ => 0%N)
                 [contact "m1" "Ann"; contact "m1" "Ann again";
                  contact "m2" "Bob"] None))).
Proof.
  apply X1_message_ids_stay_unique. cbn. constructor.
Defined.

(** X2: the table is append-only.  After any call of
    [save_contacts_to_database], faulting or not, the rows the table held
    before are still there, unchanged and in the same order, at the head of
    the table. *)
Theorem X2_rows_are_never_changed fault clock contacts db :
  exists added,
    t_rows (table_after (save_contacts_to_database fault clock contacts db))
    = t_rows (the_table db) ++ added.
Proof.
  apply (save_keeps
           (fun t => exists added, t_rows t = t_rows (the_table db) ++ added)).
  - intros now c t [added Ht].
    destruct (insert_or_ignore_cases now c t) as [[_ ->] | (_ & r & -> & _)].
    + exists added. exact Ht.
    + exists (added ++ [r]). cbn. rewrite Ht, app_assoc. reflexivity.
  - exists []. rewrite app_nil_r. reflexivity.
Qed.

Lemma save_no_fault clock contacts db :
  exists t' n',
    insert_loop no_fault clock 0 contacts (the_table db) 0 = Completed t' n'
    /\ save_contacts_to_database no_fault clock contacts db
       = SaveResult n' (Some t') [].
Proof.
  destruct (insert_loop_no_fault clock contacts 0 (the_table db) 0)
    as (t' & n' & Hloop & _).
  exists t', n'. split; [exact Hloop|].
  unfold save_contacts_to_database.
  replace (create_contacts_database db) with (Some (the_table db))
    by (destruct db; reflexivity).
  rewrite Hloop. reflexivity.
Qed.

Lemma insert_loop_all_known fault clock contacts : forall i t n,
  (forall j, j < length contacts -> fault (i + j) = false) ->
  (forall c, In c contacts -> In (contact_id c) (message_ids t)) ->
  insert_loop fault clock i contacts t n = Completed t n.
Proof.
  induction contacts as [|c more IH]; intros i t n Hfree Hknown;
    cbn -[insert_or_ignore]; [reflexivity|].
  specialize (Hfree 0 ltac:(cbn; lia)) as H0. rewrite Nat.add_0_r in H0.
  rewrite H0.
  destruct (insert_or_ignore_cases (clock i) c t) as [[_ ->] | [Hnew _]].
  - cbn. apply IH.
    + intros j Hj. replace (S i + j) with (i + S j) by lia.
      apply Hfree. cbn. lia.
    + intros c' Hc'. apply Hknown. right. exact Hc'.
  - exfalso. apply Hnew, Hknown. left. reflexivity.
Qed.

Lemma insert_or_ignore_ids now c t m :
  In m (message_ids (fst (insert_or_ignore now c t)))
  <-> In m (message_ids t) \/ m = contact_id c.
Proof.
  destruct (insert_or_ignore_cases now c t)
    as [[Hin ->] | (Hnew & r & -> & Hr & _)]; cbn.
  - split; [tauto|]. intros [H| ->]; assumption.
  - unfold message_ids. cbn. rewrite List.map_app, in_app_iff. cbn.
    destruct Hr as (_ & _ & _ & _ & _ & _ & _ & _ & ->). unfold contact_id.
    split; intros [H|H]; try tauto.
    + destruct H as [H|[]]. right. symmetry. exact H.
    + right. left. symmetry. exact H.
Qed.

(** After a loop without fault the table holds the ids it held and those of
    the batch, and no other. *)
Lemma insert_loop_ids clock contacts : forall i t n t' n',
  insert_loop no_fault clock i contacts t n = Completed t' n' ->
  forall m, In m (message_ids t')
            <-> In m (message_ids t) \/ In m (List.map contact_id contacts).
Proof.
  induction contacts as [|c more IH]; intros i t n t' n' Hloop m;
    cbn -[insert_or_ignore] in Hloop.
  - injection Hloop as <- _. cbn. tauto.
  - pose proof (insert_or_ignore_ids (clock i) c t m) as Hids.
    destruct (insert_or_ignore (clock i) c t) as [t1 rc]. cbn in Hids.
    rewrite (IH _ _ _ _ _ Hloop m), Hids. cbn. intuition congruence.
Qed.

(** X3: saving is idempotent.  When a batch has been saved without fault,
    saving the same batch again, at any later time, inserts nothing,
    returns 0 and leaves the rows of the table exactly as they were. *)
Theorem X3_saving_again_changes_nothing clock1 clock2 contacts db :
  let first := save_contacts_to_database no_fault clock1 contacts db in
  let second :=
    save_contacts_to_database no_fault clock2 contacts (db_after first) in
  saved second = 0
  /\ t_rows (table_after second) = t_rows (table_after first).
Proof.
  cbv zeta.
  destruct (save_no_fault clock1 contacts db) as (t1 & n1 & Hloop1 & ->).
  cbn [db_after].
  destruct (save_no_fault clock2 contacts (Some t1)) as (t2 & n2 & Hloop2 & ->).
  cbn [the_table] in Hloop2.
  rewrite insert_loop_all_known in Hloop2.
  - injection Hloop2 as <- <-. split; reflexivity.
  - reflexivity.
  - intros c Hc. apply (insert_loop_ids _ _ _ _ _ _ _ Hloop1). right.
    apply in_map. exact Hc.
Qed.











Lemma insert_loop_added clock contacts : forall i t n t' n',
  insert_loop no_fault clock i contacts t n = Completed t' n' ->
  exists added,
    t_rows t' = t_rows t ++ added
    /\ Forall (fun r => exists j c, contacts !! j = Some c /\ row_of c r
                                    /\ r_created_at r = clock (i + j)) added.
Proof.
  induction contacts as [|c more IH]; intros i t n t' n' Hloop;
    cbn -[insert_or_ignore] in Hloop.
  - injection Hloop as <- _. exists []. rewrite app_nil_r.
    split; [reflexivity | constructor].
  - destruct (insert_or_ignore_cases (clock i) c t)
      as [[_ Hins] | (_ & r & Hins & Hr & _ & Hnow)];
      rewrite Hins in Hloop; cbn in Hloop;
      destruct (IH _ _ _ _ _ Hloop) as (added & Hrows & Hall).
    + exists added. split; [exact Hrows|].
      eapply Forall_impl; [exact Hall|]. cbn.
      intros r (j & c' & Hj & Hc' & Hnow). exists (S j), c'. cbn.
      replace (i + S j) with (S i + j) by lia. auto.
    + exists (r :: added). split.
      * rewrite Hrows. cbn. rewrite <- app_assoc. reflexivity.
      * constructor.
        -- exists 0, c. rewrite Nat.add_0_r. auto.
        -- eapply Forall_impl; [exact Hall|]. cbn.
           intros r' (j & c' & Hj & Hc' & Hnow'). exists (S j), c'. cbn.
           replace (i + S j) with (S i + j) by lia. auto.
Qed.

(** X7: nothing is stored that was not in the batch.  Every row a call
    without fault adds to the table holds the nine fields of a contact of
    the batch, with empty strings for the keys the contact lacks, and the
    time at which that contact was inserted. *)
Theorem X7_added_rows_come_from_the_batch clock contacts db :
  exists added,
    t_rows (table_after (save_contacts_to_database no_fault clock contacts db))
    = t_rows (the_table db) ++ added
    /\ Forall (fun r => exists j c, contacts !! j = Some c /\ row_of c r
                                    /\ r_created_at r = clock j) added.
Proof.
  destruct (save_no_fault clock contacts db) as (t' & n' & Hloop & ->).
  unfold table_after. cbn [db_after the_table].
  destruct (insert_loop_added _ _ _ _ _ _ _ Hloop) as (added & Hrows & Hall).
  exists added. split; [exact Hrows | exact Hall].
Qed.

(** ** The statistics *)

Lemma filter_length_le {A} (f : A -> bool) l :
  length (List.filter f l) <= length l.
Proof.
  induction l as [|a l IH]; cbn; [lia|]. destruct (f a); cbn; lia.
Qed.

Lemma filter_length_mono {A} (f g : A -> bool) l :
  (forall a, f a = true -> g a = true) ->
  length (List.filter f l) <= length (List.filter g l).
Proof.
  intros Hfg. induction l as [|a l IH]; cbn; [lia|].
  destruct (f a) eqn:Hf.
  - rewrite (Hfg a Hf). cbn. lia.
  - destruct (g a); cbn; lia.
Qed.

Lemma today_is_this_week now ts :
  (DATE ts =? DATE now)%N = true ->
  ((DATE now - 7) * 86400 <=? ts)%N = true.
Proof.
  unfold DATE. intros H. apply N.eqb_eq in H. apply N.leb_le.
  pose proof (N.Div0.mul_div_le ts 86400) as Hts. rewrite H in Hts.
  nia.
Qed.

(** X9: the three counts of [get_database_stats] nest: at every time and
    for every table, the rows created today are among those of the last
    seven days, and these among all rows; on a file without the table all
    three are 0. *)
Theorem X9_stats_nest now db :
  today_contacts (get_database_stats now db)
    <= week_contacts (get_database_stats now db)
  /\ week_contacts (get_database_stats now db)
     <= total_contacts (get_database_stats now db)
  /\ total_contacts (get_database_stats now db) = row_count db
  /\ get_database_stats now None = Stats 0 0 0.
Proof.
  destruct db as [t|]; cbn; [|repeat split; lia].
  repeat split.
  - apply filter_length_mono. intros r. apply today_is_this_week.
  - apply filter_length_le.
Qed.



(** ** Reading the mailbox *)

Lemma list_all_serves service q pages : forall page_token,
  serves service q page_token pages ->
  forall fuel all_messages,
    length pages <= fuel ->
    list_all service fuel q page_token all_messages
    = Some (Some (all_messages ++ concat pages)).
Proof.
  induction 1 as [page_token messages next Hpage Hnext
                 |page_token messages c token pages Hpage Hrest IH];
    intros fuel all_messages Hfuel.
  - destruct fuel as [|fuel]; [cbn in Hfuel; lia|]. cbn [list_all].
    rewrite Hpage. cbn. rewrite app_nil_r.
    destruct Hnext as [-> | ->]; reflexivity.
  - destruct fuel as [|fuel]; [cbn in Hfuel; lia|]. cbn [list_all].
    rewrite Hpage. rewrite IH by (cbn in Hfuel; lia).
    cbn. rewrite <- app_assoc. reflexivity.
Qed.

(** X11: the paging loop of [get_emails_by_subject] gathers the whole
    listing.  When the service answers the query with a chain of pages, the
    last of which names no next page, the loop returns the ids of all the
    pages, in order, once it is given as many rounds as there are pages,
    and [get_emails_by_subject] returns the emails of exactly these ids. *)
Theorem X11_paging_gathers_every_page str_lower service subject_filter pages fuel :
  serves service (BySubject subject_filter) None pages ->
  length pages <= fuel ->
  list_all service fuel (BySubject subject_filter) None []
    = Some (Some (concat pages))
  /\ get_emails_by_subject str_lower service fuel true subject_filter
     = Some (emails_loop str_lower service (concat pages) []).
Proof.
  intros Hserves Hfuel.
  pose proof (list_all_serves service _ pages None Hserves fuel [] Hfuel)
    as Hall.
  cbn [app] in Hall. split; [exact Hall|].
  unfold get_emails_by_subject. rewrite Hall. reflexivity.
Qed.

Lemma X11_paging_gathers_every_page_witness :
  list_all two_page_service 2 (BySubject (u "Subject Application")) None []
  = Some (Some [u "m1"; u "m2"; u "m3"]).
Proof.
  apply (X11_paging_gathers_every_page ascii_lower two_page_service
           (u "Subject Application") [[u "m1"; u "m2"]; [u "m3"]] 2).
  - eapply serves_more; [reflexivity|].
    eapply serves_last; [reflexivity | left; reflexivity].
  - cbn. lia.
Defined.

Lemma recent_loop_omap str_lower service messages : forall acc,
  recent_loop str_lower service messages acc
  = acc ++ omap (recent_contact str_lower service) messages.
Proof.
  induction messages as [|id more IH]; intros acc; cbn.
  - rewrite app_nil_r. reflexivity.
  - destruct (recent_contact str_lower service id) as [c|].
    + rewrite IH, <- app_assoc. reflexivity.
    + apply IH.
Qed.

Lemma emails_loop_omap str_lower service messages : forall acc,
  emails_loop str_lower service messages acc
  = acc ++ omap (email_data_of str_lower service) messages.
Proof.
  induction messages as [|id more IH]; intros acc; cbn.
  - rewrite app_nil_r. reflexivity.
  - destruct (email_data_of str_lower service id) as [c|].
    + rewrite IH, <- app_assoc. reflexivity.
    + apply IH.
Qed.

Lemma omap_length_le {A B} (f : A -> option B) l :
  length (omap f l) <= length l.
Proof.
  induction l as [|a l IH]; cbn; [lia|]. destruct (f a); cbn; lia.
Qed.

Lemma unreadable_recent str_lower service id :
  unreadable service id -> recent_contact str_lower service id = None.
Proof.
  unfold recent_contact.
  intros [-> | [-> | (p & key & -> & Hdecode)]]; try reflexivity.
  cbv zeta. rewrite Hdecode. reflexivity.
Qed.

Lemma unreadable_email str_lower service id :
  unreadable service id -> email_data_of str_lower service id = None.
Proof.
  unfold email_data_of.
  intros [-> | [-> | (p & key & -> & Hdecode)]]; try reflexivity.
  cbv zeta. rewrite Hdecode. reflexivity.
Qed.

(** X12: one bad message does not spoil the batch.  A listed message whose
    fetch raises, which has no payload, or whose parts raise [KeyError] is
    passed over by both message loops: the result is the same as if the
    message had not been listed, and never longer than the listing. *)
Theorem X12_unreadable_messages_are_skipped str_lower service before id after :
  unreadable service id ->
  recent_loop str_lower service (before ++ id :: after) []
    = recent_loop str_lower service (before ++ after) []
  /\ emails_loop str_lower service (before ++ id :: after) []
     = emails_loop str_lower service (before ++ after) []
  /\ length (recent_loop str_lower service (before ++ id :: after) [])
     <= length (before ++ after).
Proof.
  intros Hbad.
  rewrite !recent_loop_omap, !emails_loop_omap. cbn [app].
  rewrite !omap_app. cbn -[recent_contact email_data_of].
  rewrite (unreadable_recent _ _ _ Hbad), (unreadable_email _ _ _ Hbad).
  repeat split.
  rewrite <- omap_app. apply omap_length_le.
Qed.

Lemma X12_unreadable_messages_are_skipped_witness :
  recent_loop ascii_lower two_page_service ([u "m1"] ++ u "m2" :: [u "m3"]) []
  = recent_loop ascii_lower two_page_service ([u "m1"] ++ [u "m3"]) [].
Proof.
  apply (X12_unreadable_messages_are_skipped ascii_lower two_page_service
           [u "m1"] (u "m2") [u "m3"]).
  left. reflexivity.
Defined.

Lemma recent_contact_keys str_lower service id c :
  recent_contact str_lower service id = Some c ->
  dom c = nine_keys /\ c !! "message_id" = Some id.
Proof.
  unfold recent_contact. destruct (get_message service id) as [| |p];
    try discriminate.
  cbv zeta. destruct (_decode_email_body (fp_payload p)) as [body|];
    [|discriminate].
  intros [= <-]. split.
  - rewrite !dom_insert_L, parse_contact_info_dom.
    unfold nine_keys, field_names. set_solver.
  - apply lookup_insert_eq.
Qed.

(** X13: every contact the recent-mail pass hands to the store is complete.
    Each has exactly the nine keys the insert statement reads, so that no
    default is ever used for it, and its message id is the id under which
    the message was listed. *)
Theorem X13_contacts_are_complete str_lower service messages :
  Forall (fun c => dom c = nine_keys
                   /\ exists id, In id messages /\ c !! "message_id" = Some id)
         (recent_loop str_lower service messages []).
Proof.
  rewrite recent_loop_omap. cbn [app]. apply List.Forall_forall. intros c Hc.
  apply list_elem_of_In, list_elem_of_omap in Hc as (id & Hid & Hc).
  destruct (recent_contact_keys _ _ _ _ Hc) as [Hdom Hmid].
  split; [exact Hdom|]. exists id. split; [|exact Hmid].
  apply list_elem_of_In. exact Hid.
Qed.

Lemma contact_of_email_data str_lower service id email_data :
  email_data_of str_lower service id = Some email_data ->
  recent_contact str_lower service id
  = Some (contact_of_email email_data).
Proof.
  unfold email_data_of, recent_contact.
  destruct (get_message service id) as [| |p]; try discriminate.
  cbv zeta. destruct (_decode_email_body (fp_payload p)) as [body|];
    [|discriminate].
  intros [= <-]. unfold contact_of_email, get_field.
  repeat (rewrite lookup_insert_ne by discriminate).
  rewrite !lookup_insert_eq. cbn [default].
  repeat (rewrite lookup_insert_ne by discriminate).
  rewrite !lookup_insert_eq. cbn [default].
  repeat (rewrite lookup_insert_ne by discriminate).
  rewrite !lookup_insert_eq. cbn [default].
  repeat (rewrite lookup_insert_ne by discriminate).
  rewrite !lookup_insert_eq. cbn [default].
  repeat (rewrite lookup_insert_ne by discriminate).
  rewrite !lookup_insert_eq. cbn [default].
  reflexivity.
Qed.

(** X14: the full import and the recent-mail pass build the same contacts.
    For the same listed messages, the contacts [parse_contact_emails] makes
    of the emails of [get_emails_by_subject] are those the loop of
    [parse_recent_contact_emails] makes, in the same order. *)
Theorem X14_both_passes_agree str_lower service messages :
  List.map contact_of_email (emails_loop str_lower service messages [])
  = recent_loop str_lower service messages [].
Proof.
  rewrite recent_loop_omap, emails_loop_omap. cbn [app].
  induction messages as [|id more IH]; [reflexivity|].
  cbn -[recent_contact email_data_of contact_of_email].
  destruct (email_data_of str_lower service id) as [email_data|] eqn:He.
  - rewrite (contact_of_email_data _ _ _ _ He). cbn. rewrite IH. reflexivity.
  - assert (Hr : recent_contact str_lower service id = None).
    { revert He. unfold email_data_of, recent_contact.
      destruct (get_message service id) as [| |p]; try reflexivity.
      cbv zeta. destruct (_decode_email_body (fp_payload p)); [discriminate|].
      reflexivity. }
    rewrite Hr. exact IH.
Qed.

Lemma decode_no_readable p :
  no_inline_data (pl_body p) = true ->
  forallb passed_over (default [] (pl_parts p)) = true ->
  _decode_email_body p = Ret (u "No readable content found").
Proof.
  intros Hown Hparts. unfold _decode_email_body.
  destruct (pl_body p) as [[[data|]]|]; try discriminate;
    (destruct (pl_parts p) as [ps|]; [|reflexivity]);
    cbn [default] in Hparts;
    rewrite <- (app_nil_r ps), (scan_parts_passed_over _ _ Hparts);
    reflexivity.
Qed.

Lemma decode_rejected p data :
  pl_body p = Some (Body (Some data)) -> decode_data data = None ->
  _decode_email_body p = Ret (u "Error decoding email body").
Proof.
  intros Hbody Hdata. unfold _decode_email_body. rewrite Hbody, Hdata.
  reflexivity.
Qed.

Lemma recent_contact_fields str_lower service id p body :
  get_message service id = Fetched p ->
  _decode_email_body (fp_payload p) = Ret body ->
  exists c, recent_contact str_lower service id = Some c
            /\ forall field, field ∈ field_names ->
                             c !! field = _parse_contact_info body !! field.
Proof.
  intros Hget Hdecode. unfold recent_contact. rewrite Hget. cbv zeta.
  rewrite Hdecode. eexists. split; [reflexivity|].
  intros field Hfield. unfold field_names in Hfield.
  repeat (rewrite lookup_insert_ne by set_solver). reflexivity.
Qed.

Lemma decode_part_rejected p before data after :
  no_inline_data (pl_body p) = true ->
  pl_parts p = Some (before ++ plain_part data :: after) ->
  forallb passed_over before = true ->
  decode_data data = None ->
  _decode_email_body p = Ret (u "Error decoding email part").
Proof.
  intros Hown Hparts Hbefore Hdata. unfold _decode_email_body.
  destruct (pl_body p) as [[[own|]]|]; try discriminate;
    rewrite Hparts, (scan_parts_passed_over _ _ Hbefore);
    cbn [scan_parts plain_part p_mimeType p_body]; unfold str_eqb;
    rewrite bool_decide_eq_true_2 by reflexivity; rewrite Hdata; reflexivity.
Qed.

(** X15: a message without readable text still becomes a contact.  Each of
    the three sentinels of the decoder is parsed like a body and becomes
    the name of the contact, with address, postcode, skills and other
    empty: No readable content found when the payload has no inline data
    and no part the decoder reads, Error decoding email body when its
    inline data is rejected, and Error decoding email part when the data of
    the first text/plain part that carries data is rejected. *)
Theorem X15_sentinel_becomes_the_name str_lower service id p :
  get_message service id = Fetched p ->
  (no_inline_data (pl_body (fp_payload p)) = true ->
   forallb passed_over (default [] (pl_parts (fp_payload p))) = true ->
   exists c, recent_contact str_lower service id = Some c
             /\ c !! "name" = Some (u "No readable content found")
             /\ c !! "address" = Some [] /\ c !! "postcode" = Some []
             /\ c !! "skills" = Some [] /\ c !! "other" = Some [])
  /\ (forall data,
        pl_body (fp_payload p) = Some (Body (Some data)) ->
        decode_data data = None ->
        exists c, recent_contact str_lower service id = Some c
                  /\ c !! "name" = Some (u "Error decoding email body")
                  /\ c !! "address" = Some [] /\ c !! "postcode" = Some []
                  /\ c !! "skills" = Some [] /\ c !! "other" = Some [])
  /\ (forall before data after,
        no_inline_data (pl_body (fp_payload p)) = true ->
        pl_parts (fp_payload p) = Some (before ++ plain_part data :: after) ->
        forallb passed_over before = true ->
        decode_data data = None ->
        exists c, recent_contact str_lower service id = Some c
                  /\ c !! "name" = Some (u "Error decoding email part")
                  /\ c !! "address" = Some [] /\ c !! "postcode" = Some []
                  /\ c !! "skills" = Some [] /\ c !! "other" = Some []).
Proof.
  intros Hget. split; [|split].
  - intros Hown Hparts.
    destruct (recent_contact_fields str_lower service id p _ Hget
                (decode_no_readable _ Hown Hparts)) as (c & Hc & Hfields).
    exists c. split; [exact Hc|].
    repeat split; rewrite Hfields by (unfold field_names; set_solver);
      vm_compute; reflexivity.
  - intros data Hbody Hdata.
    destruct (recent_contact_fields str_lower service id p _ Hget
                (decode_rejected _ _ Hbody Hdata)) as (c & Hc & Hfields).
    exists c. split; [exact Hc|].
    repeat split; rewrite Hfields by (unfold field_names; set_solver);
      vm_compute; reflexivity.
  - intros before data after Hown Hparts Hbefore Hdata.
    destruct (recent_contact_fields str_lower service id p _ Hget
                (decode_part_rejected _ _ _ _ Hown Hparts Hbefore Hdata))
      as (c & Hc & Hfields).
    exists c. split; [exact Hc|].
    repeat split; rewrite Hfields by (unfold field_names; set_solver);
      vm_compute; reflexivity.
Qed.

Lemma X15_sentinel_becomes_the_name_witness :
  let service :=
    GmailService (fun _ _ => None)
      (fun _ => Fetched (FullPayload None (Payload None (Some [empty_plain_part])))) in
  let service' :=
    GmailService (fun _ _ => None)
      (fun _ => Fetched (FullPayload None
                           (Payload None
                              (Some ([empty_plain_part]
                                       ++ plain_part (u "a" ++ 233%N :: u "Gk=")
                                       :: []))))) in
  (exists c, recent_contact ascii_lower service (u "m1") = Some c
             /\ c !! "name" = Some (u "No readable content found"))
  /\ (exists c, recent_contact ascii_lower service' (u "m1") = Some c
                /\ c !! "name" = Some (u "Error decoding email part")).
Proof.
  cbv zeta. split.
  - destruct (X15_sentinel_becomes_the_name ascii_lower
                (GmailService (fun _ _ => None)
                   (fun _ => Fetched (FullPayload None
                                        (Payload None (Some [empty_plain_part])))))
                (u "m1") _ eq_refl) as [H _].
    destruct (H eq_refl eq_refl) as (c & Hc & Hname & _).
    exists c. split; assumption.
  - destruct (X15_sentinel_becomes_the_name ascii_lower
                (GmailService (fun _ _ => None)
                   (fun _ => Fetched (FullPayload None
                      (Payload None
                         (Some ([empty_plain_part]
                                  ++ plain_part (u "a" ++ 233%N :: u "Gk=")
                                  :: []))))))
                (u "m1") _ eq_refl) as (_ & _ & H).
    destruct (H [empty_plain_part] (u "a" ++ 233%N :: u "Gk=") []
                eq_refl eq_refl eq_refl)
      as (c & Hc & Hname & _); [vm_compute; reflexivity|].
    exists c. split; assumption.
Defined.

Lemma extract_header_absent str_lower name headers :
  header_absent str_lower name headers ->
  _extract_header_value str_lower headers name = u "Unknown".
Proof.
  induction 1 as [|h headers Hh _ IH]; [reflexivity|]. cbn.
  unfold str_eqb. rewrite bool_decide_eq_false_2 by exact Hh. exact IH.
Qed.

Lemma extract_email_address_unknown str_lower :
  _extract_email_address str_lower (u "Unknown") = u "Unknown".
Proof.
  rewrite extract_email_address_nonempty by discriminate.
  replace (re_search no_flags email_pattern (u "Unknown")) with (@None match_obj)
    by (vm_compute; reflexivity).
  reflexivity.
Qed.

(** X16: missing headers give Unknown, not a failure.  For a message that
    is read, a missing From header makes the sender of the contact Unknown,
    the sentinel passing through the address extraction unchanged; a
    missing Date or Subject header makes the date or the subject
    Unknown. *)
Theorem X16_missing_headers_give_unknown str_lower service id p c :
  get_message service id = Fetched p ->
  recent_contact str_lower service id = Some c ->
  (header_absent str_lower (u "From") (default [] (fp_headers p)) ->
   c !! "email_sender" = Some (u "Unknown"))
  /\ (header_absent str_lower (u "Date") (default [] (fp_headers p)) ->
      c !! "email_date" = Some (u "Unknown"))
  /\ (header_absent str_lower (u "Subject") (default [] (fp_headers p)) ->
      c !! "email_subject" = Some (u "Unknown")).
Proof.
  intros Hget. unfold recent_contact. rewrite Hget. cbv zeta.
  destruct (_decode_email_body (fp_payload p)) as [body|]; [|discriminate].
  intros [= <-]. repeat split; intros Habsent;
    rewrite (extract_header_absent _ _ _ Habsent);
    repeat (rewrite lookup_insert_ne by discriminate);
    rewrite lookup_insert_eq; rewrite ?extract_email_address_unknown;
    reflexivity.
Qed.

Lemma X16_missing_headers_give_unknown_witness :
  recent_contact ascii_lower headerless_service (u "m1")
    = Some headerless_contact
  /\ headerless_contact !! "email_sender" = Some (u "Unknown").
Proof.
  assert (Hc : recent_contact ascii_lower headerless_service (u "m1")
               = Some headerless_contact) by (vm_compute; reflexivity).
  split; [exact Hc|].
  apply (X16_missing_headers_give_unknown ascii_lower headerless_service
           (u "m1") (FullPayload None (inline (u "aGk=") None))
           headerless_contact eq_refl Hc).
  constructor.
Defined.

Lemma list_all_breaks service q n : forall page_token,
  breaks service q page_token n ->
  forall fuel all_messages,
    n < fuel -> list_all service fuel q page_token all_messages = Some None.
Proof.
  induction 1 as [page_token Hpage
                 |page_token messages c token n Hpage Hrest IH];
    intros fuel all_messages Hfuel;
    (destruct fuel as [|fuel]; [lia|]); cbn [list_all]; rewrite Hpage.
  - reflexivity.
  - apply IH. lia.
Qed.

(** X17: a failure on any page of the listing loses the whole import.  When
    the listing raises after some pages were read, [get_emails_by_subject]
    returns the empty list: the messages of the pages already read are
    dropped with the rest. *)
Theorem X17_a_failing_page_empties_the_import str_lower service subject_filter
    n fuel :
  breaks service (BySubject subject_filter) None n ->
  n < fuel ->
  get_emails_by_subject str_lower service fuel true subject_filter = Some []
  /\ parse_contact_emails str_lower service fuel true subject_filter = Some [].
Proof.
  intros Hbreaks Hfuel.
  assert (Hget : get_emails_by_subject str_lower service fuel true subject_filter
                 = Some []).
  { unfold get_emails_by_subject.
    rewrite (list_all_breaks _ _ _ _ Hbreaks fuel [] Hfuel). reflexivity. }
  split; [exact Hget|].
  unfold parse_contact_emails. rewrite Hget. reflexivity.
Qed.

Lemma X17_a_failing_page_empties_the_import_witness :
  get_emails_by_subject ascii_lower broken_service 5 true
    (u "Subject Application") = Some [].
Proof.
  apply (X17_a_failing_page_empties_the_import ascii_lower broken_service
           (u "Subject Application") 1 5).
  - eapply breaks_later; [reflexivity|]. apply breaks_now. reflexivity.
  - lia.
Defined.

(** ** The import routes *)

Lemma insert_loop_bound fault clock contacts : forall i t n,
  match insert_loop fault clock i contacts t n with
  | Completed _ n' | Raised n' => n' <= n + length contacts
  end.
Proof.
  induction contacts as [|c more IH]; intros i t n; cbn -[insert_or_ignore].
  - lia.
  - destruct (fault i); [lia|].
    destruct (insert_or_ignore (clock i) c t) as [t1 rc].
    specialize (IH (S i) t1 (if 0 <? rc then S n else n)).
    destruct (insert_loop fault clock (S i) more t1 _);
      destruct (0 <? rc); lia.
Qed.

Lemma saved_le_length fault clock contacts db :
  saved (save_contacts_to_database fault clock contacts db) <= length contacts.
Proof.
  unfold save_contacts_to_database.
  replace (create_contacts_database db) with (Some (the_table db))
    by (destruct db; reflexivity).
  pose proof (insert_loop_bound fault clock contacts 0 (the_table db) 0) as H.
  destruct (insert_loop fault clock 0 contacts (the_table db) 0); cbn; lia.
Qed.

Lemma save_twice clock1 clock2 contacts db :
  save_contacts_to_database no_fault clock2 contacts
    (db_after (save_contacts_to_database no_fault clock1 contacts db))
  = SaveResult 0
      (db_after (save_contacts_to_database no_fault clock1 contacts db)) [].
Proof.
  destruct (save_no_fault clock1 contacts db) as (t1 & n1 & Hloop1 & ->).
  cbn [db_after].
  destruct (save_no_fault clock2 contacts (Some t1)) as (t2 & n2 & Hloop2 & ->).
  cbn [the_table] in Hloop2.
  rewrite insert_loop_all_known in Hloop2.
  - injection Hloop2 as <- <-. reflexivity.
  - reflexivity.
  - intros c Hc. apply (insert_loop_ids _ _ _ _ _ _ _ Hloop1). right.
    apply in_map. exact Hc.
Qed.

(** X18: the import route can be run again.  When the mailbox yields a list
    of contacts, [process_once] answers success with a processed count that
    never exceeds the number found, whether or not the store faults; and
    after an import without fault, a second import of the same mailbox
    answers processed 0 with the same number found and leaves the rows of
    the table as the first left them.  When the reader cannot be constructed
    the route answers an error and leaves the database alone. *)
Theorem X18_import_can_be_repeated str_lower service fuel contacts :
  parse_contact_emails str_lower service fuel true (u "Subject Application")
    = Some contacts ->
  (forall fault clock db,
      exists processed db1,
        process_once str_lower (Some service) fuel fault clock db
          = Some (Success processed (length contacts), db1)
        /\ processed <= length contacts)
  /\ (forall clock1 clock2 db,
        exists processed db1 db2,
          process_once str_lower (Some service) fuel no_fault clock1 db
            = Some (Success processed (length contacts), db1)
          /\ process_once str_lower (Some service) fuel no_fault clock2 db1
             = Some (Success 0 (length contacts), db2)
          /\ t_rows (the_table db2) = t_rows (the_table db1))
  /\ (forall fault clock db,
        process_once str_lower None fuel fault clock db
        = Some (ErrorResponse, db)).
Proof.
  intros Hparse. split; [|split].
  - intros fault clock db. unfold process_once. rewrite Hparse.
    destruct contacts as [|c more].
    + exists 0, db. split; [reflexivity | cbn; lia].
    + eexists _, _. split; [reflexivity|]. apply saved_le_length.
  - intros clock1 clock2 db. unfold process_once. rewrite Hparse.
    destruct contacts as [|c more].
    + exists 0, db, db. repeat split; reflexivity.
    + eexists _, _, _. split; [reflexivity|]. cbv zeta.
      rewrite save_twice. split; reflexivity.
  - reflexivity.
Qed.

Lemma X18_import_can_be_repeated_witness :
  exists processed db1 db2,
    process_once ascii_lower (Some two_page_service) 2 no_fault (fun _ => 0%N) None
      = Some (Success processed 1, db1)
    /\ process_once ascii_lower (Some two_page_service) 2 no_fault
         (fun _ => 9%N) db1
       = Some (Success 0 1, db2)
    /\ t_rows (the_table db2) = t_rows (the_table db1).
Proof.
  assert (Hparse : parse_contact_emails ascii_lower two_page_service 2 true
                     (u "Subject Application")
                   = Some (default [] (parse_contact_emails ascii_lower
                                         two_page_service 2 true
                                         (u "Subject Application"))))
    by (vm_compute; reflexivity).
  destruct (proj1 (proj2 (X18_import_can_be_repeated ascii_lower
                            two_page_service 2 _ Hparse))
              (fun _ => 0%N) (fun _ => 9%N) None)
    as (processed & db1 & db2 & H1 & H2 & H3).
  exists processed, db1, db2.
  replace (length (default [] (parse_contact_emails ascii_lower
                                 two_page_service 2 true
                                 (u "Subject Application"))))
    with 1 in H1, H2 by (vm_compute; reflexivity).
  repeat split; assumption.
Defined.

(** ** The extractor *)

Lemma lstrip_blank_prefix (pre s : list N) :
  forallb isspace pre = true -> lstrip (pre ++ s) = lstrip s.
Proof.
  induction pre as [|c pre IH]; intros Hpre; [reflexivity|].
  cbn in Hpre. apply andb_true_iff in Hpre as [Hc Hpre].
  cbn. rewrite Hc. apply IH, Hpre.
Qed.

Lemma lstrip_blank (s : list N) : forallb isspace s = true -> lstrip s = [].
Proof.
  intros Hs. rewrite <- (app_nil_r s). rewrite lstrip_blank_prefix by exact Hs.
  reflexivity.
Qed.

Lemma lstrip_nil_blank (s : list N) : lstrip s = [] -> forallb isspace s = true.
Proof.
  induction s as [|c s IH]; [reflexivity|]. cbn.
  destruct (isspace c); [exact IH | discriminate].
Qed.

Lemma lstrip_app_cons (s : list N) c t (post : list N) :
  lstrip s = c :: t -> lstrip (s ++ post) = (c :: t) ++ post.
Proof.
  induction s as [|d s IH]; cbn; [discriminate|].
  destruct (isspace d); [exact IH|].
  intros [= <- <-]. reflexivity.
Qed.

Lemma rstrip_blank_suffix (s post : list N) :
  forallb isspace post = true -> rstrip (s ++ post) = rstrip s.
Proof.
  intros Hpost. unfold rstrip. rewrite rev_app_distr.
  rewrite lstrip_blank_prefix; [reflexivity|].
  rewrite forallb_forall in *. intros x Hx. apply Hpost.
  apply in_rev. exact Hx.
Qed.

Lemma strip_blank_ends (pre s post : list N) :
  forallb isspace pre = true -> forallb isspace post = true ->
  strip (pre ++ s ++ post) = strip s.
Proof.
  intros Hpre Hpost. unfold strip. rewrite lstrip_blank_prefix by exact Hpre.
  destruct (lstrip s) as [|c t] eqn:Hs.
  - rewrite lstrip_blank; [reflexivity|].
    rewrite forallb_app. apply andb_true_iff.
    split; [apply lstrip_nil_blank, Hs | exact Hpost].
  - rewrite (lstrip_app_cons _ _ _ post Hs).
    apply rstrip_blank_suffix, Hpost.
Qed.

(** X19: white space around the body does not matter.  Blank characters,
    line ends included, put before or after a body do not change what
    [_parse_contact_info] returns, and the stripped body parses as the
    body. *)
Theorem X19_surrounding_blanks_do_not_matter (pre body post : list N) :
  forallb isspace pre = true -> forallb isspace post = true ->
  _parse_contact_info (pre ++ body ++ post) = _parse_contact_info body
  /\ _parse_contact_info (strip body) = _parse_contact_info body.
Proof.
  intros Hpre Hpost. unfold _parse_contact_info, cleaned.
  rewrite strip_blank_ends by assumption. rewrite strip_idem.
  split; reflexivity.
Qed.

Lemma X19_surrounding_blanks_do_not_matter_witness :
  _parse_contact_info ([LF; 32%N] ++ u "Name: Bob" ++ [CR; LF])
  = _parse_contact_info (u "Name: Bob").
Proof.
  apply (X19_surrounding_blanks_do_not_matter [LF; 32%N] (u "Name: Bob") [CR; LF]);
    reflexivity.
Defined.

(** *** The three clean-up statements *)

Lemma rep_greedy_blanks g : forall (s : list N) pv p,
  exists pv',
    rep isspace true 0 None Some pv p g s
    = Some (MState pv' (p + blanks s) (drop (blanks s) s) g).
Proof.
  induction s as [|c s IH]; intros pv p; cbn [rep blanks].
  - exists pv. cbn. rewrite Nat.add_0_r. reflexivity.
  - destruct (isspace c) eqn:Hc; cbn [andb allows dec_hi].
    + destruct (IH (Some c) (S p)) as [pv' ->]. exists pv'.
      cbn [length drop]. rewrite Nat.add_succ_r. reflexivity.
    + exists pv. cbn. rewrite Nat.add_0_r. reflexivity.
Qed.

Lemma drop_blanks (s : list N) : drop (blanks s) s = lstrip s.
Proof.
  induction s as [|c s IH]; [reflexivity|]. cbn.
  destruct (isspace c); [exact IH | reflexivity].
Qed.

Lemma run_plus_space k m :
  run no_flags (plus Space) k m
  = match rest m with
    | c :: t =>
        if isspace c
        then rep isspace true 0 None k (Some c) (S (pos m)) (grp m) t
        else None
    | [] => None
    end.
Proof.
  destruct m as [pv p [|c t] g]; [reflexivity|].
  cbn [rest pos grp]. destruct (isspace c) eqn:Hc.
  - cbn [plus run rest pos grp prev rep atom_match]. rewrite Hc. reflexivity.
  - cbn [plus run rest pos grp prev rep atom_match]. rewrite Hc. reflexivity.
Qed.

Lemma run_star_space k m :
  run no_flags (star Space) k m
  = rep isspace true 0 None k (prev m) (pos m) (grp m) (rest m).
Proof. reflexivity. Qed.

Lemma run_space_run pv p c (t : list N) :
  run no_flags space_run Some (MState pv p (c :: t) None)
  = if isspace c
    then Some (MState (prev_after (Some c) (take (blanks t) t))
                      (S p + blanks t) (drop (blanks t) t) None)
    else None.
Proof.
  unfold space_run. rewrite run_plus_space. cbn [rest pos grp].
  destruct (isspace c); [|reflexivity].
  generalize (Some c) (S p). clear.
  induction t as [|c t IH]; intros pv p; cbn [rep blanks].
  - cbn. rewrite Nat.add_0_r. reflexivity.
  - destruct (isspace c) eqn:Hc; cbn [andb allows dec_hi].
    + rewrite IH. cbn [take drop]. unfold prev_after. cbn [foldl].
      rewrite Nat.add_succ_r. reflexivity.
    + cbn. rewrite Nat.add_0_r. reflexivity.
Qed.

(** The substitution of [\s+] is [collapse]. *)
Lemma sub_space_run : forall (s : list N) skip pv p,
  sub_from no_flags space_run (u " ") skip pv p s = collapse skip s.
Proof.
  induction s as [|c s IH]; intros skip pv p; [reflexivity|].
  cbn [sub_from collapse]. destruct skip as [|n]; [|apply IH].
  rewrite run_space_run. destruct (isspace c) eqn:Hc.
  - cbn [pos]. replace (S p + blanks s - p) with (S (blanks s)) by lia.
    rewrite IH. reflexivity.
  - rewrite IH. reflexivity.
Qed.

Lemma re_sub_space_run (s : list N) :
  re_sub no_flags space_run (u " ") s = collapse 0 s.
Proof. apply sub_space_run. Qed.

Lemma collapse_blanks (t : list N) : collapse (blanks t) t = collapse 0 (lstrip t).
Proof.
  induction t as [|c t IH]; [reflexivity|]. cbn [blanks lstrip].
  destruct (isspace c) eqn:Hc; [exact IH|]. reflexivity.
Qed.

Lemma collapse_cons c (t : list N) :
  collapse 0 (c :: t)
  = if isspace c then 32%N :: collapse 0 (lstrip t) else c :: collapse 0 t.
Proof. cbn [collapse]. rewrite collapse_blanks. reflexivity. Qed.

Lemma lstrip_length (s : list N) : length (lstrip s) <= length s.
Proof.
  induction s as [|c s IH]; [reflexivity|]. cbn.
  destruct (isspace c); cbn; lia.
Qed.

Lemma lstrip_first_ok (s : list N) : first_ok (lstrip s) = true.
Proof.
  destruct (lstrip s) as [|c t] eqn:Hs; [reflexivity|].
  cbn. rewrite (lstrip_head _ _ _ Hs). reflexivity.
Qed.

Lemma collapse_first_ok (s : list N) :
  first_ok s = true -> first_ok (collapse 0 s) = true.
Proof.
  destruct s as [|c t]; [reflexivity|]. rewrite collapse_cons. cbn [first_ok].
  destruct (isspace c) eqn:Hc; [discriminate|].
  intros _. cbn [first_ok]. rewrite Hc. reflexivity.
Qed.

Lemma collapse_single_spaced : forall n (s : list N),
  length s <= n -> single_spaced (collapse 0 s) = true.
Proof.
  induction n as [|n IH]; intros [|c t] Hlen; try reflexivity; cbn in Hlen;
    [lia|].
  rewrite collapse_cons. destruct (isspace c) eqn:Hc.
  - pose proof (lstrip_length t) as Hl.
    pose proof (collapse_first_ok _ (lstrip_first_ok t)) as Hfirst.
    cbn [single_spaced]. rewrite (IH (lstrip t)) by lia.
    change (isspace 32%N) with true. cbn [N.eqb Pos.eqb andb].
    unfold first_ok in Hfirst.
    destruct (collapse 0 (lstrip t)); [reflexivity|].
    rewrite Hfirst. reflexivity.
  - cbn [single_spaced]. rewrite Hc. rewrite (IH t) by lia. reflexivity.
Qed.

Lemma last_ok_cons c (t : list N) :
  last_ok (c :: t) = match t with [] => negb (isspace c) | _ => last_ok t end.
Proof.
  unfold last_ok. cbn [rev]. destruct t as [|d t]; [reflexivity|].
  destruct (rev (d :: t)) as [|e r] eqn:Hr; [|reflexivity].
  apply (f_equal (@length N)) in Hr. rewrite length_rev in Hr. discriminate.
Qed.

Lemma last_ok_lstrip (s : list N) : last_ok s = true -> last_ok (lstrip s) = true.
Proof.
  induction s as [|c t IH]; [reflexivity|]. intros Hs. cbn [lstrip].
  destruct (isspace c) eqn:Hc; [|exact Hs].
  rewrite last_ok_cons in Hs. destruct t as [|d t]; [reflexivity|].
  apply IH, Hs.
Qed.

Lemma lstrip_nonempty_last (s : list N) :
  s <> [] -> last_ok s = true -> lstrip s <> [].
Proof.
  induction s as [|c t IH]; [congruence|]. intros _ Hs. cbn [lstrip].
  destruct (isspace c) eqn:Hc; [|discriminate].
  rewrite last_ok_cons in Hs. destruct t as [|d t].
  - rewrite Hc in Hs. discriminate.
  - apply IH; [discriminate | exact Hs].
Qed.

Lemma collapse_nonempty (s : list N) : s <> [] -> collapse 0 s <> [].
Proof.
  destruct s as [|c t]; [congruence|]. intros _. rewrite collapse_cons.
  destruct (isspace c); discriminate.
Qed.

Lemma collapse_last_ok : forall n (s : list N),
  length s <= n -> last_ok s = true -> last_ok (collapse 0 s) = true.
Proof.
  induction n as [|n IH]; intros [|c t] Hlen Hs; try reflexivity; cbn in Hlen;
    [lia|].
  rewrite collapse_cons. rewrite last_ok_cons in Hs.
  destruct (isspace c) eqn:Hc.
  - destruct t as [|d t]; [discriminate|].
    pose proof (lstrip_length (d :: t)) as Hl. cbn [length] in Hl, Hlen.
    pose proof (lstrip_nonempty_last (d :: t) ltac:(discriminate) Hs) as Hne.
    rewrite last_ok_cons.
    destruct (collapse 0 (lstrip (d :: t))) eqn:Hcol.
    + exfalso. exact (collapse_nonempty _ Hne Hcol).
    + rewrite <- Hcol. apply IH; [cbn [length]; lia|].
      apply last_ok_lstrip, Hs.
  - rewrite last_ok_cons. destruct t as [|d t]; [cbn; rewrite Hc; reflexivity|].
    destruct (collapse 0 (d :: t)) eqn:Hcol.
    + exfalso. exact (collapse_nonempty (d :: t) ltac:(discriminate) Hcol).
    + rewrite <- Hcol. apply IH; [cbn [length] in *; lia | exact Hs].
Qed.

Lemma strip_ok (s : list N) :
  first_ok s = true -> last_ok s = true -> strip s = s.
Proof.
  intros Hfirst Hlast. unfold strip.
  assert (Hl : lstrip s = s).
  { destruct s as [|c t]; [reflexivity|]. cbn in *.
    destruct (isspace c); [discriminate | reflexivity]. }
  rewrite Hl. unfold rstrip. unfold last_ok in Hlast.
  destruct (rev s) as [|c r] eqn:Hr.
  - cbn. destruct s as [|d s]; [reflexivity|].
    apply (f_equal (@length N)) in Hr. rewrite length_rev in Hr. discriminate.
  - cbn in Hlast. cbn [lstrip].
    destruct (isspace c); [discriminate|].
    rewrite <- Hr. apply rev_involutive.
Qed.

Lemma strip_first_ok (s : list N) : first_ok (strip s) = true.
Proof.
  destruct (strip s) as [|c t] eqn:Hs; [reflexivity|].
  pose proof (strip_idem s) as Hidem. rewrite Hs in Hidem.
  unfold strip in Hidem at 1. cbn [lstrip first_ok] in *.
  destruct (isspace c) eqn:Hc; [|reflexivity].
  exfalso.
  pose proof (lstrip_length t) as Hl.
  destruct (rstrip_prefix (lstrip t)) as [r Hr].
  apply (f_equal (@length N)) in Hr. rewrite Hidem, length_app in Hr.
  cbn [length] in Hr. lia.
Qed.

Lemma strip_last_ok (s : list N) : last_ok (strip s) = true.
Proof.
  unfold last_ok. destruct (rev (strip s)) as [|c r] eqn:Hr; [reflexivity|].
  cbn. rewrite (strip_last s (rev r) c); [reflexivity|].
  rewrite <- (rev_involutive (strip s)), Hr. reflexivity.
Qed.

Lemma sub_colon_skip : forall (s : list N) n pv p,
  sub_from no_flags colon_remnant [] n pv (S p) s = drop n s.
Proof.
  induction s as [|c s IH]; intros n pv p; [destruct n; reflexivity|].
  destruct n as [|n]; [apply sub_colon_later|].
  cbn [sub_from drop]. apply IH.
Qed.

(** The substitution of [^:\s*] drops a leading colon and the white space
    after it, and nothing else. *)
Lemma sub_colon (s : list N) :
  re_sub no_flags colon_remnant [] s
  = match s with
    | c :: t => if (c =? ch ":")%N then lstrip t else s
    | [] => []
    end.
Proof.
  destruct s as [|c t]; [reflexivity|].
  destruct (c =? ch ":")%N eqn:Hc; [|apply sub_colon_id; exact Hc].
  unfold re_sub. cbn [sub_from].
  unfold colon_remnant at 1. cbn [cat]. rewrite !run_cat.
  cbn [run at_bol pos rest prev grp atom_match IGNORECASE no_flags].
  rewrite Hc. rewrite run_star_space. cbn [rest prev pos grp].
  destruct (rep_greedy_blanks None t (Some c) 1) as [pv' ->].
  cbn [pos]. cbn [Nat.add Nat.sub app].
  rewrite sub_colon_skip. apply drop_blanks.
Qed.

Lemma clean_value_tidy captured :
  single_spaced (clean_value captured) = true
  /\ strip (clean_value captured) = clean_value captured.
Proof.
  unfold clean_value. cbv zeta. rewrite re_sub_space_run.
  set (value := re_sub no_flags colon_remnant [] (strip captured)).
  assert (Hvalue : first_ok value = true /\ last_ok value = true).
  { subst value. rewrite sub_colon.
    pose proof (strip_first_ok captured) as Hf.
    pose proof (strip_last_ok captured) as Hl.
    destruct (strip captured) as [|c t]; [split; reflexivity|].
    destruct (c =? ch ":")%N; [|split; assumption].
    split; [apply lstrip_first_ok|].
    apply last_ok_lstrip. rewrite last_ok_cons in Hl.
    destruct t; [reflexivity | exact Hl]. }
  destruct Hvalue as [Hf Hl]. split.
  - apply (collapse_single_spaced (length value)). reflexivity.
  - apply strip_ok; [apply collapse_first_ok, Hf|].
    apply (collapse_last_ok (length value)); [reflexivity | exact Hl].
Qed.

Lemma first_match_clean body : forall pattern_list v,
  first_match body pattern_list = Some v ->
  exists captured, v = clean_value captured.
Proof.
  induction pattern_list as [|p ps IH]; intros v; cbn [first_match];
    [discriminate|].
  destruct (re_search parse_flags p body) as [m|]; [|apply IH].
  intros [= <-]. eauto.
Qed.

Lemma parse_contact_info_value email_body field v :
  _parse_contact_info email_body !! field = Some v ->
  v = [] \/ exists captured, v = clean_value captured.
Proof.
  intros Hv.
  assert (Hin : field ∈ field_names).
  { rewrite <- (parse_contact_info_dom email_body). apply elem_of_dom. eauto. }
  assert (Hpat : exists pattern_list, In (field, pattern_list) patterns).
  { unfold field_names in Hin. unfold patterns.
    set_unfold in Hin. destruct_or!; subst field; eexists; cbn; eauto 6. }
  destruct Hpat as [pattern_list Hpat].
  rewrite (parse_contact_info_lookup _ _ _ Hpat) in Hv. injection Hv as <-.
  destruct (first_match (cleaned email_body) pattern_list) as [v|] eqn:Hfm;
    [|left; reflexivity].
  right. apply (first_match_clean _ _ _ Hfm).
Qed.

(** X20: extracted values are tidy.  Every value [_parse_contact_info]
    returns, for any body whatever, has no white space at either end, and
    its only white-space characters are single U+0020 spaces, never two in
    a row: no value holds a line break or a tab. *)
Theorem X20_values_are_tidy email_body field v :
  _parse_contact_info email_body !! field = Some v ->
  single_spaced v = true /\ strip v = v.
Proof.
  intros Hv.
  destruct (parse_contact_info_value _ _ _ Hv) as [-> | [captured ->]].
  - split; reflexivity.
  - apply clean_value_tidy.
Qed.

Lemma X20_values_are_tidy_witness :
  single_spaced (u "Bob Stone") = true /\ strip (u "Bob Stone") = u "Bob Stone".
Proof.
  apply (X20_values_are_tidy
           (u "Name: :" ++ [9%N] ++ u "Bob" ++ [9%N; 32%N] ++ u "Stone")
           "name").
  vm_compute. reflexivity.
Defined.

(** *** Line ends *)

Lemma to_crlf_cons c (t : list N) :
  to_crlf (c :: t) = (if (c =? LF)%N then [CR; LF] else [c]) ++ to_crlf t.
Proof. reflexivity. Qed.

Lemma to_crlf_app (s t : list N) : to_crlf (s ++ t) = to_crlf s ++ to_crlf t.
Proof. unfold to_crlf. apply flat_map_app. Qed.

Lemma lstrip_to_crlf (s : list N) : lstrip (to_crlf s) = to_crlf (lstrip s).
Proof.
  induction s as [|c t IH]; [reflexivity|]. rewrite to_crlf_cons.
  destruct (c =? LF)%N eqn:Hc.
  - apply N.eqb_eq in Hc. subst c. cbn [app lstrip].
    change (isspace CR) with true. change (isspace LF) with true.
    cbn iota. exact IH.
  - cbn [app lstrip]. destruct (isspace c); [exact IH|].
    rewrite to_crlf_cons, Hc. reflexivity.
Qed.

Lemma rstrip_snoc (s : list N) c :
  rstrip (s ++ [c]) = if isspace c then rstrip s else s ++ [c].
Proof.
  unfold rstrip. rewrite rev_app_distr. cbn [rev app lstrip].
  destruct (isspace c); [reflexivity|].
  cbn [rev]. rewrite rev_involutive. reflexivity.
Qed.

Lemma rstrip_to_crlf (s : list N) : rstrip (to_crlf s) = to_crlf (rstrip s).
Proof.
  induction s as [|c s IH] using rev_ind; [reflexivity|].
  rewrite to_crlf_app, rstrip_snoc. cbn [to_crlf flat_map]. rewrite app_nil_r.
  destruct (c =? LF)%N eqn:Hc.
  - apply N.eqb_eq in Hc. subst c. change (isspace LF) with true. cbn iota.
    change [CR; LF] with ([CR] ++ [LF]). rewrite app_assoc.
    rewrite rstrip_snoc. change (isspace LF) with true. cbn iota.
    rewrite rstrip_snoc. change (isspace CR) with true. cbn iota. exact IH.
  - rewrite rstrip_snoc. destruct (isspace c); [exact IH|].
    rewrite to_crlf_app. cbn [to_crlf flat_map]. rewrite Hc, app_nil_r.
    reflexivity.
Qed.

Lemma strip_to_crlf (s : list N) : strip (to_crlf s) = to_crlf (strip s).
Proof. unfold strip. rewrite lstrip_to_crlf, rstrip_to_crlf. reflexivity. Qed.

Lemma run_crlf_head pv p c (t : list N) :
  (c =? CR)%N = false ->
  run no_flags crlf Some (MState pv p (c :: t) None) = None.
Proof.
  intros Hc. unfold crlf. rewrite run_cat.
  cbn [run rest atom_match IGNORECASE no_flags]. rewrite Hc. reflexivity.
Qed.

(** The substitution of [\r\n] undoes [to_crlf]. *)
Lemma sub_crlf_to_crlf : forall (s : list N) pv p,
  has_CR s = false ->
  sub_from no_flags crlf [LF] 0 pv p (to_crlf s) = s.
Proof.
  induction s as [|c s IH]; intros pv p Hs; [reflexivity|].
  cbn [has_CR existsb] in Hs. apply orb_false_iff in Hs as [Hc Hs].
  rewrite to_crlf_cons. destruct (c =? LF)%N eqn:Hlf.
  - apply N.eqb_eq in Hlf. subst c. cbn [app sub_from].
    unfold crlf at 1. rewrite run_cat.
    cbn [run rest pos prev grp atom_match IGNORECASE no_flags].
    rewrite !N.eqb_refl. cbn [pos].
    replace (S (S p) - p) with 2 by lia.
    cbn [app]. f_equal. apply IH. exact Hs.
  - cbn [app sub_from]. rewrite run_crlf_head by exact Hc.
    f_equal. apply IH. exact Hs.
Qed.

Lemma sub_crlf_id : forall (s : list N) pv p,
  has_CR s = false -> sub_from no_flags crlf [LF] 0 pv p s = s.
Proof.
  induction s as [|c s IH]; intros pv p Hs; [reflexivity|].
  cbn [has_CR existsb] in Hs. apply orb_false_iff in Hs as [Hc Hs].
  cbn [sub_from]. rewrite run_crlf_head by exact Hc.
  f_equal. apply IH. exact Hs.
Qed.

Lemma has_CR_strip (s : list N) : has_CR s = false -> has_CR (strip s) = false.
Proof.
  intros Hs. destruct (strip_infix s) as (l & r & Hlr).
  rewrite Hlr in Hs. unfold has_CR in *.
  rewrite !existsb_app in Hs.
  apply orb_false_iff in Hs as [_ Hs]. apply orb_false_iff in Hs as [Hs _].
  exact Hs.
Qed.

(** X21: the line ends of the sender's mail client do not matter.  A body
    without carriage returns and the same body with a carriage return put
    before every line feed give the same result. *)
Theorem X21_line_ends_do_not_matter (email_body : list N) :
  has_CR email_body = false ->
  _parse_contact_info (to_crlf email_body) = _parse_contact_info email_body.
Proof.
  intros Hcr. unfold _parse_contact_info.
  assert (Hclean : cleaned (to_crlf email_body) = cleaned email_body).
  { unfold cleaned, re_sub. rewrite strip_to_crlf.
    rewrite sub_crlf_to_crlf by (apply has_CR_strip, Hcr).
    rewrite sub_crlf_id by (apply has_CR_strip, Hcr). reflexivity. }
  rewrite Hclean. reflexivity.
Qed.

Lemma X21_line_ends_do_not_matter_witness :
  _parse_contact_info (to_crlf jane_body) = _parse_contact_info jane_body.
Proof. apply (X21_line_ends_do_not_matter jane_body). reflexivity. Defined.

(** ** Sender addresses *)

(** What a repeated atom hands to the rest of the pattern: it has taken at
    least [lo] characters, all of which pass the atom's test. *)
Lemma rep_sound test greedy k g res : forall s lo hi pv p,
  rep test greedy lo hi k pv p g s = Some res ->
  exists w s' pv',
    s = w ++ s' /\ forallb test w = true /\ lo <= length w
    /\ k (MState pv' (p + length w) s' g) = Some res.
Proof.
  assert (Hstop : forall s pv p,
    k (MState pv p s g) = Some res ->
    exists w s' pv',
      s = w ++ s' /\ forallb test w = true /\ 0 <= length w
      /\ k (MState pv' (p + length w) s' g) = Some res).
  { intros s pv p Hk. exists [], s, pv. cbn. rewrite Nat.add_0_r.
    repeat split; [lia | exact Hk]. }
  induction s as [|c t IH]; intros lo hi pv p H.
  - destruct lo as [|lo]; [|discriminate]. apply (Hstop [] pv p).
    cbn in H. destruct greedy; [exact H|].
    destruct (k (MState pv p [] g)); [exact H | discriminate].
  - assert (Hmore : forall lo',
      (if test c && allows hi
       then rep test greedy lo' (dec_hi hi) k (Some c) (S p) g t
       else None) = Some res ->
      exists w s' pv',
        c :: t = w ++ s' /\ forallb test w = true /\ S lo' <= length w
        /\ k (MState pv' (p + length w) s' g) = Some res).
    { intros lo' Hin. destruct (test c) eqn:Hc; [|discriminate].
      destruct (allows hi); [|discriminate]. cbn [andb] in Hin.
      destruct (IH _ _ _ _ Hin) as (w & s' & pv' & -> & Hw & Hlen & Hk).
      exists (c :: w), s', pv'. cbn [forallb length app]. rewrite Hc, Hw.
      rewrite Nat.add_succ_r. repeat split; [lia | exact Hk]. }
    destruct lo as [|lo]; [|apply Hmore; exact H].
    cbn [rep] in H. destruct greedy.
    + destruct (if test c && allows hi
                then rep test true 0 (dec_hi hi) k (Some c) (S p) g t
                else None) as [m|] eqn:Hin.
      * injection H as ->.
        destruct (Hmore 0 Hin) as (w & s' & pv' & Hs & Hw & Hlen & Hk).
        exists w, s', pv'. repeat split; [exact Hs | exact Hw | lia | exact Hk].
      * apply (Hstop (c :: t) pv p H).
    + destruct (k (MState pv p (c :: t) g)) as [m|] eqn:Hk.
      * injection H as ->. apply (Hstop (c :: t) pv p Hk).
      * destruct (Hmore 0 H) as (w & s' & pv' & Hs & Hw & Hlen & Hk').
        exists w, s', pv'. repeat split; [exact Hs | exact Hw | lia | exact Hk'].
Qed.

(** Where [re.search] finds its match. *)
Lemma scan_sound f r : forall s pv p mo,
  scan f r pv p s = Some mo ->
  exists pre s' pv' m,
    s = pre ++ s' /\ m_start mo = p + length pre
    /\ run f r Some (MState pv' (m_start mo) s' None) = Some m
    /\ m_end mo = pos m.
Proof.
  assert (Hhere : forall s pv p m,
    run f r Some (MState pv p s None) = Some m ->
    exists pre s' pv' m',
      s = pre ++ s' /\ p = p + length pre
      /\ run f r Some (MState pv' p s' None) = Some m' /\ pos m = pos m').
  { intros s pv p m Hm. exists [], s, pv, m. cbn. rewrite Nat.add_0_r. eauto. }
  induction s as [|c t IH]; intros pv p mo; cbn [scan].
  - destruct (run f r Some (MState pv p [] None)) as [m|] eqn:Hm;
      [|discriminate].
    intros [= <-]. cbn [m_start m_end]. apply (Hhere _ _ _ _ Hm).
  - destruct (run f r Some (MState pv p (c :: t) None)) as [m|] eqn:Hm.
    + intros [= <-]. cbn [m_start m_end]. apply (Hhere _ _ _ _ Hm).
    + intros Hscan.
      destruct (IH _ _ _ Hscan) as (pre & s' & pv' & m & -> & Hstart & Hrun & Hend).
      exists (c :: pre), s', pv', m. cbn [app length].
      rewrite Nat.add_succ_r. eauto.
Qed.

Lemma email_pattern_shape :
  email_pattern
  = Cat (plus local_class)
      (Cat (Atom (Lit AT))
         (Cat (plus domain_class)
            (Cat (Atom (Lit DOT)) (Repeat letter_class 2 None true)))).
Proof. reflexivity. Qed.

(** The text [email_pattern] matches: a local part, an at sign, a domain,
    a dot and two letters or more. *)
Lemma run_email_pattern pv p (s : list N) res :
  run no_flags email_pattern Some (MState pv p s None) = Some res ->
  exists local domain tld s',
    s = (local ++ [AT] ++ domain ++ [DOT] ++ tld) ++ s'
    /\ pos res = p + length (local ++ [AT] ++ domain ++ [DOT] ++ tld)
    /\ forallb (atom_match no_flags local_class) local = true
    /\ 1 <= length local
    /\ forallb (atom_match no_flags domain_class) domain = true
    /\ 1 <= length domain
    /\ forallb (atom_match no_flags letter_class) tld = true
    /\ 2 <= length tld.
Proof.
  rewrite email_pattern_shape. unfold plus.
  cbn [run prev pos rest grp]. intros H.
  apply rep_sound in H as (local & s1 & pv1 & -> & Hlocal & Hlen1 & H).
  cbn [run prev pos rest grp] in H.
  destruct s1 as [|c s1]; [discriminate|].
  cbn [atom_match IGNORECASE no_flags] in H.
  destruct (c =? AT)%N eqn:Hc; [|discriminate].
  apply N.eqb_eq in Hc. subst c.
  apply rep_sound in H as (domain & s2 & pv2 & -> & Hdomain & Hlen2 & H).
  cbn [run prev pos rest grp] in H.
  destruct s2 as [|c s2]; [discriminate|].
  cbn [atom_match IGNORECASE no_flags] in H.
  destruct (c =? DOT)%N eqn:Hc; [|discriminate].
  apply N.eqb_eq in Hc. subst c.
  apply rep_sound in H as (tld & s3 & pv3 & -> & Htld & Hlen3 & H).
  injection H as <-. cbn [pos].
  exists local, domain, tld, s3.
  repeat split; try assumption.
  - rewrite <- !app_assoc. reflexivity.
  - cbn [app]. rewrite ?length_app. simpl length. rewrite ?length_app.
    simpl length. unfold char in *. lia.
Qed.

Lemma local_class_eq c :
  atom_match no_flags local_class c
  = ((97 <=? c) && (c <=? 122) || ((65 <=? c) && (c <=? 90)
     || ((48 <=? c) && (c <=? 57) || ((c =? 46) || ((c =? 95) || ((c =? 37)
     || ((c =? 43) || ((c =? 45) || false))))))))%N.
Proof. reflexivity. Qed.

Lemma domain_class_eq c :
  atom_match no_flags domain_class c
  = ((97 <=? c) && (c <=? 122) || ((65 <=? c) && (c <=? 90)
     || ((48 <=? c) && (c <=? 57) || ((c =? 46) || ((c =? 45) || false)))))%N.
Proof. reflexivity. Qed.

Lemma letter_class_eq c :
  atom_match no_flags letter_class c
  = ((97 <=? c) && (c <=? 122) || ((65 <=? c) && (c <=? 90) || false))%N.
Proof. reflexivity. Qed.

Ltac to_prop H :=
  rewrite ?orb_true_iff, ?andb_true_iff, ?N.leb_le, ?N.eqb_eq in H.

Ltac lower_case c :=
  unfold ascii_tolower, is_upper;
  destruct ((65 <=? c) && (c <=? 90))%N eqn:?Hup;
  [ apply andb_true_iff in Hup as [?Hlo ?Hhi];
    apply N.leb_le in Hlo; apply N.leb_le in Hhi
  | apply andb_false_iff in Hup; rewrite !N.leb_gt in Hup ];
  unfold local_char, domain_char, is_lower, is_digit;
  rewrite ?orb_true_iff, ?andb_true_iff, ?N.leb_le, ?N.eqb_eq; lia.

Lemma local_class_sound c :
  atom_match no_flags local_class c = true ->
  (c < 128)%N /\ local_char (ascii_tolower c) = true.
Proof.
  rewrite local_class_eq. intros H. to_prop H. split; [lia|]. lower_case c.
Qed.

Lemma domain_class_sound c :
  atom_match no_flags domain_class c = true ->
  (c < 128)%N /\ domain_char (ascii_tolower c) = true.
Proof.
  rewrite domain_class_eq. intros H. to_prop H. split; [lia|]. lower_case c.
Qed.

Lemma letter_class_sound c :
  atom_match no_flags letter_class c = true ->
  (c < 128)%N /\ is_lower (ascii_tolower c) = true.
Proof.
  rewrite letter_class_eq. intros H. to_prop H. split; [lia|].
  unfold ascii_tolower, is_upper.
  destruct ((65 <=? c) && (c <=? 90))%N eqn:Hup;
    [ apply andb_true_iff in Hup as [Hlo Hhi];
      apply N.leb_le in Hlo; apply N.leb_le in Hhi
    | apply andb_false_iff in Hup; rewrite !N.leb_gt in Hup ];
    unfold is_lower; rewrite ?andb_true_iff, ?N.leb_le; lia.
Qed.

Lemma class_lowered (test good : N -> bool) (w : list N) :
  (forall c, test c = true -> (c < 128)%N /\ good (ascii_tolower c) = true) ->
  forallb test w = true ->
  Forall (fun c => (c < 128)%N) w /\ forallb good (ascii_lower w) = true.
Proof.
  intros Hsound. induction w as [|c w IH]; intros Hw; [split; [constructor | reflexivity]|].
  cbn in Hw. apply andb_true_iff in Hw as [Hc Hw].
  destruct (Hsound c Hc) as [Hlt Hgood]. destruct (IH Hw) as [Hall Hlow].
  split; [constructor; assumption|].
  cbn. rewrite Hgood. exact Hlow.
Qed.

Lemma isspace_printable c : (33 <= c)%N -> (c <= 126)%N -> isspace c = false.
Proof.
  intros Hlo Hhi. unfold isspace.
  rewrite !orb_false_iff, !andb_false_iff, !N.leb_gt, !N.eqb_neq. lia.
Qed.

Lemma local_char_printable c : local_char c = true -> isspace c = false.
Proof.
  unfold local_char, is_lower, is_digit. intros H. to_prop H.
  apply isspace_printable; lia.
Qed.

Lemma domain_char_printable c : domain_char c = true -> isspace c = false.
Proof.
  unfold domain_char, is_lower, is_digit. intros H. to_prop H.
  apply isspace_printable; lia.
Qed.

Lemma is_lower_printable c : is_lower c = true -> isspace c = false.
Proof.
  unfold is_lower. intros H. to_prop H. apply isspace_printable; lia.
Qed.

Lemma forallb_last_ok (good : N -> bool) (s : list N) c :
  good c = true -> (forall x, good x = true -> isspace x = false) ->
  last_ok (s ++ [c]) = true.
Proof.
  intros Hc Hgood. unfold last_ok. rewrite rev_app_distr. cbn.
  rewrite (Hgood c Hc). reflexivity.
Qed.

(** X22: the shape of an extracted address.  Whenever the From header holds
    an email-shaped substring, what [_extract_email_address] returns is a
    non-empty local part of a-z, 0-9 and . _ % + -, an at sign, a non-empty
    domain of a-z, 0-9, . and -, a dot, and two or more letters a-z: lower
    case throughout, with no display name, bracket or blank left.
    [str.lower] is only assumed to fold ASCII text as ASCII. *)
Theorem X22_extracted_address_shape (str_lower : str -> str)
    (Hascii : forall s, Forall (fun c => (c < 128)%N) s ->
                        str_lower s = ascii_lower s)
    (from_header : str) m :
  re_search no_flags email_pattern from_header = Some m ->
  exists local domain tld,
    _extract_email_address str_lower from_header
    = local ++ [AT] ++ domain ++ [DOT] ++ tld
    /\ local <> [] /\ forallb local_char local = true
    /\ domain <> [] /\ forallb domain_char domain = true
    /\ 2 <= length tld /\ forallb is_lower tld = true.
Proof.
  intros Hsearch.
  assert (Hne : from_header <> []).
  { intros ->. vm_compute in Hsearch. discriminate. }
  rewrite (extract_email_address_nonempty str_lower from_header Hne), Hsearch.
  unfold re_search in Hsearch.
  apply scan_sound in Hsearch as (pre & s' & pv' & res & -> & Hstart & Hrun & Hend).
  apply run_email_pattern in Hrun
    as (local & domain & tld & post & -> & Hpos & Hl & Hl1 & Hd & Hd1 & Ht & Ht2).
  set (w := local ++ [AT] ++ domain ++ [DOT] ++ tld) in *.
  assert (Hgroup : group0 (pre ++ w ++ post) m = w).
  { unfold group0, slice. rewrite Hend, Hpos, Hstart. cbn [Nat.add].
    rewrite drop_app_length.
    replace (length pre + length w - length pre) with (length w) by lia.
    apply take_app_length. }
  rewrite Hgroup.
  destruct (class_lowered _ _ local local_class_sound Hl) as [Ha1 Hg1].
  destruct (class_lowered _ _ domain domain_class_sound Hd) as [Ha2 Hg2].
  destruct (class_lowered _ _ tld letter_class_sound Ht) as [Ha3 Hg3].
  assert (Hw : Forall (fun c => (c < 128)%N) w).
  { subst w. rewrite !Forall_app. repeat split; try assumption;
      constructor; [reflexivity | constructor | reflexivity | constructor]. }
  rewrite (Hascii w Hw).
  assert (Hlow : ascii_lower w
                 = ascii_lower local ++ [AT] ++ ascii_lower domain ++ [DOT]
                   ++ ascii_lower tld).
  { subst w. unfold ascii_lower. rewrite !map_app. reflexivity. }
  rewrite Hlow.
  exists (ascii_lower local), (ascii_lower domain), (ascii_lower tld).
  assert (Hlen : forall x : list N, length (ascii_lower x) = length x).
  { intros x. unfold ascii_lower. apply length_map. }
  assert (Hnil : forall x : list N, 1 <= length x -> ascii_lower x <> []).
  { intros x Hx Hxnil. apply (f_equal (@length N)) in Hxnil.
    rewrite Hlen in Hxnil. cbn in Hxnil. lia. }
  split; [|repeat split; try assumption; try (apply Hnil; assumption);
           rewrite Hlen; assumption].
  apply strip_ok.
  - destruct (ascii_lower local) as [|c l] eqn:Hloc.
    + exfalso. apply (Hnil local Hl1 Hloc).
    + cbn in Hg1. apply andb_true_iff in Hg1 as [Hc _].
      cbn. rewrite (local_char_printable c Hc). reflexivity.
  - assert (Ht1 : 1 <= length tld) by (unfold char in *; lia).
    destruct (exists_last (Hnil tld Ht1)) as (l & c & Htld).
    rewrite Htld in *. rewrite forallb_app in Hg3.
    apply andb_true_iff in Hg3 as [_ Hc]. cbn in Hc.
    apply andb_true_iff in Hc as [Hc _].
    rewrite !app_assoc.
    apply (forallb_last_ok is_lower _ c Hc is_lower_printable).
Qed.

Lemma X22_extracted_address_shape_witness :
  exists local domain tld,
    _extract_email_address ascii_lower (u "Jane Doe <Jane.Doe@Example.COM>")
    = local ++ [AT] ++ domain ++ [DOT] ++ tld
    /\ local <> [] /\ forallb local_char local = true
    /\ domain <> [] /\ forallb domain_char domain = true
    /\ 2 <= length tld /\ forallb is_lower tld = true.
Proof.
  apply (X22_extracted_address_shape ascii_lower (fun s _ => eq_refl)
           (u "Jane Doe <Jane.Doe@Example.COM>") (MatchObj 10 30 None)).
  vm_compute. reflexivity.
Defined.

(** ** The polling thread *)

Lemma execute_solo i : forall n s p,
  threads s !! i = Some p ->
  execute s (solo i n)
  = (Process (is_processing s) (<[i := steps (is_processing s) n p]> (threads s)),
     List.map (pair i) (trace (is_processing s) n p)).
Proof.
  induction n as [|n IH]; intros s p Hp.
  - cbn. rewrite list_insert_id by exact Hp. destruct s; reflexivity.
  - unfold solo. cbn [replicate execute fire]. rewrite Hp.
    destruct (thread_step (is_processing s) p) as [p' o] eqn:Hstep.
    fold (solo i n).
    pose proof (lookup_lt_Some _ _ _ Hp) as Hlt.
    rewrite (IH _ p') by (cbn; apply list_lookup_insert_eq; exact Hlt).
    cbn [is_processing threads steps trace List.map app].
    rewrite Hstep. cbn [fst snd]. rewrite list_insert_insert_eq. reflexivity.
Qed.

Lemma steps_add b : forall n m p, steps b (n + m) p = steps b m (steps b n p).
Proof. induction n as [|n IH]; intros m p; cbn; [reflexivity | apply IH]. Qed.

Lemma trace_add b : forall n m p,
  trace b (n + m) p = trace b n p ++ trace b m (steps b n p).
Proof.
  induction n as [|n IH]; intros m p; cbn; [reflexivity|].
  rewrite IH. reflexivity.
Qed.

Lemma count_obs_cons i o o' l :
  count_obs i o ((i, o') :: l)
  = count_obs i o [(i, o')] + count_obs i o l.
Proof. apply (count_obs_app i o [(i, o')] l). Qed.

(** From the head of the waiting loop with [k] ticks to go, a thread whose
    flag stays set sleeps [k] times and then begins the next poll. *)
Lemma tick_run i : forall k,
  steps true (2 * k + 2) (AtTick k) = InPoll
  /\ count_obs i Slept (List.map (pair i) (trace true (2 * k + 2) (AtTick k))) = k
  /\ count_obs i PollStarted
       (List.map (pair i) (trace true (2 * k + 2) (AtTick k))) = 1.
Proof.
  induction k as [|k (IHs & IHslept & IHpoll)].
  - cbn -[count_obs]. unfold count_obs. cbn. rewrite Nat.eqb_refl.
    repeat split; reflexivity.
  - replace (2 * S k + 2) with (2 + (2 * k + 2)) by lia.
    rewrite steps_add, trace_add.
    change (steps true 2 (AtTick (S k))) with (AtTick k).
    change (trace true 2 (AtTick (S k))) with [Quiet; Slept].
    rewrite map_app, !count_obs_app, IHs, IHslept, IHpoll.
    unfold count_obs. cbn. rewrite Nat.eqb_refl. repeat split; reflexivity.
Qed.

Lemma poll_again i p :
  p <> Exited ->
  steps true (until_poll p) p = InPoll
  /\ count_obs i PollStarted
       (List.map (pair i) (trace true (until_poll p) p)) = 1.
Proof.
  intros Hp. destruct p as [| |k|k|]; [| | | |congruence].
  - cbn -[count_obs]. unfold count_obs. cbn. rewrite Nat.eqb_refl.
    split; reflexivity.
  - unfold until_poll. rewrite steps_add, trace_add.
    change (steps true 1 InPoll) with (AtTick 300).
    change (trace true 1 InPoll) with [Quiet].
    destruct (tick_run i 300) as (Hs & _ & Hpoll).
    rewrite map_app, count_obs_app, Hs, Hpoll.
    unfold count_obs. cbn. rewrite Nat.eqb_refl. split; reflexivity.
  - unfold until_poll. destruct (tick_run i k) as (Hs & _ & Hpoll).
    split; assumption.
  - unfold until_poll. rewrite steps_add, trace_add.
    change (steps true 1 (Sleeping k)) with (AtTick k).
    change (trace true 1 (Sleeping k)) with [Slept].
    destruct (tick_run i k) as (Hs & _ & Hpoll).
    rewrite map_app, count_obs_app, Hs, Hpoll.
    unfold count_obs. cbn. rewrite Nat.eqb_refl. split; reflexivity.
Qed.

(** X23: a stop followed at once by a start does not end the old thread.
    Whatever a live thread of [background_email_processing] is doing, if
    the flag is cleared and set again before the thread's next step, the
    thread list has grown by a new thread, the old thread goes on to begin
    another poll, and the new thread begins one with its first step: two
    threads now poll the mailbox. *)
Theorem X23_restart_leaves_two_pollers s i p :
  threads s !! i = Some p ->
  p <> Exited ->
  let s' := fst (execute s [StopRequest; StartRequest]) in
  is_processing s' = true
  /\ threads s' = threads s ++ [AtWhile]
  /\ (let r := execute s' (solo i (until_poll p)) in
      threads (fst r) !! i = Some InPoll
      /\ count_obs i PollStarted (snd r) = 1)
  /\ snd (execute s' [Step (length (threads s))])
     = [(length (threads s), PollStarted)].
Proof.
  intros Hp Hlive. cbv zeta.
  assert (Hs' : fst (execute s [StopRequest; StartRequest])
                = Process true (threads s ++ [AtWhile])) by reflexivity.
  rewrite Hs'. cbn [is_processing threads].
  pose proof (lookup_lt_Some _ _ _ Hp) as Hlt.
  assert (Hp' : (threads s ++ [AtWhile]) !! i = Some p).
  { rewrite lookup_app_l by exact Hlt. exact Hp. }
  split; [reflexivity|]. split; [reflexivity|]. split.
  - rewrite (execute_solo i _ _ p) by exact Hp'.
    cbn [is_processing threads fst snd].
    destruct (poll_again i p Hlive) as [Hsteps Hpoll].
    rewrite Hsteps. split; [|exact Hpoll].
    apply list_lookup_insert_eq. rewrite length_app. cbn. lia.
  - cbn [execute fire threads is_processing].
    rewrite lookup_app_r by lia. rewrite Nat.sub_diag. reflexivity.
Qed.

Lemma X23_restart_leaves_two_pollers_witness :
  let s' := fst (execute (Process true [Sleeping 7]) [StopRequest; StartRequest]) in
  is_processing s' = true
  /\ threads s' = [Sleeping 7; AtWhile]
  /\ (let r := execute s' (solo 0 (until_poll (Sleeping 7))) in
      threads (fst r) !! 0 = Some InPoll
      /\ count_obs 0 PollStarted (snd r) = 1)
  /\ snd (execute s' [Step 1]) = [(1, PollStarted)].
Proof.
  apply (X23_restart_leaves_two_pollers (Process true [Sleeping 7]) 0 (Sleeping 7));
    [reflexivity | discriminate].
Defined.

(** X24: the polling period.  While the flag stays set, a thread that has
    begun a poll completes exactly 300 one-second sleeps and then begins
    the next poll; more generally, from the head of the waiting loop with
    [k] ticks to go it sleeps exactly [k] times before the next poll. *)
Theorem X24_three_hundred_sleeps_between_polls s i :
  is_processing s = true ->
  (forall k, threads s !! i = Some (AtTick k) ->
     let r := execute s (solo i (2 * k + 2)) in
     threads (fst r) !! i = Some InPoll
     /\ count_obs i Slept (snd r) = k
     /\ count_obs i PollStarted (snd r) = 1)
  /\ (threads s !! i = Some InPoll ->
      let r := execute s (solo i 603) in
      threads (fst r) !! i = Some InPoll
      /\ count_obs i Slept (snd r) = 300
      /\ count_obs i PollStarted (snd r) = 1).
Proof.
  intros Hflag. split.
  - intros k Hp. cbv zeta. rewrite (execute_solo i _ _ _ Hp), Hflag.
    cbn [fst snd threads].
    destruct (tick_run i k) as (Hs & Hslept & Hpoll). rewrite Hs.
    split; [|split; assumption].
    apply list_lookup_insert_eq. apply (lookup_lt_Some _ _ _ Hp).
  - intros Hp. cbv zeta. rewrite (execute_solo i _ _ _ Hp), Hflag.
    cbn [fst snd threads].
    change 603 with (1 + (2 * 300 + 2)). rewrite steps_add, trace_add.
    change (steps true 1 InPoll) with (AtTick 300).
    change (trace true 1 InPoll) with [Quiet].
    destruct (tick_run i 300) as (Hs & Hslept & Hpoll).
    rewrite map_app, !count_obs_app, Hs, Hslept, Hpoll.
    split; [|split; unfold count_obs; cbn; rewrite Nat.eqb_refl; reflexivity].
    apply list_lookup_insert_eq. apply (lookup_lt_Some _ _ _ Hp).
Qed.

Lemma X24_three_hundred_sleeps_between_polls_witness :
  (forall k, threads (Process true [InPoll]) !! 0 = Some (AtTick k) ->
     let r := execute (Process true [InPoll]) (solo 0 (2 * k + 2)) in
     threads (fst r) !! 0 = Some InPoll
     /\ count_obs 0 Slept (snd r) = k
     /\ count_obs 0 PollStarted (snd r) = 1)
  /\ (threads (Process true [InPoll]) !! 0 = Some InPoll ->
      let r := execute (Process true [InPoll]) (solo 0 603) in
      threads (fst r) !! 0 = Some InPoll
      /\ count_obs 0 Slept (snd r) = 300
      /\ count_obs 0 PollStarted (snd r) = 1).
Proof.
  apply (X24_three_hundred_sleeps_between_polls (Process true [InPoll]) 0).
  reflexivity.
Defined.

(** ** The store with its schema *)

Lemma position_lookup c : forall columns i,
  Store.position c columns = Some i -> columns !! i = Some c.
Proof.
  induction columns as [|c' more IH]; intros i; cbn [Store.position];
    [discriminate|].
  destruct (String.eqb c c') eqn:Hc.
  - intros [= <-]. apply String.eqb_eq in Hc. subst. reflexivity.
  - destruct (Store.position c more) as [j|]; [|discriminate].
    intros [= <-]. cbn. apply IH. reflexivity.
Qed.

Lemma position_has_column t c :
  Store.has_column t c = true ->
  exists i, Store.position c (Store.s_columns t) = Some i.
Proof.
  unfold Store.has_column. induction (Store.s_columns t) as [|c' more IH];
    cbn [existsb Store.position]; [discriminate|].
  destruct (String.eqb c c'); [eauto|]. cbn [orb]. intros H.
  destruct (IH H) as [i ->]. eauto.
Qed.

(** The cell a new row holds in a column of the table. *)
Lemma cell_at_new_row now contact_info t c :
  Store.has_column t c = true ->
  Store.cell_at t (Store.new_row now contact_info t) c
  = if String.eqb c "id" then Store.Int (S (Store.s_seq t))
    else if existsb (String.eqb c) Store.insert_columns
         then Store.Text (get_field contact_info c)
         else if String.eqb c "created_at" then Store.Time now
              else Store.Null.
Proof.
  intros Hc. destruct (position_has_column t c Hc) as [i Hi].
  unfold Store.cell_at, Store.new_row. rewrite Hi.
  rewrite list_lookup_fmap, (position_lookup _ _ _ Hi). reflexivity.
Qed.

Lemma store_insert_cases now contact_info t :
  let t' := fst (Store.insert_or_ignore now contact_info t) in
  Store.s_columns t' = Store.s_columns t
  /\ Store.s_unique t' = Store.s_unique t
  /\ Store.s_indexes t' = Store.s_indexes t
  /\ Store.s_seq t' = S (Store.s_seq t)
  /\ (Store.conflicts t (Store.new_row now contact_info t) = true
      /\ Store.s_rows t' = Store.s_rows t
      /\ snd (Store.insert_or_ignore now contact_info t) = 0
      \/ Store.conflicts t (Store.new_row now contact_info t) = false
         /\ Store.s_rows t' = Store.s_rows t ++ [Store.new_row now contact_info t]
         /\ snd (Store.insert_or_ignore now contact_info t) = 1).
Proof.
  unfold Store.insert_or_ignore.
  destruct (Store.conflicts t (Store.new_row now contact_info t)); cbn;
    repeat split; auto.
Qed.

(** What a loop that completes has done: one counter value for each
    contact, and rows added at the end, their ids between the counter
    before and the counter after, in growing order. *)
Lemma store_insert_loop_ids fault clock : forall contacts i t n t' n',
  Store.has_column t "id" = true ->
  Store.insert_loop fault clock i contacts t n = Store.Completed t' n' ->
  Store.s_columns t' = Store.s_columns t
  /\ Store.s_unique t' = Store.s_unique t
  /\ Store.s_indexes t' = Store.s_indexes t
  /\ Store.s_seq t' = Store.s_seq t + length contacts
  /\ n <= n' <= n + length contacts
  /\ exists added ids,
       Store.s_rows t' = Store.s_rows t ++ added
       /\ length added = n' - n
       /\ List.map (row_id t') added = List.map Some ids
       /\ StronglySorted lt ids
       /\ Forall (fun k => Store.s_seq t < k <= Store.s_seq t') ids.
Proof.
  induction contacts as [|c more IH]; intros i t n t' n' Hid Hloop;
    cbn [Store.insert_loop] in Hloop.
  - injection Hloop as <- <-. cbn [length]. rewrite Nat.add_0_r.
    repeat split; try lia. exists [], []. rewrite app_nil_r, Nat.sub_diag.
    repeat split; constructor.
  - destruct (fault i); [discriminate|].
    pose proof (store_insert_cases (clock i) c t) as Hcases. cbv zeta in Hcases.
    destruct (Store.insert_or_ignore (clock i) c t) as [t1 rc] eqn:Hins.
    cbn [fst snd] in Hcases.
    destruct Hcases as (Hcols & Huniq & Hidx & Hseq & Hrows).
    assert (Hid1 : Store.has_column t1 "id" = true).
    { unfold Store.has_column in *. rewrite Hcols. exact Hid. }
    destruct (IH _ _ _ _ _ Hid1 Hloop)
      as (Hcols' & Huniq' & Hidx' & Hseq' & Hn & added & ids & Hrows' & Hlen
          & Hids & Hsorted & Hrange).
    cbn [length].
    split; [congruence|]. split; [congruence|]. split; [congruence|].
    split; [lia|].
    destruct Hrows as [(Hconf & Hsame & ->) | (Hconf & Hnew & ->)];
      cbn [Nat.ltb Nat.leb] in *.
    + split; [lia|]. exists added, ids. rewrite Hrows', Hsame.
      repeat split; try assumption.
      eapply Forall_impl; [exact Hrange|]. cbn. intros k Hk. lia.
    + split; [lia|].
      exists (Store.new_row (clock i) c t :: added), (S (Store.s_seq t) :: ids).
      rewrite Hrows', Hnew, <- app_assoc. cbn [app length List.map].
      split; [reflexivity|]. split; [lia|]. split; [|split].
      * f_equal; [|exact Hids]. unfold row_id.
        assert (Hcell : Store.cell_at t' (Store.new_row (clock i) c t) "id"
                        = Store.cell_at t (Store.new_row (clock i) c t) "id").
        { unfold Store.cell_at. rewrite Hcols', Hcols. reflexivity. }
        rewrite Hcell, cell_at_new_row by exact Hid. reflexivity.
      * constructor; [exact Hsorted|].
        eapply Forall_impl; [exact Hrange|]. cbn. intros k Hk. lia.
      * constructor; [lia|].
        eapply Forall_impl; [exact Hrange|]. cbn. intros k Hk. lia.
Qed.

Lemma store_insert_loop_no_fault clock : forall contacts i t n,
  exists t' n', Store.insert_loop no_fault clock i contacts t n
                = Store.Completed t' n'.
Proof.
  induction contacts as [|c more IH]; intros i t n; cbn [Store.insert_loop].
  - eauto.
  - unfold no_fault at 1.
    destruct (Store.insert_or_ignore (clock i) c t) as [t1 rc]. apply IH.
Qed.

(** X8: every insert takes a row id.  Each [INSERT OR IGNORE] of
    [save_contacts_to_database] takes the next value of the AUTOINCREMENT
    counter, whether it stores a row or is ignored: after a call without
    fault on a table that has the columns of the statement, the counter has
    grown by the number of contacts of the batch, however few of them were
    stored.  The rows stored are added after those there were, with ids
    above the old counter that grow in the order of insertion: an id is
    never used twice, but ids are skipped. *)
Theorem X8_every_insert_takes_an_id clock contacts db :
  let t := fst (Store.create_contacts_database db) in
  let r := Store.save_contacts_to_database no_fault clock contacts db in
  let t' := Store.table_after r in
  forallb (Store.has_column t) ("id" :: Store.insert_columns) = true ->
  Store.s_seq t' = Store.s_seq t + length contacts
  /\ Store.saved r <= length contacts
  /\ exists added ids,
       Store.s_rows t' = Store.s_rows t ++ added
       /\ length added = Store.saved r
       /\ List.map (row_id t') added = List.map Some ids
       /\ StronglySorted lt ids
       /\ Forall (fun k => Store.s_seq t < k <= Store.s_seq t') ids.
Proof.
  cbv zeta. unfold Store.save_contacts_to_database.
  destruct (Store.create_contacts_database db) as [t printed] eqn:Hcreate.
  cbn [fst]. intros Hcols. cbn [forallb] in Hcols.
  apply andb_true_iff in Hcols as [Hid Hcols].
  destruct contacts as [|c more].
  - cbn. rewrite Nat.add_0_r. repeat split; try lia.
    exists [], []. rewrite app_nil_r. repeat split; constructor.
  - rewrite Hcols.
    destruct (store_insert_loop_no_fault clock (c :: more) 0 t 0)
      as (t' & n' & Hloop).
    rewrite Hloop. cbn [Store.table_after Store.saved].
    destruct (store_insert_loop_ids _ _ _ _ _ _ _ _ Hid Hloop)
      as (_ & _ & _ & Hseq & Hn & added & ids & Hrows & Hlen & Hids & Hs & Hr).
    split; [exact Hseq|]. split; [lia|].
    exists added, ids. rewrite Nat.sub_0_r in Hlen. repeat split; assumption.
Qed.

Lemma X8_every_insert_takes_an_id_witness :
  let db : Store.file := None in
  let batch := [contact "m1" "Ann"; contact "m1" "Ann"; contact "m2" "Bob"] in
  let r := Store.save_contacts_to_database no_fault (fun _ => 0%N) batch db in
  Store.s_seq (Store.table_after r) = 3 /\ Store.saved r = 2
  /\ List.map (row_id (Store.table_after r)) (Store.s_rows (Store.table_after r))
     = [Some 1; Some 3].
Proof.
  cbv zeta.
  pose proof (X8_every_insert_takes_an_id (fun _ => 0%N)
                [contact "m1" "Ann"; contact "m1" "Ann"; contact "m2" "Bob"]
                None eq_refl) as [Hseq _].
  split; [exact Hseq|]. vm_compute. split; reflexivity.
Defined.

(** *** The table of rows and the table with its schema *)

Lemma reader_new_row now contact_info t :
  Store.s_columns t = Store.reader_columns ->
  Store.new_row now contact_info t
  = cells_of (Row (S (Store.s_seq t))
                  (get_field contact_info "name")
                  (get_field contact_info "address")
                  (get_field contact_info "postcode")
                  (get_field contact_info "skills")
                  (get_field contact_info "other")
                  (get_field contact_info "email_sender")
                  (get_field contact_info "email_subject")
                  (get_field contact_info "email_date")
                  (get_field contact_info "message_id") now).
Proof. intros Hcols. unfold Store.new_row. rewrite Hcols. reflexivity. Qed.

Lemma reader_unique_keys t :
  reader_schema t -> Store.unique_keys t = [["message_id"]].
Proof.
  intros (_ & Huniq & Hidx). unfold Store.unique_keys. rewrite Huniq.
  assert (Hnone : List.filter Store.i_unique (Store.s_indexes t) = []).
  { induction (Store.s_indexes t) as [|i more IH]; [reflexivity|].
    cbn in Hidx. apply andb_true_iff in Hidx as [Hi Hmore]. cbn.
    destruct (Store.i_unique i); [discriminate | apply IH, Hmore]. }
  rewrite Hnone. reflexivity.
Qed.

Lemma reader_collides t r r' :
  Store.s_columns t = Store.reader_columns ->
  Store.collides t ["message_id"] (cells_of r) (cells_of r')
  = str_eqb (r_message_id r) (r_message_id r').
Proof.
  intros Hcols. unfold Store.collides, Store.cell_at. rewrite Hcols.
  cbn. rewrite andb_true_r. unfold Store.cell_eqb, str_eqb.
  apply bool_decide_ext. split; [intros [= ->]; reflexivity | intros ->; reflexivity].
Qed.

Lemma reader_conflicts t rows r' :
  reader_schema t ->
  Store.s_rows t = List.map cells_of rows ->
  Store.conflicts t (cells_of r')
  = existsb (fun r => str_eqb (r_message_id r) (r_message_id r')) rows.
Proof.
  intros Hschema Hrows. unfold Store.conflicts.
  rewrite (reader_unique_keys t Hschema), Hrows. cbn [existsb].
  rewrite orb_false_r. destruct Hschema as (Hcols & _). clear Hrows.
  induction rows as [|r rows IH]; [reflexivity|].
  cbn [List.map existsb]. rewrite IH, (reader_collides t r r' Hcols).
  reflexivity.
Qed.

Lemma same_fields_message_id a b :
  same_fields a b -> r_message_id a = r_message_id b.
Proof. unfold same_fields, cells_of. intros H. injection H. auto. Qed.

Lemma same_fields_existsb mid : forall l l',
  Forall2 same_fields l l' ->
  existsb (fun r => str_eqb (r_message_id r) mid) l
  = existsb (fun r => str_eqb (r_message_id r) mid) l'.
Proof.
  induction 1 as [|a b l l' Hab _ IH]; [reflexivity|].
  cbn. rewrite IH, (same_fields_message_id a b Hab). reflexivity.
Qed.

(** One statement on both tables. *)
Lemma insert_abstracts now contact_info flat t :
  abstracts flat t ->
  snd (insert_or_ignore now contact_info flat)
  = snd (Store.insert_or_ignore now contact_info t)
  /\ abstracts (fst (insert_or_ignore now contact_info flat))
               (fst (Store.insert_or_ignore now contact_info t)).
Proof.
  intros (Hschema & rows & Hrows & Hsame).
  pose proof Hschema as (Hcols & Huniq & Hidx).
  unfold insert_or_ignore, Store.insert_or_ignore.
  rewrite (reader_new_row now contact_info t Hcols).
  rewrite (reader_conflicts t rows _ Hschema Hrows). cbn [r_message_id].
  rewrite (same_fields_existsb _ _ _ Hsame).
  destruct (existsb _ rows); cbn [fst snd].
  - split; [reflexivity|]. split; [split; [|split]; assumption|].
    exists rows. split; assumption.
  - split; [reflexivity|]. split; [split; [|split]; assumption|].
    eexists (rows ++ [_]). cbn [Store.s_rows t_rows].
    rewrite Hrows, List.map_app. split; [reflexivity|].
    apply Forall2_app; [exact Hsame|]. constructor; [|constructor].
    reflexivity.
Qed.

Lemma insert_loop_abstracts fault clock : forall contacts i flat t n,
  abstracts flat t ->
  match insert_loop fault clock i contacts flat n,
        Store.insert_loop fault clock i contacts t n with
  | Completed flat' m, Store.Completed t' m' => m = m' /\ abstracts flat' t'
  | Raised m, Store.Raised m' => m = m'
  | _, _ => False
  end.
Proof.
  induction contacts as [|c more IH]; intros i flat t n Habs;
    cbn [insert_loop Store.insert_loop].
  - split; [reflexivity | exact Habs].
  - destruct (fault i); [reflexivity|].
    destruct (insert_abstracts (clock i) c flat t Habs) as [Hrc Habs'].
    destruct (insert_or_ignore (clock i) c flat) as [flat1 rc].
    destruct (Store.insert_or_ignore (clock i) c t) as [t1 rc'].
    cbn [fst snd] in Hrc, Habs'. subst rc'. apply IH. exact Habs'.
Qed.

Lemma create_index_reader name c t :
  reader_schema t ->
  Store.has_column t c = true ->
  exists t', Store.create_index false name c t = Some t'
             /\ reader_schema t'
             /\ Store.s_rows t' = Store.s_rows t
             /\ Store.s_seq t' = Store.s_seq t.
Proof.
  intros Hschema Hc. unfold Store.create_index.
  destruct (Store.has_index t name); [eauto|].
  rewrite Hc. cbn [negb andb]. eexists. split; [reflexivity|].
  destruct Hschema as (Hcols & Huniq & Hidx).
  repeat split; try assumption. cbn [Store.s_indexes].
  rewrite forallb_app, Hidx. reflexivity.
Qed.

Lemma create_reader t :
  reader_schema t ->
  exists t', Store.create_contacts_database (Some t) = (t', [])
             /\ reader_schema t'
             /\ Store.s_rows t' = Store.s_rows t
             /\ Store.s_seq t' = Store.s_seq t.
Proof.
  intros Hschema. unfold Store.create_contacts_database.
  assert (Hcol : forall t0 c, reader_schema t0 -> In c Store.reader_columns ->
                              Store.has_column t0 c = true).
  { intros t0 c (Hcols & _) Hin. unfold Store.has_column. rewrite Hcols.
    apply existsb_exists. exists c. split; [exact Hin | apply String.eqb_refl]. }
  destruct (create_index_reader "idx_message_id" "message_id" t Hschema)
    as (t1 & -> & Hs1 & Hr1 & Hq1); [apply Hcol; [exact Hschema | cbn; auto 12]|].
  destruct (create_index_reader "idx_created_at" "created_at" t1 Hs1)
    as (t2 & -> & Hs2 & Hr2 & Hq2); [apply Hcol; [exact Hs1 | cbn; auto 12]|].
  exists t2. repeat split; try apply Hs2; congruence.
Qed.

Lemma reader_insertable t :
  reader_schema t -> forallb (Store.has_column t) Store.insert_columns = true.
Proof.
  intros (Hcols & _). unfold Store.has_column. rewrite Hcols. reflexivity.
Qed.

(** X25: the table of rows is the table of the schema.  On a file whose
    table was made by [create_contacts_database], or that has no table,
    the store of the sections above and the store that keeps the schema
    and the counter of SQLite do the same for every batch, fault or not:
    the same count is returned, the same is printed, and the same rows are
    in the table afterwards, up to their ids. *)
Theorem X25_rows_abstract_the_schema fault clock contacts db f :
  abstracts_file db f ->
  let r := save_contacts_to_database fault clock contacts db in
  let r' := Store.save_contacts_to_database fault clock contacts f in
  saved r = Store.saved r'
  /\ printed r = Store.printed r'
  /\ abstracts (table_after r) (Store.table_after r').
Proof.
  intros Hfile. cbv zeta.
  assert (Hstart : exists flat t,
    create_contacts_database db = Some flat
    /\ Store.create_contacts_database f = (t, [])
    /\ abstracts flat t).
  { destruct db as [flat|], f as [t|]; cbn in Hfile; try contradiction.
    - destruct Hfile as (Hschema & rows & Hrows & Hsame).
      destruct (create_reader t Hschema) as (t' & Hcreate & Hs & Hr & _).
      exists flat, t'. split; [reflexivity|]. split; [exact Hcreate|].
      split; [exact Hs|]. exists rows. rewrite Hr. split; assumption.
    - exists (Table [] 0). eexists. split; [reflexivity|].
      split; [reflexivity|]. split; [repeat split|].
      exists []. split; [reflexivity | constructor]. }
  destruct Hstart as (flat & t & Hflat & Hcreate & Habs).
  unfold save_contacts_to_database, Store.save_contacts_to_database, table_after.
  rewrite Hflat, Hcreate.
  destruct contacts as [|c more].
  - cbn. repeat split; try apply Habs.
  - rewrite (reader_insertable t (proj1 Habs)).
    pose proof (insert_loop_abstracts fault clock (c :: more) 0 flat t 0 Habs)
      as Hloop.
    destruct (insert_loop fault clock 0 (c :: more) flat 0) as [flat' m|m],
             (Store.insert_loop fault clock 0 (c :: more) t 0) as [t' m'|m'];
      try contradiction.
    + destruct Hloop as [-> Habs']. cbn. repeat split; try apply Habs'.
    + subst m'. cbn. repeat split; try apply Habs.
Qed.

Lemma X25_rows_abstract_the_schema_witness :
  let r := save_contacts_to_database no_fault (fun _ => 0%N)
             [contact "m1" "Ann"; contact "m1" "Ann"; contact "m2" "Bob"] None in
  let r' := Store.save_contacts_to_database no_fault (fun _ => 0%N)
              [contact "m1" "Ann"; contact "m1" "Ann"; contact "m2" "Bob"] None in
  saved r = Store.saved r'
  /\ printed r = Store.printed r'
  /\ abstracts (table_after r) (Store.table_after r').
Proof.
  apply (X25_rows_abstract_the_schema no_fault (fun _ => 0%N)
           [contact "m1" "Ann"; contact "m1" "Ann"; contact "m2" "Bob"]
           None None I).
Defined.

(** *** [init_database] and [migrate_database] *)

Lemma forallb_false_in {A} (f : A -> bool) l x :
  In x l -> f x = false -> forallb f l = false.
Proof.
  intros Hin Hx. destruct (forallb f l) eqn:Hall; [|reflexivity].
  rewrite forallb_forall in Hall. rewrite (Hall x Hin) in Hx. discriminate.
Qed.

(** X27: a table made by [init_database] takes no contact until it is
    migrated.  On a table without the column message_id and without an
    index of the name idx_message_id, as [init_database] makes it,
    [save_contacts_to_database] stores nothing, whatever the batch: both
    its own [CREATE INDEX] and its first [INSERT] raise, the two faults are
    printed, the table is left as it was and the call returns 0. *)
Theorem X27_unmigrated_table_takes_nothing fault clock contacts t :
  Store.has_column t "message_id" = false ->
  Store.has_index t "idx_message_id" = false ->
  contacts <> [] ->
  let r := Store.save_contacts_to_database fault clock contacts (Some t) in
  Store.saved r = 0
  /\ Store.table_after r = t
  /\ Store.printed r = ["Database creation error"; "Database save error"].
Proof.
  intros Hcol Hidx Hne. cbv zeta.
  unfold Store.save_contacts_to_database, Store.create_contacts_database,
    Store.create_index.
  rewrite Hidx, Hcol. cbn [negb].
  destruct contacts as [|c more]; [congruence|].
  assert (Hin : In "message_id" Store.insert_columns) by (cbn; auto 12).
  rewrite (forallb_false_in _ _ "message_id" Hin Hcol).
  repeat split; reflexivity.
Qed.

Lemma X27_unmigrated_table_takes_nothing_witness :
  let t := default (Store.Table [] [] [] [] 0) (Store.init_database None) in
  let r := Store.save_contacts_to_database no_fault (fun _ => 0%N)
             [contact "m1" "Ann"] (Some t) in
  Store.saved r = 0
  /\ Store.table_after r = t
  /\ Store.printed r = ["Database creation error"; "Database save error"].
Proof.
  apply (X27_unmigrated_table_takes_nothing no_fault (fun _ => 0%N)
           [contact "m1" "Ann"]
           (default (Store.Table [] [] [] [] 0) (Store.init_database None)));
    [reflexivity | reflexivity | discriminate].
Defined.

Lemma has_column_app t c cs :
  existsb (String.eqb c) (Store.s_columns t ++ cs)
  = Store.has_column t c || existsb (String.eqb c) cs.
Proof. unfold Store.has_column. apply existsb_app. Qed.

Lemma create_index_keeps unique name c t t' :
  Store.create_index unique name c t = Some t' ->
  Store.s_columns t' = Store.s_columns t
  /\ Store.s_rows t' = Store.s_rows t
  /\ Store.s_seq t' = Store.s_seq t.
Proof.
  unfold Store.create_index.
  destruct (Store.has_index t name); [intros [= <-]; auto|].
  destruct (negb (Store.has_column t c)); [discriminate|].
  destruct (unique && _); [discriminate|].
  intros [= <-]. auto.
Qed.

(** What [migrate_database] leaves on a file that has a table. *)
Lemma migrate_shape t :
  exists t1 extra printed,
    Store.migrate_database (Some t) = (Some t1, printed)
    /\ Store.s_columns t1 = Store.s_columns t ++ extra
    /\ Store.s_rows t1
       = List.map (fun r => r ++ replicate (length extra) Store.Null)
                  (Store.s_rows t)
    /\ Store.s_seq t1 = Store.s_seq t
    /\ Store.has_column t1 "skills" = true
    /\ Store.has_column t1 "message_id" = true
    /\ (Store.has_column t "skills" = true ->
        Store.has_column t "message_id" = true ->
        t1 = t /\ printed = ["Database migrated successfully"]).
Proof.
  unfold Store.migrate_database.
  change (existsb (String.eqb "skills") (Store.s_columns t))
    with (Store.has_column t "skills").
  change (existsb (String.eqb "message_id") (Store.s_columns t))
    with (Store.has_column t "message_id").
  assert (Hid : forall rows : list (list Store.cell),
            rows = List.map (fun r => r ++ replicate 0 Store.Null) rows).
  { intros rows. induction rows as [|r rows IH]; [reflexivity|].
    cbn. rewrite app_nil_r. f_equal. exact IH. }
  assert (Htwo : forall rows : list (list Store.cell),
            List.map (fun r => r ++ [Store.Null])
                     (List.map (fun r => r ++ [Store.Null]) rows)
            = List.map (fun r => r ++ replicate 2 Store.Null) rows).
  { intros rows. rewrite List.map_map. apply List.map_ext. intros r.
    rewrite <- app_assoc. reflexivity. }
  destruct (Store.has_column t "skills") eqn:Hskills,
           (Store.has_column t "message_id") eqn:Hmid; cbn [negb].
  - exists t, [], ["Database migrated successfully"].
    rewrite app_nil_r. repeat split; auto.
  - destruct (Store.create_index true "idx_message_id" "message_id"
                (Store.add_column "message_id" t)) as [t3|] eqn:Hcreate.
    + destruct (create_index_keeps _ _ _ _ _ Hcreate) as (Hc & Hr & Hs).
      exists t3, ["message_id"], ["Added message_id column";
                                  "Database migrated successfully"].
      unfold Store.has_column. rewrite Hc, Hr, Hs. cbn [Store.add_column
        Store.s_columns Store.s_rows Store.s_seq length replicate].
      rewrite !has_column_app, Hskills, Hmid.
      repeat split; try reflexivity; discriminate.
    + exists (Store.add_column "message_id" t), ["message_id"], ["Migration error"].
      unfold Store.has_column. cbn [Store.add_column
        Store.s_columns Store.s_rows Store.s_seq length replicate].
      rewrite !has_column_app, Hskills, Hmid.
      repeat split; try reflexivity; discriminate.
  - exists (Store.add_column "skills" t), ["skills"],
      ["Added skills column"; "Database migrated successfully"].
    unfold Store.has_column. cbn [Store.add_column
      Store.s_columns Store.s_rows Store.s_seq length replicate].
    rewrite !has_column_app, Hskills, Hmid.
    repeat split; try reflexivity; discriminate.
  - destruct (Store.create_index true "idx_message_id" "message_id"
                (Store.add_column "message_id" (Store.add_column "skills" t)))
      as [t3|] eqn:Hcreate.
    + destruct (create_index_keeps _ _ _ _ _ Hcreate) as (Hc & Hr & Hs).
      exists t3, ["skills"; "message_id"],
        ["Added skills column"; "Added message_id column";
         "Database migrated successfully"].
      unfold Store.has_column. rewrite Hc, Hr, Hs. cbn [Store.add_column
        Store.s_columns Store.s_rows Store.s_seq length].
      rewrite Htwo, <- !app_assoc, !has_column_app, Hskills, Hmid.
      repeat split; try reflexivity; discriminate.
    + exists (Store.add_column "message_id" (Store.add_column "skills" t)),
        ["skills"; "message_id"], ["Added skills column"; "Migration error"].
      unfold Store.has_column. cbn [Store.add_column
        Store.s_columns Store.s_rows Store.s_seq length].
      rewrite Htwo, <- !app_assoc, !has_column_app, Hskills, Hmid.
      repeat split; try reflexivity; discriminate.
Qed.

(** X29: [migrate_database] only adds, and once is enough.  On a file with
    a table it leaves a table that has the columns skills and message_id;
    the columns there were keep their places, those added come last, and
    every row keeps its cells and holds NULL in the added columns; the
    counter is not touched.  A second call changes nothing and prints only
    that the database was migrated.  On a file without table the call
    prints a migration error and creates nothing. *)
Theorem X29_migration_only_adds db :
  match db with
  | None => Store.migrate_database None = (None, ["Migration error"])
  | Some t =>
      exists t1 extra,
        fst (Store.migrate_database (Some t)) = Some t1
        /\ Store.s_columns t1 = Store.s_columns t ++ extra
        /\ Store.s_rows t1
           = List.map (fun r => r ++ replicate (length extra) Store.Null)
                      (Store.s_rows t)
        /\ Store.s_seq t1 = Store.s_seq t
        /\ Store.has_column t1 "skills" = true
        /\ Store.has_column t1 "message_id" = true
        /\ Store.migrate_database (Some t1)
           = (Some t1, ["Database migrated successfully"])
  end.
Proof.
  destruct db as [t|]; [|reflexivity].
  destruct (migrate_shape t)
    as (t1 & extra & printed & Hm & Hc & Hr & Hs & Hskills & Hmid & _).
  exists t1, extra. rewrite Hm. cbn [fst].
  repeat split; try assumption.
  destruct (migrate_shape t1)
    as (t2 & extra2 & printed2 & Hm2 & _ & _ & _ & _ & _ & Hsame).
  destruct (Hsame Hskills Hmid) as [-> ->]. exact Hm2.
Qed.

(** *** The unique keys *)

Lemma insert_column_not_id c :
  In c Store.insert_columns ->
  String.eqb c "id" = false
  /\ existsb (String.eqb c) Store.insert_columns = true.
Proof.
  intros Hin. split.
  - cbn in Hin. repeat (destruct Hin as [<- | Hin]; [reflexivity|]).
    destruct Hin.
  - apply existsb_exists. exists c. split; [exact Hin | apply String.eqb_refl].
Qed.

(** A contact that agrees with a stored row on all the columns of a unique
    key of the table, whichever, is ignored: no row is added, and the
    counter moves. *)
Lemma insert_ignored_by_key now contact_info t key r :
  In key (Store.unique_keys t) ->
  In r (Store.s_rows t) ->
  Forall (fun c => Store.has_column t c = true
                   /\ In c Store.insert_columns
                   /\ Store.cell_at t r c = Store.Text (get_field contact_info c))
         key ->
  Store.insert_or_ignore now contact_info t
  = (Store.Table (Store.s_columns t) (Store.s_unique t) (Store.s_indexes t)
                 (Store.s_rows t) (S (Store.s_seq t)), 0).
Proof.
  intros Hkey Hr Hall. unfold Store.insert_or_ignore.
  assert (Hconf : Store.conflicts t (Store.new_row now contact_info t) = true).
  { unfold Store.conflicts. apply existsb_exists. exists key.
    split; [exact Hkey|]. apply existsb_exists. exists r.
    split; [exact Hr|]. unfold Store.collides. apply forallb_forall.
    intros c Hc. rewrite List.Forall_forall in Hall.
    destruct (Hall c Hc) as (Hcol & Hin & Hcell).
    destruct (insert_column_not_id c Hin) as [Hid Hins].
    rewrite Hcell, (cell_at_new_row now contact_info t c Hcol), Hid, Hins.
    unfold Store.cell_eqb. apply bool_decide_eq_true_2. reflexivity. }
  rewrite Hconf. reflexivity.
Qed.

Lemma create_app_file :
  Store.create_contacts_database app_file
  = (Store.Table (Store.app_columns ++ ["message_id"])
                 [["email_sender"; "email_date"; "name"]]
                 [Store.Index "idx_message_id" true "message_id";
                  Store.Index "idx_created_at" false "created_at"] [] 0, []).
Proof. reflexivity. Qed.

Lemma create_no_file :
  Store.create_contacts_database None
  = (Store.Table Store.reader_columns [["message_id"]]
                 [Store.Index "idx_message_id" false "message_id";
                  Store.Index "idx_created_at" false "created_at"] [] 0, []).
Proof. reflexivity. Qed.

(** X28: which contacts are duplicates depends on who made the table.  Take
    two contacts with the same sender, date and name and different message
    ids, saved in one batch.  On the file that [init_database] and
    [migrate_database] prepare, the table keeps the constraint
    UNIQUE(email_sender, email_date, name) next to the unique index on
    message_id, and only the first contact is stored.  On a file where
    [create_contacts_database] makes the table, both are stored. *)
Theorem X28_duplicates_depend_on_the_schema clock c1 c2 :
  get_field c1 "email_sender" = get_field c2 "email_sender" ->
  get_field c1 "email_date" = get_field c2 "email_date" ->
  get_field c1 "name" = get_field c2 "name" ->
  contact_id c1 <> contact_id c2 ->
  Store.saved (Store.save_contacts_to_database no_fault clock [c1; c2] app_file)
  = 1
  /\ Store.saved (Store.save_contacts_to_database no_fault clock [c1; c2] None)
     = 2.
Proof.
  intros Hsender Hdate Hname Hmid. split.
  - unfold Store.save_contacts_to_database. rewrite create_app_file.
    set (t := Store.Table _ _ _ _ _).
    change (forallb (Store.has_column t) Store.insert_columns) with true.
    cbn iota. cbn [Store.insert_loop]. unfold no_fault at 1 2.
    assert (Hfirst : Store.insert_or_ignore (clock 0) c1 t
      = (Store.Table (Store.s_columns t) (Store.s_unique t) (Store.s_indexes t)
           [Store.new_row (clock 0) c1 t] 1, 1)) by reflexivity.
    rewrite Hfirst. cbn [Nat.ltb Nat.leb].
    set (t1 := Store.Table _ _ _ _ 1).
    rewrite (insert_ignored_by_key (clock 1) c2 t1
               ["email_sender"; "email_date"; "name"]
               (Store.new_row (clock 0) c1 t)).
    + reflexivity.
    + left. reflexivity.
    + left. reflexivity.
    + assert (Hcell : forall c, Store.has_column t c = true ->
                Store.cell_at t1 (Store.new_row (clock 0) c1 t) c
                = Store.cell_at t (Store.new_row (clock 0) c1 t) c)
        by reflexivity.
      apply List.Forall_forall. intros c Hc.
      destruct Hc as [<- | [<- | [<- | []]]];
        (split; [reflexivity|]; split; [cbn; auto 12|];
         rewrite Hcell, cell_at_new_row by reflexivity;
         cbn -[get_field]; congruence).
  - unfold Store.save_contacts_to_database. rewrite create_no_file.
    set (t := Store.Table _ _ _ _ _).
    assert (Hschema : reader_schema t) by (repeat split).
    change (forallb (Store.has_column t) Store.insert_columns) with true.
    cbn iota. cbn [Store.insert_loop]. unfold no_fault at 1 2.
    assert (Hfirst : Store.insert_or_ignore (clock 0) c1 t
      = (Store.Table (Store.s_columns t) (Store.s_unique t) (Store.s_indexes t)
           [Store.new_row (clock 0) c1 t] 1, 1)) by reflexivity.
    rewrite Hfirst. cbn [Nat.ltb Nat.leb].
    set (t1 := Store.Table _ _ _ _ 1).
    assert (Hschema1 : reader_schema t1) by (repeat split).
    unfold Store.insert_or_ignore.
    rewrite (reader_new_row (clock 1) c2 t1 eq_refl).
    rewrite (reader_conflicts t1 [_] _ Hschema1
               (f_equal (fun r => [r]) (reader_new_row (clock 0) c1 t eq_refl))).
    cbn [existsb r_message_id]. unfold str_eqb.
    rewrite bool_decide_eq_false_2 by exact Hmid. reflexivity.
Qed.

Lemma X28_duplicates_depend_on_the_schema_witness :
  let c1 := <["message_id" := u "m1"]> (contact "m1" "Ann") in
  let c2 := <["message_id" := u "m2"]> (contact "m1" "Ann") in
  Store.saved (Store.save_contacts_to_database no_fault (fun _ => 0%N)
                 [c1; c2] app_file) = 1
  /\ Store.saved (Store.save_contacts_to_database no_fault (fun _ => 0%N)
                    [c1; c2] None) = 2.
Proof.
  apply (X28_duplicates_depend_on_the_schema (fun _ => 0%N)
           (<["message_id" := u "m1"]> (contact "m1" "Ann"))
           (<["message_id" := u "m2"]> (contact "m1" "Ann")));
    try reflexivity.
  vm_compute. discriminate.
Defined.

(** *** The dictionaries of [get_contacts] *)

Lemma store_insert_desc_in t r x : forall sorted,
  In x (Store.insert_desc t r sorted) -> x = r \/ In x sorted.
Proof.
  induction sorted as [|r' more IH]; cbn [Store.insert_desc].
  - intros [<- | []]. left. reflexivity.
  - destruct (Store.not_after _ _).
    + intros [<- | Hin]; [left; reflexivity | right; exact Hin].
    + intros [<- | Hin]; [right; left; reflexivity|].
      destruct (IH Hin) as [-> | Hmore]; [left; reflexivity|].
      right. right. exact Hmore.
Qed.

Lemma store_order_in t x : forall rows,
  In x (Store.order_by_created_at_desc t rows) -> In x rows.
Proof.
  induction rows as [|r rows IH]; cbn; [auto|].
  intros Hin. apply store_insert_desc_in in Hin as [-> | Hin]; auto.
Qed.

Lemma mapM_from {A B} (f : A -> option B) l vs :
  mapM f l = Some vs ->
  Forall (fun v => exists x, In x l /\ f x = Some v) vs.
Proof.
  intros Hmap. apply mapM_Some in Hmap.
  induction Hmap as [|x v l vs Hxv _ IH]; constructor.
  - exists x. split; [left; reflexivity | exact Hxv].
  - eapply Forall_impl; [exact IH|]. cbn. intros v' (x' & Hin & Hx').
    exists x'. split; [right; exact Hin | exact Hx'].
Qed.

(** Every dictionary of the result is made of a row of the table. *)
Lemma get_contacts_views search_term t views :
  Store.get_contacts search_term (Some t) = Some views ->
  Forall (fun v => exists r, In r (Store.s_rows t)
                             /\ Store.contact_view r = Some v) views.
Proof.
  unfold Store.get_contacts.
  destruct (negb (Store.has_column t "created_at")); [discriminate|].
  assert (Hrows : forall rows,
    (forall r, In r rows -> In r (Store.s_rows t)) ->
    mapM Store.contact_view (Store.order_by_created_at_desc t rows) = Some views ->
    Forall (fun v => exists r, In r (Store.s_rows t)
                               /\ Store.contact_view r = Some v) views).
  { intros rows Hsub Hmap. apply mapM_from in Hmap.
    eapply Forall_impl; [exact Hmap|]. cbn. intros v (r & Hin & Hr).
    exists r. split; [|exact Hr]. apply Hsub, (store_order_in t), Hin. }
  destruct search_term as [[|c term]|].
  - apply Hrows. auto.
  - destruct (forallb (Store.has_column t) Store.search_columns);
      [|discriminate].
    apply Hrows. intros r Hr. apply filter_In in Hr as [Hr _]. exact Hr.
  - apply Hrows. auto.
Qed.

(** A dictionary holds, under its [i]-th key, the [i]-th cell of the row. *)
Lemma contact_view_lookup r v :
  Store.contact_view r = Some v ->
  forall i k, Store.view_keys !! i = Some k ->
              v !! k = Some (default Store.Null (r !! i)).
Proof.
  unfold Store.contact_view.
  destruct r as [|c0 [|c1 [|c2 [|c3 [|c4 [|c5 [|c6 [|c7 [|c8 [|c9 more]]]]]]]]]];
    try discriminate.
  cbn [length Nat.leb]. intros [= <-] i k Hk.
  do 10 (destruct i as [|i]; [injection Hk as <-; reflexivity|]).
  cbn in Hk. discriminate.
Qed.

(** X26: [get_contacts] reads the cells by their place, not by their name.
    On a table made by [create_contacts_database], where message_id is the
    tenth column and created_at the eleventh, the entry created_at of every
    dictionary returned is the message id of its row, and the time of the
    insert is in none of its entries; the other nine entries are the cells
    of the columns of their names.  On a table made by [init_database],
    migrated or not, every entry is the cell of the column of its name. *)
Theorem X26_created_at_is_read_by_place search_term t views :
  Store.get_contacts search_term (Some t) = Some views ->
  (Store.s_columns t = Store.reader_columns ->
   Forall (fun v =>
             exists r, In r (Store.s_rows t)
                       /\ v !! "created_at"
                          = Some (Store.cell_at t r "message_id")
                       /\ forall k, In k Store.view_keys -> k <> "created_at" ->
                                    v !! k = Some (Store.cell_at t r k))
          views)
  /\ (take 10 (Store.s_columns t) = Store.app_columns ->
      Forall (fun v =>
                exists r, In r (Store.s_rows t)
                          /\ forall k, In k Store.view_keys ->
                                       v !! k = Some (Store.cell_at t r k))
             views).
Proof.
  intros Hget. pose proof (get_contacts_views _ _ _ Hget) as Hviews.
  split; intros Hcols; (eapply Forall_impl; [exact Hviews|]); cbn beta;
    intros v (r & Hin & Hview); exists r; (split; [exact Hin|]);
    pose proof (contact_view_lookup r v Hview) as Hat.
  - split.
    + rewrite (Hat 9 "created_at") by reflexivity.
      unfold Store.cell_at. rewrite Hcols. reflexivity.
    + intros k Hk Hne. unfold Store.cell_at. rewrite Hcols.
      cbn in Hk.
      repeat (destruct Hk as [<- | Hk];
              [first [ congruence
                     | match goal with
                       | |- _ !! ?key = _ =>
                           let i := eval vm_compute in
                                      (default 0 (Store.position key Store.view_keys)) in
                           rewrite (Hat i key) by reflexivity; reflexivity
                       end ]|]).
      destruct Hk.
  - intros k Hk. unfold Store.cell_at.
    rewrite <- (take_drop 10 (Store.s_columns t)), Hcols.
    cbn in Hk.
    repeat (destruct Hk as [<- | Hk];
            [match goal with
             | |- _ !! ?key = _ =>
                 let i := eval vm_compute in
                            (default 0 (Store.position key Store.view_keys)) in
                 rewrite (Hat i key) by reflexivity; reflexivity
             end|]).
    destruct Hk.
Qed.

Lemma X26_created_at_is_read_by_place_witness :
  let t := Store.table_after
             (Store.save_contacts_to_database no_fault (fun _ => 77%N)
                [contact "m1" "Ann"] None) in
  Forall (fun v =>
            exists r, In r (Store.s_rows t)
                      /\ v !! "created_at"
                         = Some (Store.cell_at t r "message_id")
                      /\ forall k, In k Store.view_keys -> k <> "created_at" ->
                                   v !! k = Some (Store.cell_at t r k))
         (default [] (Store.get_contacts None (Some t))).
Proof.
  cbv zeta.
  set (t := Store.table_after
              (Store.save_contacts_to_database no_fault (fun _ => 77%N)
                 [contact "m1" "Ann"] None)).
  assert (Hget : Store.get_contacts None (Some t)
                 = Some (default [] (Store.get_contacts None (Some t))))
    by (vm_compute; reflexivity).
  exact (proj1 (X26_created_at_is_read_by_place None t _ Hget) eq_refl).
Defined.

(** ** Labelled values *)

Lemma starts_nowhere_split w rest : forall pre,
  starts_nowhere w pre rest = true ->
  forall a b, pre = a ++ b -> b <> [] ->
              starts_with_label w (b ++ rest) = false.
Proof.
  induction pre as [|c pre IH]; intros Hpre a b Hsplit Hb.
  - destruct a, b; try discriminate. congruence.
  - cbn [starts_nowhere] in Hpre. apply andb_true_iff in Hpre as [Hhere Hlater].
    destruct a as [|c' a].
    + cbn in Hsplit. subst b. apply negb_true_iff in Hhere. exact Hhere.
    + injection Hsplit as _ Hsplit. apply (IH Hlater a b Hsplit Hb).
Qed.

Lemma prev_after_app pv (a b : list N) :
  prev_after pv (a ++ b) = prev_after (prev_after pv a) b.
Proof. unfold prev_after. apply foldl_app. Qed.

(** The search passes over the positions at which the pattern fails. *)
Lemma scan_skip f r (s : list N) : forall (pre : list N) pv p,
  (forall a b, pre = a ++ b -> b <> [] ->
               forall pv' p', run f r Some (MState pv' p' (b ++ s) None) = None) ->
  scan f r pv p (pre ++ s) = scan f r (prev_after pv pre) (p + length pre) s.
Proof.
  induction pre as [|c pre IH]; intros pv p Hnone.
  - cbn. rewrite Nat.add_0_r. reflexivity.
  - pose proof (Hnone [] (c :: pre) eq_refl ltac:(discriminate) pv p) as H0.
    cbn [app] in H0. cbn [app scan]. rewrite H0.
    rewrite IH.
    + cbn [length]. rewrite Nat.add_succ_r. reflexivity.
    + intros a b -> Hb pv' p'. apply (Hnone (c :: a) b eq_refl Hb).
Qed.

Lemma run_word_some f k g :
  IGNORECASE f = true ->
  forall (w lab : list N) pv p (more : list N),
    starts_with_label w lab = true -> length lab = length w ->
    run f (foldr (fun c r => Cat (Atom (Lit c)) r) Eps w) k
        (MState pv p (lab ++ more) g)
    = k (MState (prev_after pv lab) (p + length lab) more g).
Proof.
  intros Hic. induction w as [|x w IH]; intros lab pv p more Hw Hlen.
  - destruct lab; [|discriminate]. cbn. rewrite Nat.add_0_r. reflexivity.
  - destruct lab as [|c lab]; [discriminate|].
    cbn [starts_with_label] in Hw. apply andb_true_iff in Hw as [Hc Hw].
    cbn [foldr]. rewrite run_cat. cbn [run rest app atom_match pos grp].
    rewrite Hic, Hc. rewrite IH by (try exact Hw; cbn in Hlen; lia).
    cbn [length]. rewrite Nat.add_succ_r. reflexivity.
Qed.

(** A greedy repetition takes the whole run when the rest of the pattern
    then matches. *)
Lemma rep_greedy_all test k g m (more : list N) :
  match more with c :: _ => test c = false | [] => True end ->
  forall (ws : list N) pv p,
    forallb test ws = true ->
    k (MState (prev_after pv ws) (p + length ws) more g) = Some m ->
    rep test true 0 None k pv p g (ws ++ more) = Some m.
Proof.
  intros Hmore. induction ws as [|c ws IH]; intros pv p Hws Hk.
  - cbn in Hk. rewrite Nat.add_0_r in Hk. cbn [app].
    destruct more as [|c more]; cbn [rep]; [exact Hk|].
    rewrite Hmore. cbn [andb]. exact Hk.
  - cbn [forallb] in Hws. apply andb_true_iff in Hws as [Hc Hws].
    cbn [app rep]. rewrite Hc. cbn [andb allows dec_hi].
    rewrite (IH (Some c) (S p) Hws); [reflexivity|].
    cbn [length] in Hk. rewrite Nat.add_succ_r in Hk. exact Hk.
Qed.

Lemma rep_exhausted test k g pv p (s : list N) :
  rep test true 0 (Some 0) k pv p g s = k (MState pv p s g).
Proof.
  destruct s as [|c s]; cbn [rep]; [reflexivity|].
  rewrite andb_false_r. reflexivity.
Qed.

(** A lazy repetition stops at the first position at which the rest of the
    pattern matches. *)
Lemma rep_lazy_until test k g m (post : list N) :
  (forall c, test c = true) ->
  forall (w : list N) pv p,
    (forall a b pv' p', w = a ++ b -> b <> [] ->
                        k (MState pv' p' (b ++ post) g) = None) ->
    k (MState (prev_after pv w) (p + length w) post g) = Some m ->
    rep test false 0 None k pv p g (w ++ post) = Some m.
Proof.
  intros Htest. induction w as [|c w IH]; intros pv p Hnone Hk.
  - cbn in Hk. rewrite Nat.add_0_r in Hk. cbn [app].
    destruct post; cbn [rep]; rewrite Hk; reflexivity.
  - pose proof (Hnone [] (c :: w) pv p eq_refl ltac:(discriminate)) as H0.
    cbn [app] in H0. cbn [app rep]. rewrite H0.
    rewrite Htest. cbn [andb allows dec_hi].
    apply IH.
    + intros a b pv' p' -> Hb. apply (Hnone (c :: a) b pv' p' eq_refl Hb).
    + cbn [length] in Hk. rewrite Nat.add_succ_r in Hk. exact Hk.
Qed.

Lemma run_stops_eol ls k m :
  at_eol parse_flags m = true ->
  (forall l, In l ls -> starts_with_label (u l) (rest m) = false) ->
  run parse_flags (stops ls) k m = k m.
Proof.
  intros Heol. induction ls as [|l ls IH]; intros Hls; cbn [stops foldr run].
  - rewrite Heol. reflexivity.
  - unfold word. rewrite run_word_none;
      [|reflexivity | apply Hls; left; reflexivity].
    apply IH. intros l' Hl'. apply Hls. right. exact Hl'.
Qed.

(** At the end of a line the boundary holds, ... *)
Lemma boundary_at_line_end ls k m :
  ends_line (rest m) = true ->
  (forall l, In l ls -> starts_with_label (u l) (rest m) = false) ->
  run parse_flags (boundary ls) k m = k m.
Proof.
  intros Hend Hls. unfold boundary. rewrite run_ahead, run_cat.
  assert (Hstops : run parse_flags (stops ls) Some m = Some m).
  { apply run_stops_eol; [|exact Hls].
    unfold at_eol. destruct (rest m) as [|c t]; [reflexivity|].
    cbn in Hend. rewrite Hend. reflexivity. }
  assert (Hsome : exists m', run parse_flags (star Space) (run parse_flags (stops ls) Some) m
                             = Some m').
  { unfold star. cbn [run]. destruct m as [pv p s g]. cbn [prev pos grp rest] in *.
    destruct s as [|c t]; cbn [rep].
    - rewrite Hstops. eauto.
    - destruct (if atom_match parse_flags Space c && allows None
                then rep (atom_match parse_flags Space) true 0 (dec_hi None)
                       (run parse_flags (stops ls) Some) (Some c) (S p) g t
                else None) as [m'|]; [eauto|].
      rewrite Hstops. eauto. }
  destruct Hsome as [m' ->]. reflexivity.
Qed.

Lemma last_ok_all_blank (b : list N) :
  b <> [] -> last_ok b = true -> forallb isspace b = false.
Proof.
  intros Hne Hlast. destruct (exists_last Hne) as (a & c & ->).
  unfold last_ok in Hlast. rewrite rev_app_distr in Hlast. cbn in Hlast.
  rewrite forallb_app. cbn. apply negb_true_iff in Hlast. rewrite Hlast.
  rewrite andb_false_r. reflexivity.
Qed.

(** A run of white space that begins a text which does not end in white
    space is a proper prefix of the text. *)
Lemma blank_prefix_proper (b post ws s' : list N) :
  b ++ post = ws ++ s' -> forallb isspace ws = true ->
  b <> [] -> last_ok b = true ->
  exists y, b = ws ++ y /\ y <> [] /\ s' = y ++ post.
Proof.
  revert ws. induction b as [|c b IH]; intros ws Heq Hws Hne Hlast;
    [congruence|].
  destruct ws as [|d ws].
  - exists (c :: b). cbn in Heq. subst s'. repeat split. discriminate.
  - cbn in Heq. injection Heq as <- Heq.
    cbn [forallb] in Hws. apply andb_true_iff in Hws as [Hc Hws].
    destruct b as [|c' b].
    + exfalso. unfold last_ok in Hlast. cbn in Hlast. rewrite Hc in Hlast.
      discriminate.
    + rewrite last_ok_cons in Hlast.
      destruct (IH ws Heq Hws ltac:(discriminate) Hlast) as (y & Hy & Hyne & Hs').
      exists y. rewrite Hy. repeat split; assumption.
Qed.

(** ... and inside a text without line end and label it does not. *)
Lemma boundary_none_inside ls k m (b post : list N) :
  rest m = b ++ post ->
  b <> [] -> last_ok b = true -> has_LF b = false ->
  (forall l x y, In l ls -> b = x ++ y -> y <> [] ->
                 starts_with_label (u l) (y ++ post) = false) ->
  run parse_flags (boundary ls) k m = None.
Proof.
  intros Hrest Hne Hlast Hlf Hlabels. unfold boundary.
  rewrite run_ahead, run_cat.
  assert (Hnone : run parse_flags (star Space)
                    (run parse_flags (stops ls) Some) m = None);
    [|rewrite Hnone; reflexivity].
  unfold star. cbn [run]. apply rep_none.
  intros ws s' pv' p' Hsplit Hws. rewrite Hrest in Hsplit.
  destruct (blank_prefix_proper b post ws s' Hsplit Hws Hne Hlast)
    as (y & Hy & Hyne & ->).
  destruct y as [|c y]; [congruence|].
  apply (run_stops_none ls Some _ c (y ++ post)); cbn [rest].
  - reflexivity.
  - eapply (has_LF_split ws c y). rewrite <- Hy. exact Hlf.
  - intros l Hl. apply (Hlabels l ws (c :: y) Hl Hy). discriminate.
Qed.

Lemma starts_with_label_before_line (w y post : list N) :
  forallb (fun x => negb (lit_ignore x LF)) w = true ->
  ends_line post = true ->
  starts_with_label w y = false ->
  starts_with_label w (y ++ post) = false.
Proof.
  intros Hw Hpost. revert y. induction w as [|x w IH]; intros y Hy;
    [discriminate|].
  cbn [forallb] in Hw. apply andb_true_iff in Hw as [Hx Hw].
  destruct y as [|c y].
  - cbn [app]. destruct post as [|d post]; [reflexivity|].
    cbn in Hpost. apply N.eqb_eq in Hpost. subst d.
    cbn [starts_with_label]. apply negb_true_iff in Hx. rewrite Hx. reflexivity.
  - cbn [app starts_with_label] in *.
    destruct (lit_ignore x c); [|reflexivity]. cbn [andb] in *.
    apply IH; assumption.
Qed.

Lemma slice_middle (x v y : list N) :
  slice (x ++ v ++ y) (length x) (length x + length v) = v.
Proof.
  unfold slice. rewrite drop_app_length.
  replace (length x + length v - length x) with (length v) by lia.
  apply take_app_length.
Qed.

Lemma last_ok_suffix (a b : list N) :
  last_ok (a ++ b) = true -> b <> [] -> last_ok b = true.
Proof.
  intros Hlast Hb. unfold last_ok in *. rewrite rev_app_distr in Hlast.
  destruct (rev b) as [|c r] eqn:Hr.
  - apply (f_equal (@rev N)) in Hr. rewrite rev_involutive in Hr. cbn in Hr.
    congruence.
  - exact Hlast.
Qed.

Lemma any_matches c : atom_match parse_flags Any c = true.
Proof. reflexivity. Qed.

(** The first pattern of a free-text field, tried where the label stands:
    it matches, and captures the value up to the end of its line. *)
Lemma run_labelled l ls pv p (lab ws v post : list N) :
  starts_with_label (u l) lab = true -> length lab = length (u l) ->
  forallb isspace ws = true ->
  v <> [] -> first_ok v = true -> last_ok v = true -> has_LF v = false ->
  (forall stop, In stop ls ->
     contains_label (u stop) v = false
     /\ forallb (fun x => negb (lit_ignore x LF)) (u stop) = true) ->
  ends_line post = true ->
  exists pvf,
    run parse_flags
        (Cat (label_head l) (Cat (Group (plus_lazy Any)) (boundary ls))) Some
        (MState pv p (lab ++ [ch ":"] ++ ws ++ v ++ post) None)
    = Some (MState pvf (p + length lab + 1 + length ws + length v) post
                   (Some (p + length lab + 1 + length ws,
                          p + length lab + 1 + length ws + length v))).
Proof.
  intros Hlab Hlen Hws Hne Hfirst Hlast Hlf Hstops Hpost.
  destruct v as [|c v]; [congruence|]. clear Hne.
  cbn [first_ok] in Hfirst. apply negb_true_iff in Hfirst.
  set (p3 := p + length lab + 1 + length ws).
  set (pf := p3 + length (c :: v)).
  (* the boundary at the end of the value *)
  assert (Hend : forall pvf g,
    run parse_flags (boundary ls) Some (MState pvf pf post g)
    = Some (MState pvf pf post g)).
  { intros pvf g. apply boundary_at_line_end; cbn [rest]; [exact Hpost|].
    intros stop Hstop. destruct (Hstops stop Hstop) as [Hfree Hletters].
    apply (starts_with_label_before_line (u stop) [] post Hletters Hpost).
    destruct (u stop); [|reflexivity].
    destruct v; cbn in Hfree; discriminate. }
  (* the boundary inside the value *)
  assert (Hinside : forall a b pvm pm g,
    v = a ++ b -> b <> [] ->
    run parse_flags (boundary ls) Some (MState pvm pm (b ++ post) g) = None).
  { intros a b pvm pm g Hv Hb.
    apply (boundary_none_inside ls Some _ b post); cbn [rest];
      [reflexivity | exact Hb | | |].
    - apply (last_ok_suffix (c :: a) b); [|exact Hb].
      cbn [app]. rewrite <- Hv. exact Hlast.
    - apply (has_LF_suffix (c :: a)). cbn [app]. rewrite <- Hv. exact Hlf.
    - intros stop x y Hstop Hxy Hy.
      destruct (Hstops stop Hstop) as [Hfree Hletters].
      apply (starts_with_label_before_line _ _ _ Hletters Hpost).
      apply (contains_label_split (u stop) (c :: v) Hfree (c :: a ++ x) y).
      rewrite Hv, Hxy. cbn. rewrite <- app_assoc. reflexivity. }
  (* the group *)
  set (mf := MState (prev_after (Some c) v) pf post (Some (p3, pf))).
  assert (Hgroup : forall pv3,
    run parse_flags (Cat (Group (plus_lazy Any)) (boundary ls)) Some
        (MState pv3 p3 ((c :: v) ++ post) None) = Some mf).
  { intros pv3. rewrite run_cat. unfold plus_lazy.
    cbn [run prev pos rest grp app rep]. rewrite any_matches.
    cbn [andb allows dec_hi].
    apply rep_lazy_until.
    - exact any_matches.
    - intros a b pv' p' Hv Hb. cbn beta. cbn [prev pos rest].
      apply (Hinside a b _ _ _ Hv Hb).
    - cbn beta. cbn [prev pos rest].
      replace (S p3 + length v) with pf by (unfold pf; cbn [length]; lia).
      apply Hend. }
  exists (prev_after (Some c) v). fold pf. fold mf.
  (* the head of the pattern *)
  rewrite run_cat. unfold label_head. cbn [cat]. rewrite !run_cat.
  unfold word. rewrite (run_word_some parse_flags _ None eq_refl (u l) lab pv p _ Hlab Hlen).
  unfold star at 1. cbn [run prev pos rest grp app rep].
  change (atom_match parse_flags Space (ch ":")) with false.
  cbn [andb]. unfold opt. cbn [run prev pos rest grp rep].
  change (atom_match parse_flags (Lit (ch ":")) (ch ":")) with true.
  cbn [andb allows dec_hi Nat.pred]. rewrite rep_exhausted.
  assert (Hspace : run parse_flags (star Space)
            (run parse_flags (Cat (Group (plus_lazy Any)) (boundary ls)) Some)
            (MState (Some (ch ":")) (S (p + length lab)) (ws ++ (c :: v) ++ post) None)
          = Some mf).
  { unfold star. cbn [run prev pos rest grp].
    apply rep_greedy_all.
    - cbn [app]. exact Hfirst.
    - exact Hws.
    - replace (S (p + length lab) + length ws) with p3 by (unfold p3; lia).
      apply Hgroup. }
  match goal with
  | |- match ?x with Some _ => _ | None => _ end = _ =>
      assert (Hx : x = Some mf) by exact Hspace; rewrite Hx
  end.
  reflexivity.
Qed.

Lemma scan_here f r pv p (s : list N) m :
  run f r Some (MState pv p s None) = Some m ->
  scan f r pv p s = Some (MatchObj p (pos m) (grp m)).
Proof. intros Hrun. destruct s; cbn [scan]; rewrite Hrun; reflexivity. Qed.

(** Where the label stands for the first time, with its value on the same
    line, the first pattern of the field finds the value. *)
Lemma search_labelled l ls (pre lab ws v post : list N) :
  starts_with_label (u l) lab = true -> length lab = length (u l) ->
  starts_nowhere (u l) pre (lab ++ [ch ":"] ++ ws ++ v ++ post) = true ->
  forallb isspace ws = true ->
  v <> [] -> first_ok v = true -> last_ok v = true -> has_LF v = false ->
  (forall stop, In stop ls ->
     contains_label (u stop) v = false
     /\ forallb (fun x => negb (lit_ignore x LF)) (u stop) = true) ->
  ends_line post = true ->
  exists a e,
    re_search parse_flags
      (Cat (label_head l) (Cat (Group (plus_lazy Any)) (boundary ls)))
      (pre ++ lab ++ [ch ":"] ++ ws ++ v ++ post)
    = Some (MatchObj a e
              (Some (length (pre ++ lab ++ [ch ":"] ++ ws),
                     length (pre ++ lab ++ [ch ":"] ++ ws) + length v))).
Proof.
  intros Hlab Hlen Hpre Hws Hne Hfirst Hlast Hlf Hstops Hpost.
  unfold re_search. rewrite scan_skip.
  - destruct (run_labelled l ls (prev_after None pre) (0 + length pre)
                lab ws v post Hlab Hlen Hws Hne Hfirst Hlast Hlf Hstops Hpost)
      as [pvf Hrun].
    rewrite (scan_here _ _ _ _ _ _ Hrun). cbn [pos grp].
    assert (Hx : length (pre ++ lab ++ [ch ":"] ++ ws)
                 = 0 + length pre + length lab + 1 + length ws).
    { rewrite !length_app. simpl length. unfold char in *. lia. }
    rewrite Hx. eexists _, _. reflexivity.
  - intros a b Hsplit Hb pv' p'. apply run_label_head_none. cbn [rest].
    apply (starts_nowhere_split _ _ _ Hpre a b Hsplit Hb).
Qed.

Lemma free_text_patterns field ls :
  In (field, ls) free_text ->
  (exists others,
     In (field,
         Cat (label_head field) (Cat (Group (plus_lazy Any)) (boundary ls))
         :: others) patterns)
  /\ forallb (fun stop => forallb (fun x => negb (lit_ignore x LF)) (u stop)) ls
     = true.
Proof.
  intros Hin. cbn in Hin.
  destruct Hin as [H | [H | [H | [H | []]]]]; injection H as <- <-;
    (split; [eexists; cbn; eauto 6 | reflexivity]).
Qed.

(** X30: a labelled value is extracted wherever its line stands.  Take one
    of the fields name, address, skills and other, and a body whose cleaned
    text has the label of the field, in any case of its letters, for the
    first time at some place, followed by a colon, white space and a value.
    If the value is not empty, neither begins nor ends with white space,
    has no line feed and none of the labels that close the capture of the
    field, and is followed by the end of the line or of the text, then
    [_parse_contact_info] binds the field to the cleaned value, whatever
    stands before the label and after the line. *)
Theorem X30_labelled_value_is_extracted email_body field ls
    (pre lab ws v post : list N) :
  In (field, ls) free_text ->
  cleaned email_body = pre ++ lab ++ [ch ":"] ++ ws ++ v ++ post ->
  starts_with_label (u field) lab = true -> length lab = length (u field) ->
  starts_nowhere (u field) pre (lab ++ [ch ":"] ++ ws ++ v ++ post) = true ->
  forallb isspace ws = true ->
  v <> [] -> first_ok v = true -> last_ok v = true -> has_LF v = false ->
  forallb (fun stop => negb (contains_label (u stop) v)) ls = true ->
  ends_line post = true ->
  _parse_contact_info email_body !! field = Some (clean_value v).
Proof.
  intros Hfield Hbody Hlab Hlen Hpre Hws Hne Hfirst Hlast Hlf Hfree Hpost.
  destruct (free_text_patterns field ls Hfield) as [[others Hin] Hletters].
  rewrite (parse_contact_info_lookup _ _ _ Hin), Hbody.
  assert (Hstops : forall stop, In stop ls ->
            contains_label (u stop) v = false
            /\ forallb (fun x => negb (lit_ignore x LF)) (u stop) = true).
  { intros stop Hstop. rewrite forallb_forall in Hfree, Hletters.
    split; [apply negb_true_iff, Hfree, Hstop | apply Hletters, Hstop]. }
  destruct (search_labelled field ls pre lab ws v post Hlab Hlen Hpre Hws Hne
              Hfirst Hlast Hlf Hstops Hpost) as (a & e & Hsearch).
  cbn [first_match]. rewrite Hsearch. cbn [default].
  unfold group1. cbn [m_group1].
  replace (pre ++ lab ++ [ch ":"] ++ ws ++ v ++ post)
    with ((pre ++ lab ++ [ch ":"] ++ ws) ++ v ++ post)
    by (rewrite <- !app_assoc; reflexivity).
  rewrite slice_middle. reflexivity.
Qed.

Lemma X30_labelled_value_is_extracted_witness :
  _parse_contact_info jane_body !! "address"
  = Some (clean_value (u "2 Green Drive")).
Proof.
  apply (X30_labelled_value_is_extracted jane_body "address"
           ["postcode"; "skills"; "other"; "from"; "subject"]
           (u "Name: Jane Doe" ++ [LF]) (u "Address") [32%N]
           (u "2 Green Drive")
           ([LF] ++ u "Postcode: PR1 0RD" ++ [LF] ++ u "Skills: DevOps" ++ [LF]
              ++ u "Other: N/A"));
    try (vm_compute; reflexivity).
  - cbn. auto.
  - discriminate.
Defined.
